(** * sentence-vtt-trans: the VTT parser, sentence grouper, translation
      redistributor and reconstructor of [src/lib/vttParser.ts]

    A shallow embedding of the [VTTParser] class and the properties the
    specification states about it.

    - JavaScript strings are sequences of UTF-16 code units ([jsstring]);
      [String.prototype.length] is the length of the sequence.
    - JavaScript arrays are lists; reading an index that is out of range
      gives [undefined] ([None]), and using a property of [undefined]
      throws a [TypeError].
    - The methods run in a small result monad: a call either returns a
      value, throws a [TypeError], or (for the [while] loop, which is run
      on a budget of iterations) exhausts that budget. *)

From Stdlib Require Import String Ascii.
From Stdlib Require Import List NArith ZArith Arith Bool Lia.
From Stdlib Require Import Permutation Sorted.
From Equations Require Import Equations.
Import ListNotations.


(** ** Outcomes of a method call *)

Inductive result (A : Type) : Type :=
| Ok (a : A)
| TypeError
| OutOfFuel.

Arguments Ok {A} a.
Arguments TypeError {A}.
Arguments OutOfFuel {A}.

Definition bind {A B : Type} (r : result A) (k : A -> result B) : result B :=
  match r with
  | Ok a => k a
  | TypeError => TypeError
  | OutOfFuel => OutOfFuel
  end.

Notation "x <- e ;; k" := (bind e (fun x => k))
  (at level 61, e at next level, right associativity).
Notation "' p <- e ;; k" := (bind e (fun x => match x with p => k end))
  (at level 61, p pattern, e at next level, right associativity).

(** [for (let i = lo; i < lo + n; i++) body], threading the loop's
    variables as a state. *)
Fixpoint for_loop {S : Type} (n : nat) (i : nat)
         (body : nat -> S -> result S) (s : S) : result S :=
  match n with
  | O => Ok s
  | Datatypes.S n' => s' <- body i s ;; for_loop n' (Datatypes.S i) body s'
  end.

(** ** JavaScript strings and arrays *)

Module Js.

Definition char := N.
Definition jsstring := list char.

(** An ASCII literal as a JavaScript string. *)
Definition lit (s : string) : jsstring :=
  List.map N_of_ascii (list_ascii_of_string s).

Definition SPACE : char := 32%N.
Definition NEWLINE : char := 10%N.
Definition CR : char := 13%N.

(** WhiteSpace and LineTerminator code points: what [trim] strips and what
    the regular expression class [\s] matches. *)
Definition is_ws (c : char) : bool :=
  ((9 <=? c) && (c <=? 13) || (c =? 32) || (c =? 160) || (c =? 5760)
   || (8192 <=? c) && (c <=? 8202) || (c =? 8232) || (c =? 8233)
   || (c =? 8239) || (c =? 8287) || (c =? 12288) || (c =? 65279))%N.

Fixpoint eqb (s t : jsstring) : bool :=
  match s, t with
  | [], [] => true
  | a :: s', b :: t' => N.eqb a b && eqb s' t'
  | _, _ => false
  end.

Fixpoint trimStart (s : jsstring) : jsstring :=
  match s with
  | [] => []
  | c :: s' => if is_ws c then trimStart s' else s
  end.

Definition trimEnd (s : jsstring) : jsstring := rev (trimStart (rev s)).

Definition trim (s : jsstring) : jsstring := trimEnd (trimStart s).

(** A matcher tries to match at the head of a string and returns what
    follows the match. *)
Definition matcher := jsstring -> option jsstring.

(** Matching a literal separator. *)
Fixpoint strip_prefix (p s : jsstring) : option jsstring :=
  match p, s with
  | [], _ => Some s
  | a :: p', b :: s' => if N.eqb a b then strip_prefix p' s' else None
  | _ :: _, [] => None
  end.

(** Matching the regular expression [\r?\n]. *)
Definition line_break : matcher := fun s =>
  match s with
  | c :: s' =>
      if N.eqb c NEWLINE then Some s'
      else if N.eqb c CR then
             match s' with
             | d :: s'' => if N.eqb d NEWLINE then Some s'' else None
             | [] => None
             end
           else None
  | [] => None
  end.

(** The leftmost match: the text before it and the text after it. *)
Fixpoint search (m : matcher) (s : jsstring) : option (jsstring * jsstring) :=
  match m s with
  | Some rest => Some ([], rest)
  | None =>
      match s with
      | [] => None
      | c :: s' =>
          match search m s' with
          | Some (before, after) => Some (c :: before, after)
          | None => None
          end
      end
  end.

(** [split]: cut at the successive leftmost matches.  Every match of the
    matchers used here consumes a code unit, so [length s] rounds are
    enough (lemma [split_with_unfold]). *)
Fixpoint split_fuel (n : nat) (m : matcher) (s : jsstring) : list jsstring :=
  match n with
  | O => [s]
  | S n' =>
      match search m s with
      | Some (before, after) => before :: split_fuel n' m after
      | None => [s]
      end
  end.

Definition split_with (m : matcher) (s : jsstring) : list jsstring :=
  split_fuel (length s) m s.

(** [s.split(sep)] for a non-empty string [sep]. *)
Definition split (sep s : jsstring) : list jsstring :=
  split_with (strip_prefix sep) s.

(** [s.includes(sub)]. *)
Definition includes (sub s : jsstring) : bool :=
  match search (strip_prefix sub) s with
  | Some _ => true
  | None => false
  end.

(** [parts.join(sep)]. *)
Fixpoint join (sep : jsstring) (parts : list jsstring) : jsstring :=
  match parts with
  | [] => []
  | [x] => x
  | x :: rest => x ++ sep ++ join sep rest
  end.

(** [s.replace(/\s+/g, ' ')]: [in_run] tells that the previous code unit
    was white space, already replaced. *)
Fixpoint collapse_ws (in_run : bool) (s : jsstring) : jsstring :=
  match s with
  | [] => []
  | c :: s' =>
      if is_ws c
      then if in_run then collapse_ws true s' else SPACE :: collapse_ws true s'
      else c :: collapse_ws false s'
  end.

Fixpoint tails (s : jsstring) : list jsstring :=
  s :: match s with
       | [] => []
       | _ :: s' => tails s'
       end.

(** [/[cls]+$/.test(s)]: some non-empty suffix of [s] lies in the class. *)
Definition test_class_plus_end (cls : char -> bool) (s : jsstring) : bool :=
  existsb (fun suffix => negb (Nat.eqb (length suffix) 0) && forallb cls suffix)
          (tails s).

(** [/^[cls]/.test(s)]. *)
Definition test_start_class (cls : char -> bool) (s : jsstring) : bool :=
  match s with
  | c :: _ => cls c
  | [] => false
  end.

(** [arr[i]]; [None] is [undefined]. *)
Definition get {A : Type} (arr : list A) (i : nat) : option A := nth_error arr i.

Definition get_z {A : Type} (arr : list A) (i : Z) : option A :=
  if (i <? 0)%Z then None else nth_error arr (Z.to_nat i).

(** Reading a property of [v]: a [TypeError] when [v] is [undefined]. *)
Definition deref {A : Type} (v : option A) : result A :=
  match v with
  | Some a => Ok a
  | None => TypeError
  end.

(** [v || ''] for a string or [undefined] (the empty string is falsy and
    is replaced by itself). *)
Definition or_empty (v : option jsstring) : jsstring :=
  match v with
  | Some s => s
  | None => []
  end.

(** [arr.splice(i, 1, a, b)] for [i] within the array: the array after
    the call. *)
Definition splice_replace2 {A : Type} (arr : list A) (i : nat) (a b : A) : list A :=
  firstn i arr ++ [a; b] ++ skipn (S i) arr.

(** [arr.splice(start)]: the array after the call and the removed
    elements.  A negative [start] counts from the end. *)
Definition splice_from {A : Type} (arr : list A) (start : Z) : list A * list A :=
  let len := Z.of_nat (length arr) in
  let from := if (start <? 0)%Z then Z.max (len + start) 0 else Z.min start len in
  (firstn (Z.to_nat from) arr, skipn (Z.to_nat from) arr).

(** [arr[i] = v].  A negative [i] names a property that is not an
    element: the elements are unchanged.  Writing at [length arr] appends.
    Beyond that JavaScript leaves holes, which a list of strings cannot
    hold; they are written as empty strings here, and the program never
    writes there (lemma [overfill_write_position]). *)
Definition array_set (arr : list jsstring) (i : Z) (v : jsstring) : list jsstring :=
  if (i <? 0)%Z then arr
  else
    let k := Z.to_nat i in
    if k <? length arr then firstn k arr ++ v :: skipn (S k) arr
    else arr ++ repeat [] (k - length arr) ++ [v].

(** [Math.ceil(n / 2)]. *)
Definition ceil_half (n : nat) : nat := Nat.div2 (S n).

End Js.

Import Js.

(** ** The data model *)

Record VTTCue : Type := mkCue {
  startTime : jsstring;
  endTime : jsstring;
  textLines : list jsstring;
  originalIndex : Z
}.

Record VTTGroup : Type := mkGroup {
  cues : list VTTCue;
  combinedText : jsstring
}.

(** [{...cue, textLines: lines}] *)
Definition with_textLines (cue : VTTCue) (lines : list jsstring) : VTTCue :=
  mkCue (startTime cue) (endTime cue) lines (originalIndex cue).

(** ** The class [VTTParser] *)

Module VTTParser.

Definition WEBVTT : jsstring := lit "WEBVTT".
Definition ARROW : jsstring := lit "-->".

(** The class of [SENTENCE_ENDINGS = /[.!?â€¦]+$/], as the source file
    has it: full stop, exclamation mark, question mark, and the three
    code points U+00E2, U+20AC, U+00A6. *)
Definition sentence_ending_char (c : char) : bool :=
  ((c =? 46) || (c =? 33) || (c =? 63)
   || (c =? 226) || (c =? 8364) || (c =? 166))%N.

(** The class of [SENTENCE_STARTERS = /^[A-Z\-"'"]/]: A to Z, the hyphen,
    the straight double quote (listed twice) and the apostrophe. *)
Definition sentence_starter_char (c : char) : bool :=
  ((65 <=? c) && (c <=? 90) || (c =? 45) || (c =? 34) || (c =? 39)
   || (c =? 34))%N.

Definition SENTENCE_ENDINGS_test : jsstring -> bool :=
  test_class_plus_end sentence_ending_char.

Definition SENTENCE_STARTERS_test : jsstring -> bool :=
  test_start_class sentence_starter_char.

(** *** parse *)

(** The cue under construction: [currentCue], when it is not [null]. *)
Record OpenCue : Type := mkOpen {
  open_startTime : jsstring;
  open_endTime : jsstring;
  open_textLines : list jsstring
}.

(** The variables of the loop of [parse]. *)
Record ParseState : Type := mkParse {
  ps_cues : list VTTCue;
  ps_currentCue : option OpenCue;
  ps_cueIndex : Z
}.

(** [if (currentCue && currentCue.textLines && currentCue.textLines.length > 0)
      cues.push({..., originalIndex: cueIndex++})] *)
Definition save_previous (st : ParseState) : ParseState :=
  match ps_currentCue st with
  | Some cur =>
      if 0 <? length (open_textLines cur) then
        mkParse (ps_cues st ++ [mkCue (open_startTime cur) (open_endTime cur)
                                      (open_textLines cur) (ps_cueIndex st)])
                (ps_currentCue st) (ps_cueIndex st + 1)
      else st
  | None => st
  end.

(** The body of the loop, for the line [raw = lines[i]].  The
    destructuring [[startTime, endTime] = ...] takes the first two parts;
    a line that includes the arrow always has two (lemma
    [split_includes_two]), so the default of [nth] is never used. *)
Definition parse_line (st : ParseState) (raw : jsstring) : ParseState :=
  let line := trim raw in
  if (length line =? 0) || Js.eqb line WEBVTT then st
  else if includes ARROW line then
    let st' := save_previous st in
    let parts := List.map trim (split ARROW line) in
    mkParse (ps_cues st')
            (Some (mkOpen (nth 0 parts []) (nth 1 parts []) []))
            (ps_cueIndex st')
  else
    match ps_currentCue st with
    | Some cur =>
        mkParse (ps_cues st)
                (Some (mkOpen (open_startTime cur) (open_endTime cur)
                              (open_textLines cur ++ [line])))
                (ps_cueIndex st)
    | None => st
    end.

Definition parse_body (lines : list jsstring) (i : nat) (st : ParseState)
  : result ParseState :=
  raw <- deref (get lines i) ;;
  Ok (parse_line st raw).

Definition parse (vttContent : jsstring) : result (list VTTCue) :=
  let lines := split [NEWLINE] vttContent in
  st <- for_loop (length lines) 0 (parse_body lines) (mkParse [] None 0) ;;
  Ok (ps_cues (save_previous st)).

(** *** combineCueTexts *)

Definition combineCueTexts (cs : list VTTCue) : jsstring :=
  trim (collapse_ws false
          (join [SPACE] (List.map (fun cue => join [SPACE] (textLines cue)) cs))).

(** *** groupCuesIntoSentences *)

Definition last_line (cue : VTTCue) : jsstring :=
  or_empty (get_z (textLines cue) (Z.of_nat (length (textLines cue)) - 1)).

Definition first_line (cue : VTTCue) : jsstring :=
  or_empty (get (textLines cue) 0).

(** [hasSentenceEnding && nextStartsNewSentence] *)
Definition sentence_boundary (currentCue nextCue : VTTCue) : bool :=
  SENTENCE_ENDINGS_test (trim (last_line currentCue))
  && SENTENCE_STARTERS_test (trim (first_line nextCue)).

Definition close_group (currentGroup : list VTTCue) : VTTGroup :=
  mkGroup currentGroup (combineCueTexts currentGroup).

(** The variables of the loop: [groups] and [currentGroup]. *)
Definition GroupState : Type := (list VTTGroup * list VTTCue)%type.

Definition group_body (cs : list VTTCue) (i : nat) (st : GroupState)
  : result GroupState :=
  let '(groups, currentGroup) := st in
  currentCue <- deref (get cs (i - 1)) ;;
  nextCue <- deref (get cs i) ;;
  if sentence_boundary currentCue nextCue
  then Ok (groups ++ [close_group currentGroup], [nextCue])
  else Ok (groups, currentGroup ++ [nextCue]).

Definition groupCuesIntoSentences (cs : list VTTCue) : result (list VTTGroup) :=
  match cs with
  | [] => Ok []
  | first :: _ =>
      '(groups, currentGroup) <-
         for_loop (length cs - 1) 1 (group_body cs) ([], [first]) ;;
      if 0 <? length currentGroup
      then Ok (groups ++ [close_group currentGroup])
      else Ok groups
  end.

(** *** redistributeTranslation *)

Definition totalLines_of (group : VTTGroup) : nat :=
  fold_left (fun sum cue => sum + length (textLines cue)) (cues group) 0.

(** [translatedText.split(/\r?\n/).map(trim).filter(line => line.length > 0)] *)
Definition initial_lines (translatedText : jsstring) : list jsstring :=
  filter (fun line => 0 <? length line)
         (List.map trim (split_with line_break translatedText)).

(** The inner [for] loop of the under-fill phase; its variables are
    [(longestIndex, longestLength)]. *)
Definition longest_body (translatedLines : list jsstring) (i : nat)
           (st : nat * nat) : result (nat * nat) :=
  let '(longestIndex, longestLength) := st in
  line <- deref (get translatedLines i) ;;
  if longestLength <? length line
  then Ok (i, length line)
  else Ok (longestIndex, longestLength).

Definition find_longest (translatedLines : list jsstring) : result (nat * nat) :=
  for_loop (length translatedLines) 0 (longest_body translatedLines) (0, 0).

(** One round of the [while] loop: [Some lines'] when the longest line
    was split, [None] when the round ends in [break]. *)
Definition underfill_round (translatedLines : list jsstring)
  : result (option (list jsstring)) :=
  '(longestIndex, _) <- find_longest translatedLines ;;
  lineToSplit <- deref (get translatedLines longestIndex) ;;
  let words := split [SPACE] lineToSplit in
  if 1 <? length words then
    let midPoint := ceil_half (length words) in
    let firstHalf := join [SPACE] (firstn midPoint words) in
    let secondHalf := join [SPACE] (skipn midPoint words) in
    Ok (Some (splice_replace2 translatedLines longestIndex firstHalf secondHalf))
  else Ok None.

(** How the [while] loop ended, and how many rounds split a line.  The
    source has no such variables: they record the run for the statements
    below. *)
Inductive LoopExit : Type := GuardFalse | Break.

Record UnderfillRun : Type := mkUnderfill {
  uf_lines : list jsstring;
  uf_exit : LoopExit;
  uf_splits : nat
}.

(** [while (translatedLines.length < totalLines && translatedLines.length > 0)],
    run for at most [fuel] rounds. *)
Fixpoint underfill (fuel : nat) (totalLines : nat)
         (translatedLines : list jsstring) (splits : nat) : result UnderfillRun :=
  if (length translatedLines <? totalLines) && (0 <? length translatedLines) then
    match fuel with
    | O => OutOfFuel
    | S fuel' =>
        round <- underfill_round translatedLines ;;
        match round with
        | Some lines' => underfill fuel' totalLines lines' (S splits)
        | None => Ok (mkUnderfill translatedLines Break splits)
        end
    end
  else Ok (mkUnderfill translatedLines GuardFalse splits).

(** [if (translatedLines.length > totalLines) { excess = splice(totalLines - 1);
      translatedLines[totalLines - 1] = excess.join(' ') }] *)
Definition overfill (totalLines : nat) (translatedLines : list jsstring)
  : list jsstring :=
  if totalLines <? length translatedLines then
    let position := (Z.of_nat totalLines - 1)%Z in
    let '(kept, excess) := splice_from translatedLines position in
    array_set kept position (join [SPACE] excess)
  else translatedLines.

(** The variables of the refill walk: [lineIndex], and the number of
    slots that took the empty-string fallback (a record of the run, not a
    variable of the source). *)
Definition RefillState : Type := (nat * nat)%type.

(** The inner loop over the [n = cue.textLines.length] slots of a cue. *)
Fixpoint fill_slots (n : nat) (translatedLines : list jsstring)
         (newTextLines : list jsstring) (st : RefillState)
  : list jsstring * RefillState :=
  match n with
  | O => (newTextLines, st)
  | S n' =>
      let '(lineIndex, fallbacks) := st in
      if lineIndex <? length translatedLines
      then fill_slots n' translatedLines
                      (newTextLines ++ [nth lineIndex translatedLines []])
                      (S lineIndex, fallbacks)
      else fill_slots n' translatedLines (newTextLines ++ [[]])
                      (lineIndex, S fallbacks)
  end.

(** The loop [for (const cue of group.cues)]. *)
Fixpoint refill (cs : list VTTCue) (translatedLines : list jsstring)
         (updatedCues : list VTTCue) (st : RefillState)
  : list VTTCue * RefillState :=
  match cs with
  | [] => (updatedCues, st)
  | cue :: rest =>
      let '(newTextLines, st') :=
        fill_slots (length (textLines cue)) translatedLines [] st in
      refill rest translatedLines
             (updatedCues ++
                [with_textLines cue
                   (filter (fun line => 0 <? length (trim line)) newTextLines)])
             st'
  end.

(** A run of [redistributeTranslation]: the returned cues, with the
    lines after the under-fill and over-fill phases and the records of
    the two loops. *)
Record RedistributeRun : Type := mkRun {
  run_cues : list VTTCue;
  run_underfill : UnderfillRun;
  run_lines : list jsstring;
  run_fallbacks : nat
}.

(** The [while] loop is given [totalLines - translatedLines.length]
    rounds, the distance its guard measures; it never needs more
    (lemma [underfill_run]). *)
Definition redistribute_run (group : VTTGroup) (translatedText : jsstring)
  : result RedistributeRun :=
  let totalLines := totalLines_of group in
  let translatedLines := initial_lines translatedText in
  uf <- underfill (totalLines - length translatedLines) totalLines
                  translatedLines 0 ;;
  let translatedLines' := overfill totalLines (uf_lines uf) in
  let '(updatedCues, (_, fallbacks)) :=
    refill (cues group) translatedLines' [] (0, 0) in
  Ok (mkRun updatedCues uf translatedLines' fallbacks).

Definition redistributeTranslation (group : VTTGroup) (translatedText : jsstring)
  : result (list VTTCue) :=
  run <- redistribute_run group translatedText ;;
  Ok (run_cues run).

(** *** reconstructVTT *)

(** The comparator [(a, b) => a.originalIndex - b.originalIndex]. *)
Definition compare_index (a b : VTTCue) : Z :=
  (originalIndex a - originalIndex b)%Z.

(** [Array.prototype.sort] is stable: a cue is placed before the first
    cue that does not compare below it. *)
Fixpoint insert_sorted (x : VTTCue) (sorted : list VTTCue) : list VTTCue :=
  match sorted with
  | [] => [x]
  | y :: rest =>
      if (compare_index y x <? 0)%Z then y :: insert_sorted x rest
      else x :: y :: rest
  end.

Definition sort_by_index (cs : list VTTCue) : list VTTCue :=
  fold_right insert_sorted [] cs.

Definition cue_block (cue : VTTCue) : jsstring :=
  (startTime cue ++ lit " --> " ++ endTime cue ++ [NEWLINE])
  ++ (join [NEWLINE] (textLines cue) ++ [NEWLINE; NEWLINE]).

Definition reconstructVTT (cs : list VTTCue) : jsstring :=
  let sortedCues := sort_by_index cs in
  trim (fold_left (fun result cue => result ++ cue_block cue) sortedCues
                  (lit "WEBVTT" ++ [NEWLINE; NEWLINE])).

End VTTParser.

Import VTTParser.

(** ** Loop-free readings of the methods

    The index loops of the source, read as recursions over the arrays
    they traverse.  The lemmas [parse_returns], [group_returns] and
    [redistribute_returns] show that the methods return exactly these. *)

Definition parse_lines (lines : list jsstring) : list VTTCue :=
  ps_cues (save_previous (fold_left parse_line lines (mkParse [] None 0))).

(** The groups (as runs of cues) that the scan produces from an open
    group [currentGroup] whose last cue is [prev]. *)
Fixpoint sentence_groups (currentGroup : list VTTCue) (prev : VTTCue)
         (rest : list VTTCue) : list (list VTTCue) :=
  match rest with
  | [] => [currentGroup]
  | next :: rest' =>
      if sentence_boundary prev next
      then currentGroup :: sentence_groups [next] next rest'
      else sentence_groups (currentGroup ++ [next]) next rest'
  end.

Definition group_runs (cs : list VTTCue) : list (list VTTCue) :=
  match cs with
  | [] => []
  | first :: rest => sentence_groups [first] first rest
  end.

(** One round of the grouping loop, on the pair [(cues[i-1], cues[i])]. *)
Definition group_step (st : GroupState) (pair : VTTCue * VTTCue) : GroupState :=
  let '(groups, currentGroup) := st in
  if sentence_boundary (fst pair) (snd pair)
  then (groups ++ [close_group currentGroup], [snd pair])
  else (groups, currentGroup ++ [snd pair]).


(** ** Vocabulary of the statements *)

(** The cue at position [i] has [originalIndex = i]. *)
Definition indexed_from_zero (cs : list VTTCue) : Prop :=
  List.map originalIndex cs = List.map Z.of_nat (seq 0 (length cs)).

Definition index_invariant (st : ParseState) : Prop :=
  indexed_from_zero (ps_cues st) /\ ps_cueIndex st = Z.of_nat (length (ps_cues st)).


(** The terminal punctuation the specification names: full stop,
    exclamation mark, question mark, and the ellipsis U+2026. *)
Definition terminal_punctuation (c : char) : bool :=
  ((c =? 46) || (c =? 33) || (c =? 63) || (c =? 8230))%N.

(** An uppercase letter A to Z, a hyphen, or a straight quotation mark. *)
Definition straight_sentence_start (c : char) : bool :=
  ((65 <=? c) && (c <=? 90) || (c =? 45) || (c =? 34) || (c =? 39))%N.

(** The specification also lists the curly quotation marks U+2018, U+2019,
    U+201C and U+201D. *)
Definition stated_sentence_start (c : char) : bool :=
  (straight_sentence_start c
   || (c =? 8216) || (c =? 8217) || (c =? 8220) || (c =? 8221))%N.

(** The ellipsis, and the three code points that stand in its place in
    the class of [SENTENCE_ENDINGS]. *)
Definition ellipsis_or_its_bytes (c : char) : bool :=
  ((c =? 8230) || (c =? 226) || (c =? 8364) || (c =? 166))%N.

(** The string is not empty and its last code unit is in the class. *)
Definition ends_in (cls : char -> bool) (s : jsstring) : bool :=
  match rev s with
  | c :: _ => cls c
  | [] => false
  end.

(** The string is not empty and its first code unit is in the class. *)
Definition begins_with (cls : char -> bool) (s : jsstring) : bool :=
  match s with
  | c :: _ => cls c
  | [] => false
  end.

(** A group ends exactly after the cues [before], and the next group
    starts with the first cue of [after]. *)
Definition closes_between (runs : list (list VTTCue))
           (before after : list VTTCue) : Prop :=
  exists runs1 runs2,
    runs = runs1 ++ runs2 /\ concat runs1 = before /\ concat runs2 = after.

(** The adjacent cues [p], [n] (after [l1], before [l2]) lie in one
    group. *)
Definition same_group (runs : list (list VTTCue))
           (l1 : list VTTCue) (p n : VTTCue) (l2 : list VTTCue) : Prop :=
  exists runs1 run runs2 a b,
    runs = runs1 ++ run :: runs2 /\ run = a ++ p :: n :: b /\
    concat runs1 ++ a = l1 /\ b ++ concat runs2 = l2.

(** Sample cues for the boundary rule. *)
Definition cue_hello : VTTCue := mkCue (lit "00:01") (lit "00:02") [lit "Hello there."] 0.
Definition cue_world : VTTCue := mkCue (lit "00:02") (lit "00:03") [lit "World is big."] 1.
Definition cue_continues : VTTCue := mkCue (lit "00:03") (lit "00:04") [lit "it continues"] 2.
(** A line that opens with the curly quotation mark U+201C. *)
Definition cue_curly_quote : VTTCue :=
  mkCue (lit "00:02") (lit "00:03") [[8220%N] ++ lit "Hello" ++ [8221%N]] 1.
(** A line that ends with the ellipsis U+2026. *)
Definition cue_ellipsis : VTTCue :=
  mkCue (lit "00:01") (lit "00:02") [lit "Wait" ++ [8230%N]] 0.

(** ** Vocabulary for redistribution *)

(** [i] is the first position of a longest line. *)
Definition is_first_longest (lines : list jsstring) (i : nat) : Prop :=
  i < length lines /\
  (forall j, j < length lines -> length (nth j lines []) <= length (nth i lines [])) /\
  (forall j, j < i -> length (nth j lines []) < length (nth i lines [])).

(** The words of a line: its pieces between single spaces. *)
Definition words_of (line : jsstring) : list jsstring := split [SPACE] line.

(** The line at [i] replaced, in place, by its first [ceil(wordCount/2)]
    words and its remaining words, each joined with single spaces. *)
Definition halve_at (lines : list jsstring) (i : nat) : list jsstring :=
  let words := words_of (nth i lines []) in
  firstn i lines
  ++ [join [SPACE] (firstn (ceil_half (length words)) words);
      join [SPACE] (skipn (ceil_half (length words)) words)]
  ++ skipn (S i) lines.

(** The under-fill rule in the words of the specification: while there
    are lines, fewer than [slotCount], take the first longest line; a line
    of two or more words is halved in place and the rule goes on, a line
    of one word ends it. *)
Inductive underfills (slotCount : nat) : list jsstring -> list jsstring -> Prop :=
| underfills_filled (lines : list jsstring) :
    slotCount <= length lines \/ lines = [] ->
    underfills slotCount lines lines
| underfills_one_word (lines : list jsstring) (i : nat) :
    0 < length lines < slotCount ->
    is_first_longest lines i ->
    length (words_of (nth i lines [])) = 1 ->
    underfills slotCount lines lines
| underfills_halve (lines : list jsstring) (i : nat) (final : list jsstring) :
    0 < length lines < slotCount ->
    is_first_longest lines i ->
    2 <= length (words_of (nth i lines [])) ->
    underfills slotCount (halve_at lines i) final ->
    underfills slotCount lines final.

(** One round of the scan for the longest line, on the line at [i]. *)
Definition longest_step (st : nat * nat) (entry : nat * jsstring) : nat * nat :=
  let '(longestIndex, longestLength) := st in
  let '(i, line) := entry in
  if longestLength <? length line then (i, length line)
  else (longestIndex, longestLength).

Definition longest_scan (lines : list jsstring) : nat * nat :=
  fold_left longest_step (combine (seq 0 (length lines)) lines) (0, 0).

(** One round of the [while] loop as a function of the lines alone. *)
Definition round_of (lines : list jsstring) : option (list jsstring) :=
  let i := fst (longest_scan lines) in
  if 1 <? length (words_of (nth i lines [])) then Some (halve_at lines i)
  else None.

(** A value together with the equation that names it, to keep the test
    of a branch as a hypothesis. *)
Definition inspect {A : Type} (x : A) : {y : A | x = y} := exist _ x eq_refl.

(** The [while] loop by well-founded recursion: every round that goes on
    adds a line, so [totalLines - translatedLines.length] decreases. *)
Equations? underfill_wf (totalLines : nat) (lines : list jsstring)
  : list jsstring by wf (totalLines - length lines) lt :=
  underfill_wf totalLines lines
    with inspect ((length lines <? totalLines) && (0 <? length lines)) := {
    | exist _ true Hguard with inspect (round_of lines) := {
        | exist _ (Some lines') Hround => underfill_wf totalLines lines';
        | exist _ None _ => lines };
    | exist _ false _ => lines }.
Proof.
  apply andb_prop in Hguard. destruct Hguard as [Hlt _].
  apply Nat.ltb_lt in Hlt.
  unfold round_of in Hround.
  destruct (1 <? length (words_of (nth (fst (longest_scan lines)) lines [])));
    [| discriminate].
  inversion Hround; subst lines'. unfold halve_at.
  rewrite !length_app, length_firstn, length_skipn. simpl. lia.
Qed.

(** What a run of the loop on enough fuel returns. *)
Definition underfill_result (totalLines : nat) (lines : list jsstring)
           (splits : nat) (r : UnderfillRun) : Prop :=
  uf_lines r = underfill_wf totalLines lines /\
  underfills totalLines lines (uf_lines r) /\
  length (uf_lines r) = length lines + (uf_splits r - splits) /\
  splits <= uf_splits r /\
  uf_splits r - splits <= totalLines - length lines /\
  (uf_exit r = GuardFalse -> totalLines <= length (uf_lines r) \/ uf_lines r = []) /\
  (uf_exit r = Break ->
   0 < length (uf_lines r) < totalLines /\
   exists i, is_first_longest (uf_lines r) i /\
             length (words_of (nth i (uf_lines r) [])) = 1).

(** The number of line slots of a run of cues. *)
Definition slot_count (cs : list VTTCue) : nat :=
  list_sum (List.map (fun cue => length (textLines cue)) cs).

(** The slots [offset], ..., [offset + n - 1], read off the translated
    lines; a slot past their end holds the empty string. *)
Definition slots_from (translatedLines : list jsstring) (offset n : nat)
  : list jsstring :=
  List.map (fun k => nth k translatedLines []) (seq offset n).

(** What [filter(line => line.trim().length > 0)] keeps. *)
Definition visible (line : jsstring) : bool := 0 <? length (trim line).

(** The refill walk, loop-free: every cue takes the next slots. *)
Fixpoint dealt_cues (cs : list VTTCue) (translatedLines : list jsstring)
         (offset : nat) : list VTTCue :=
  match cs with
  | [] => []
  | cue :: rest =>
      with_textLines cue
        (filter visible (slots_from translatedLines offset (length (textLines cue))))
      :: dealt_cues rest translatedLines (offset + length (textLines cue))
  end.

(** Two cues with the same timing and index. *)
Definition same_slot (a b : VTTCue) : Prop :=
  startTime a = startTime b /\ endTime a = endTime b /\
  originalIndex a = originalIndex b.

(** A group of one cue with one line, and a group of three slots. *)
Definition group_one_slot : VTTGroup := close_group [cue_hello].
Definition group_three_slots : VTTGroup :=
  close_group [mkCue (lit "00:01") (lit "00:02") [lit "a"; lit "b"] 0;
               mkCue (lit "00:02") (lit "00:03") [lit "c"] 1].
Definition group_two_slots : VTTGroup :=
  close_group [cue_hello; cue_world].

(** ** Vocabulary for strings *)

(** The string is empty or starts with a code unit that is not white
    space. *)
Definition head_ok (s : jsstring) : Prop :=
  match s with
  | [] => True
  | c :: _ => is_ws c = false
  end.

Definition last_ok (s : jsstring) : Prop := head_ok (rev s).

Definition all_ws (s : jsstring) : Prop := forallb is_ws s = true.

(** [trim] leaves the string as it is. *)
Definition trimmed (s : jsstring) : Prop := trim s = s.

(** The number of text lines of each cue. *)
Definition line_counts (cs : list VTTCue) : list nat :=
  List.map (fun cue => length (textLines cue)) cs.

(** The translated texts of the two worked examples. *)
Definition text_A_B_C : jsstring :=
  lit "A" ++ [NEWLINE] ++ lit "B" ++ [NEWLINE] ++ lit "C".
Definition text_one_two_three_four : jsstring := lit "one two three four".

(** Every match of the matcher consumes at least one code unit. *)
Definition consuming (m : matcher) : Prop :=
  forall s rest, m s = Some rest -> length rest < length s.

(** [x] put in front of the first piece. *)
Definition cons_head (x : char) (pieces : list jsstring) : list jsstring :=
  match pieces with
  | piece :: more => (x :: piece) :: more
  | [] => [[x]]
  end.

(** The lines [parse] looks at: trimmed, blank ones dropped. *)
Definition significant (lines : list jsstring) : list jsstring :=
  filter (fun line => negb (length line =? 0)) (List.map trim lines).

(** ** The shape of what [parse] returns *)

(** A timestamp field: trimmed, without arrow and without line break. *)
Definition field_ok (s : jsstring) : Prop :=
  trimmed s /\ includes ARROW s = false /\ ~ In NEWLINE s.

(** A text line: trimmed, not empty, not the header, without arrow and
    without line break. *)
Definition text_ok (line : jsstring) : Prop :=
  trimmed line /\ line <> [] /\ Js.eqb line WEBVTT = false /\
  includes ARROW line = false /\ ~ In NEWLINE line.

Definition cue_ok (cue : VTTCue) : Prop :=
  field_ok (startTime cue) /\ field_ok (endTime cue) /\
  textLines cue <> [] /\ Forall text_ok (textLines cue).

Definition open_ok (cur : OpenCue) : Prop :=
  field_ok (open_startTime cur) /\ field_ok (open_endTime cur) /\
  Forall text_ok (open_textLines cur).

Definition state_ok (st : ParseState) : Prop :=
  Forall cue_ok (ps_cues st) /\
  forall cur, ps_currentCue st = Some cur -> open_ok cur.

(** The first line of a cue block of [reconstructVTT], and the lines of
    the block. *)
Definition timestamp_line (cue : VTTCue) : jsstring :=
  startTime cue ++ lit " --> " ++ endTime cue.

Definition block_lines (cue : VTTCue) : list jsstring :=
  timestamp_line cue :: textLines cue ++ [[]].

(** The part of a trimmed timestamp line before the arrow, and the part
    after it. *)
Definition before_arrow (startTime : jsstring) : jsstring :=
  match startTime with
  | [] => []
  | _ :: _ => startTime ++ [SPACE]
  end.

Definition after_arrow (endTime : jsstring) : jsstring :=
  match endTime with
  | [] => []
  | _ :: _ => SPACE :: endTime
  end.

(** Two cues with the same four fields. *)
Definition same_cue (a b : VTTCue) : Prop :=
  startTime a = startTime b /\ endTime a = endTime b /\
  textLines a = textLines b /\ originalIndex a = originalIndex b.

(** A small subtitle file. *)
Definition sample_vtt : jsstring :=
  lit "WEBVTT" ++ [NEWLINE; NEWLINE]
  ++ lit "00:01 --> 00:02" ++ [NEWLINE] ++ lit "Hello there." ++ [NEWLINE; NEWLINE]
  ++ lit "00:02 --> 00:03" ++ [NEWLINE] ++ lit "World is big." ++ [NEWLINE]
  ++ lit "it continues".

(** ** Vocabulary of the further properties *)

(** [reconstructVTT] after [parse]: the text brought to the layout the
    reconstructor writes. *)
Definition normalize (vttContent : jsstring) : result jsstring :=
  cs <- parse vttContent ;;
  Ok (reconstructVTT cs).


(** The number of adjacent pairs, from [prev] on, at which a sentence
    ends and a new one starts. *)
Fixpoint count_boundaries (prev : VTTCue) (rest : list VTTCue) : nat :=
  match rest with
  | [] => 0
  | next :: rest' =>
      (if sentence_boundary prev next then 1 else 0) + count_boundaries next rest'
  end.

(** The last cue of [prev :: rest]. *)
Definition last_cue (prev : VTTCue) (rest : list VTTCue) : VTTCue := last rest prev.

(** Every white space code unit is a space, and is followed by a code
    unit that is not white space (if by any). *)
Fixpoint single_spaced (s : jsstring) : Prop :=
  match s with
  | [] => True
  | c :: s' => (is_ws c = true -> c = SPACE /\ head_ok s') /\ single_spaced s'
  end.

(** The code units of a string that are not white space. *)
Definition ink (s : jsstring) : jsstring := filter (fun c => negb (is_ws c)) s.

(** What is left of a string after a match is an end piece of it. *)
Definition cuts_front (m : matcher) : Prop :=
  forall s rest, m s = Some rest -> exists matched, s = matched ++ rest.

(** ** The translation pass of the component [VTTTranslator]

    The handler [translateVTT], without its progress and toast displays:
    what it parses, what it asks the translation service, and what it
    leaves as translated content.  The service is outside the program; a
    run is modelled for any behaviour of it, given as the response
    [translateText i text] to the [i]-th request. *)

Module VTTTranslator.

Record TranslationResponse : Type := mkResponse {
  translatedText : jsstring;
  success : bool;
  error : option jsstring
}.

(** What the [try] block comes to: a value, a thrown [Error] with its
    message, or another exception of the core ([TypeError], rounds
    exhausted). *)
Inductive Attempt (A : Type) : Type :=
| Returned (a : A)
| ThrewError (message : jsstring)
| ThrewOther.

Arguments Returned {A} a.
Arguments ThrewError {A} message.
Arguments ThrewOther {A}.

Definition lift {A : Type} (r : result A) : Attempt A :=
  match r with
  | Ok a => Returned a
  | TypeError => ThrewOther
  | OutOfFuel => ThrewOther
  end.

Definition and_then {A B : Type} (a : Attempt A) (k : A -> Attempt B) : Attempt B :=
  match a with
  | Returned x => k x
  | ThrewError message => ThrewError message
  | ThrewOther => ThrewOther
  end.

(** [for (let i = start; i < start + n; i++) body] inside the [try]
    block. *)
Fixpoint for_attempt {S : Type} (n : nat) (i : nat)
         (body : nat -> S -> Attempt S) (s : S) : Attempt S :=
  match n with
  | O => Returned s
  | Datatypes.S n' => and_then (body i s) (for_attempt n' (Datatypes.S i) body)
  end.

(** [translationResult.error || 'Translation failed'] *)
Definition error_message (response : TranslationResponse) : jsstring :=
  match error response with
  | Some (c :: message) => c :: message
  | Some [] => lit "Translation failed"
  | None => lit "Translation failed"
  end.

(** The body of the loop over the groups; its variable is
    [translatedCues]. *)
Definition translate_body (translateText : nat -> jsstring -> TranslationResponse)
           (sentenceGroups : list VTTGroup) (i : nat) (translatedCues : list VTTCue)
  : Attempt (list VTTCue) :=
  and_then (lift (deref (get sentenceGroups i))) (fun group =>
  let translationResult := translateText i (combinedText group) in
  if success translationResult then
    and_then (lift (redistributeTranslation group (translatedText translationResult)))
             (fun redistributedCues => Returned (translatedCues ++ redistributedCues))
  else ThrewError (error_message translationResult)).

(** The steps 1 to 5 of the [try] block: the translated cues and the
    final text. *)
Definition translate_steps (translateText : nat -> jsstring -> TranslationResponse)
           (vttContent : jsstring) : Attempt (list VTTCue * jsstring) :=
  and_then (lift (parse vttContent)) (fun cs =>
  and_then (lift (groupCuesIntoSentences cs)) (fun sentenceGroups =>
  and_then (for_attempt (length sentenceGroups) 0
                        (translate_body translateText sentenceGroups) [])
           (fun translatedCues =>
  Returned (translatedCues, reconstructVTT translatedCues)))).

(** What a run leaves: the translated content, the description of the
    failure toast, or the toast for missing content. *)
Inductive Outcome : Type :=
| Translated (translatedContent : jsstring)
| Failed (description : jsstring)
| FailedOtherwise
| NoContent.

Definition translateVTT (translateText : nat -> jsstring -> TranslationResponse)
           (vttContent : jsstring) : Outcome :=
  if length (trim vttContent) =? 0 then NoContent
  else
    match translate_steps translateText vttContent with
    | Returned (_, finalVTT) => Translated finalVTT
    | ThrewError message => Failed message
    | ThrewOther => FailedOtherwise
    end.

End VTTTranslator.

(** A service that answers every request with the text it was sent. *)
Definition echo_service (i : nat) (text : jsstring) : VTTTranslator.TranslationResponse :=
  VTTTranslator.mkResponse text true None.

(** A service that fails from its second request on. *)
Definition failing_service (i : nat) (text : jsstring)
  : VTTTranslator.TranslationResponse :=
  if i =? 0 then VTTTranslator.mkResponse text true None
  else VTTTranslator.mkResponse [] false (Some (lit "quota exceeded")).

(** The two cues of the small subtitle file. *)
Definition cue_hello_parsed : VTTCue :=
  mkCue (lit "00:01") (lit "00:02") [lit "Hello there."] 0.
Definition cue_world_parsed : VTTCue :=
  mkCue (lit "00:02") (lit "00:03") [lit "World is big."; lit "it continues"] 1.

(** ** Running the model on small inputs *)

Example parse_sample :
  parse sample_vtt =
  Ok [mkCue (lit "00:01") (lit "00:02") [lit "Hello there."] 0;
      mkCue (lit "00:02") (lit "00:03") [lit "World is big."; lit "it continues"] 1].
Proof. vm_compute. reflexivity. Qed.

Example reconstruct_sample :
  bind (parse sample_vtt) (fun cs => Ok (reconstructVTT cs)) = Ok sample_vtt.
Proof. vm_compute. reflexivity. Qed.

Example group_spec_example :
  bind (groupCuesIntoSentences
          [mkCue [] [] [lit "Hello there."] 0;
           mkCue [] [] [lit "World is big."] 1;
           mkCue [] [] [lit "it continues"] 2])
       (fun gs => Ok (List.map (fun g => List.map originalIndex (cues g)) gs))
  = Ok [[0%Z]; [1%Z; 2%Z]].
Proof. vm_compute. reflexivity. Qed.

Example redistribute_single_word :
  redistributeTranslation
    (mkGroup [mkCue [] [] [lit "a"; lit "b"] 0; mkCue [] [] [lit "c"] 1] [])
    (lit "Hi")
  = Ok [mkCue [] [] [lit "Hi"] 0; mkCue [] [] [] 1].
Proof. vm_compute. reflexivity. Qed.

(** Equal lists up to the association of [++]. *)
Ltac app_norm :=
  cbn [app]; repeat rewrite <- app_assoc; cbn [app]; repeat rewrite app_nil_r;
  reflexivity.

(** ** The result monad and the index loops *)

Lemma bind_Ok_inv {A B : Type} (r : result A) (k : A -> result B) (b : B) :
  bind r k = Ok b -> exists a, r = Ok a /\ k a = Ok b.
Proof.
  destruct r as [a | |]; simpl; intros H; try discriminate.
  exists a. split; [reflexivity | exact H].
Qed.

(** A [for] loop whose round [base + k] only reads the [k]-th element of
    a list is a fold over that list. *)
Lemma for_loop_fold {S A : Type} (body : nat -> S -> result S)
      (step : S -> A -> S) (l : list A) :
  forall (base : nat) (s : S),
    (forall k x s', nth_error l k = Some x -> body (base + k) s' = Ok (step s' x)) ->
    for_loop (length l) base body s = Ok (fold_left step l s).
Proof.
  induction l as [| x l IH]; intros base s Hbody; simpl.
  - reflexivity.
  - rewrite <- (Nat.add_0_r base) at 1.
    rewrite (Hbody 0 x s eq_refl). simpl.
    apply IH. intros k y s' Hk.
    replace (Datatypes.S base + k) with (base + Datatypes.S k) by lia.
    apply Hbody. exact Hk.
Qed.

Lemma for_loop_fold_n {S A : Type} (body : nat -> S -> result S)
      (step : S -> A -> S) (l : list A) (n base : nat) (s : S) :
  n = length l ->
  (forall k x s', nth_error l k = Some x -> body (base + k) s' = Ok (step s' x)) ->
  for_loop n base body s = Ok (fold_left step l s).
Proof.
  intros ->. apply for_loop_fold.
Qed.

Lemma parse_returns (vttContent : jsstring) :
  parse vttContent = Ok (parse_lines (split [NEWLINE] vttContent)).
Proof.
  unfold parse, parse_lines.
  rewrite (for_loop_fold (parse_body (split [NEWLINE] vttContent)) parse_line).
  - reflexivity.
  - intros k x s' Hk. unfold parse_body, get. simpl. rewrite Hk. reflexivity.
Qed.

(** The adjacent pairs [(cues[i-1], cues[i])] that the grouping loop
    visits. *)
Lemma nth_error_adjacent {A : Type} (l : list A) (a : A) :
  forall k p n,
    nth_error (combine (a :: l) l) k = Some (p, n) ->
    nth_error (a :: l) k = Some p /\ nth_error (a :: l) (Datatypes.S k) = Some n.
Proof.
  revert a. induction l as [| b l IH]; intros a k p n H.
  - destruct k; discriminate.
  - destruct k as [| k]; simpl in H.
    + inversion H; subst. split; reflexivity.
    + apply IH in H. exact H.
Qed.

Lemma group_fold (rest : list VTTCue) :
  forall (prev : VTTCue) (groups : list VTTGroup) (currentGroup : list VTTCue),
    currentGroup <> [] ->
    exists groups' currentGroup',
      fold_left group_step (combine (prev :: rest) rest) (groups, currentGroup)
      = (groups', currentGroup') /\
      currentGroup' <> [] /\
      groups' ++ [close_group currentGroup'] =
      groups ++ List.map close_group (sentence_groups currentGroup prev rest).
Proof.
  induction rest as [| next rest IH]; intros prev groups currentGroup Hne.
  - exists groups, currentGroup. simpl. repeat split; [exact Hne].
  - cbn [combine fold_left sentence_groups]. unfold group_step at 2. cbn [fst snd].
    destruct (sentence_boundary prev next).
    + destruct (IH next (groups ++ [close_group currentGroup]) [next])
        as (g' & c' & Hf & Hc & Heq); [discriminate |].
      exists g', c'. repeat split; [exact Hf | exact Hc |].
      rewrite Heq, <- app_assoc. reflexivity.
    + destruct (IH next groups (currentGroup ++ [next]))
        as (g' & c' & Hf & Hc & Heq); [destruct currentGroup; discriminate |].
      exists g', c'. repeat split; assumption.
Qed.

Lemma group_returns (cs : list VTTCue) :
  groupCuesIntoSentences cs = Ok (List.map close_group (group_runs cs)).
Proof.
  destruct cs as [| first rest]; [reflexivity |].
  unfold groupCuesIntoSentences, group_runs.
  replace (length (first :: rest) - 1) with (length (combine (first :: rest) rest)).
  2:{ rewrite length_combine. cbn [length]. lia. }
  rewrite (for_loop_fold (group_body (first :: rest)) group_step).
  - destruct (group_fold rest first [] [first])
      as (groups' & currentGroup' & Hf & Hne & H); [discriminate |].
    rewrite Hf. cbn [bind]. destruct currentGroup' as [| c currentGroup']; [congruence |].
    cbn [length Nat.ltb Nat.leb]. rewrite H. reflexivity.
  - intros k [p n] [groups currentGroup] Hk.
    apply nth_error_adjacent in Hk. destruct Hk as [Hp Hn].
    unfold group_body, get.
    replace (1 + k - 1) with k by lia. rewrite Hp. cbn [deref bind].
    replace (1 + k) with (Datatypes.S k) by lia. rewrite Hn. cbn [deref bind].
    unfold group_step. cbn [fst snd]. destruct (sentence_boundary p n); reflexivity.
Qed.

(** ** Grouping covers the cue sequence *)

Lemma sentence_groups_concat (rest : list VTTCue) :
  forall currentGroup prev,
    concat (sentence_groups currentGroup prev rest) = currentGroup ++ rest.
Proof.
  induction rest as [| next rest IH]; intros currentGroup prev; simpl.
  - reflexivity.
  - destruct (sentence_boundary prev next); simpl; rewrite IH.
    + reflexivity.
    + rewrite <- app_assoc. reflexivity.
Qed.

Lemma sentence_groups_nonempty (rest : list VTTCue) :
  forall currentGroup prev,
    currentGroup <> [] ->
    Forall (fun run => run <> []) (sentence_groups currentGroup prev rest).
Proof.
  induction rest as [| next rest IH]; intros currentGroup prev Hne; simpl.
  - constructor; [exact Hne | constructor].
  - destruct (sentence_boundary prev next).
    + constructor; [exact Hne |]. apply IH. discriminate.
    + apply IH. destruct currentGroup; discriminate.
Qed.

Lemma group_runs_concat (cs : list VTTCue) : concat (group_runs cs) = cs.
Proof.
  destruct cs as [| first rest]; [reflexivity |].
  unfold group_runs. rewrite sentence_groups_concat. reflexivity.
Qed.

Lemma group_runs_nonempty (cs : list VTTCue) :
  Forall (fun run => run <> []) (group_runs cs).
Proof.
  destruct cs as [| first rest]; [constructor |].
  apply sentence_groups_nonempty. discriminate.
Qed.

Lemma map_cues_close_group (runs : list (list VTTCue)) :
  List.map cues (List.map close_group runs) = runs.
Proof.
  rewrite map_map. simpl. apply map_id.
Qed.

(** C6. For every cue sequence, [groupCuesIntoSentences] returns groups
    whose cues, concatenated in group order, are exactly the input
    sequence: nothing is omitted, duplicated or reordered.  Every group is
    non-empty and is the contiguous run of the input that lies between the
    cues of the groups before it and the cues of the groups after it, so
    every cue (position) of the input belongs to exactly one group. *)
Theorem group_coverage (cs : list VTTCue) :
  exists gs,
    groupCuesIntoSentences cs = Ok gs /\
    concat (List.map cues gs) = cs /\
    (forall g, In g gs -> cues g <> []) /\
    (forall gs1 g gs2,
        gs = gs1 ++ g :: gs2 ->
        cs = concat (List.map cues gs1) ++ cues g ++ concat (List.map cues gs2)).
Proof.
  exists (List.map close_group (group_runs cs)).
  split; [apply group_returns |].
  assert (Hcat : concat (List.map cues (List.map close_group (group_runs cs))) = cs).
  { rewrite map_cues_close_group. apply group_runs_concat. }
  split; [exact Hcat |]. split.
  - intros g Hg. apply in_map_iff in Hg. destruct Hg as (run & <- & Hrun).
    simpl. pose proof (group_runs_nonempty cs) as Hne.
    rewrite Forall_forall in Hne. apply Hne. exact Hrun.
  - intros gs1 g gs2 Hsplit. rewrite <- Hcat at 1. rewrite Hsplit.
    rewrite map_app, concat_app. simpl. reflexivity.
Qed.

(** ** Indices assigned by [parse] *)

Lemma save_previous_index (st : ParseState) :
  index_invariant st -> index_invariant (save_previous st).
Proof.
  intros [Hidx Hnext]. unfold save_previous.
  destruct (ps_currentCue st) as [cur |]; [| split; assumption].
  destruct (0 <? length (open_textLines cur)); [| split; assumption].
  split; simpl.
  - unfold indexed_from_zero in *.
    rewrite map_app, length_app, Hidx. simpl.
    rewrite seq_app, map_app. simpl. rewrite Hnext. reflexivity.
  - rewrite length_app, Hnext. simpl. lia.
Qed.

Lemma parse_line_index (st : ParseState) (raw : jsstring) :
  index_invariant st -> index_invariant (parse_line st raw).
Proof.
  intros H. unfold parse_line.
  destruct ((length (trim raw) =? 0) || Js.eqb (trim raw) WEBVTT); [exact H |].
  destruct (includes ARROW (trim raw)).
  - apply save_previous_index in H. exact H.
  - destruct (ps_currentCue st); exact H.
Qed.

Lemma fold_parse_line_index (lines : list jsstring) :
  forall st, index_invariant st -> index_invariant (fold_left parse_line lines st).
Proof.
  induction lines as [| raw lines IH]; intros st H; simpl.
  - exact H.
  - apply IH, parse_line_index, H.
Qed.

Lemma parse_lines_indexed (lines : list jsstring) :
  indexed_from_zero (parse_lines lines).
Proof.
  unfold parse_lines.
  apply save_previous_index, fold_parse_line_index.
  split; reflexivity.
Qed.

Lemma indexed_nth (cs : list VTTCue) :
  indexed_from_zero cs ->
  forall i c, nth_error cs i = Some c -> originalIndex c = Z.of_nat i.
Proof.
  unfold indexed_from_zero. intros H i c Hi.
  assert (Hlen : i < length cs) by (apply nth_error_Some; congruence).
  apply (map_nth_error originalIndex) in Hi. rewrite H in Hi.
  rewrite nth_error_map, nth_error_seq in Hi.
  destruct (Nat.ltb_spec i (length cs)) as [_ | Hge]; [| lia].
  simpl in Hi. inversion Hi. reflexivity.
Qed.

(** C9. For every input string, [parse] returns a cue sequence in which
    the cue at position [i] carries [originalIndex = i]: the indices start
    at 0, are strictly increasing along the sequence, and are unique. *)
Theorem parse_index_monotone (vttContent : jsstring) :
  exists cs,
    parse vttContent = Ok cs /\
    (forall i c, nth_error cs i = Some c -> originalIndex c = Z.of_nat i) /\
    (forall i j ci cj,
        nth_error cs i = Some ci -> nth_error cs j = Some cj ->
        i < j -> (originalIndex ci < originalIndex cj)%Z) /\
    (forall i j ci cj,
        nth_error cs i = Some ci -> nth_error cs j = Some cj ->
        originalIndex ci = originalIndex cj -> i = j).
Proof.
  exists (parse_lines (split [NEWLINE] vttContent)).
  split; [apply parse_returns |].
  pose proof (indexed_nth _ (parse_lines_indexed (split [NEWLINE] vttContent))) as Hnth.
  split; [exact Hnth |]. split.
  - intros i j ci cj Hi Hj Hlt.
    rewrite (Hnth _ _ Hi), (Hnth _ _ Hj). lia.
  - intros i j ci cj Hi Hj Heq.
    rewrite (Hnth _ _ Hi), (Hnth _ _ Hj) in Heq. lia.
Qed.

(** ** Where the grouper closes a group *)

Lemma sentence_groups_head (rest : list VTTCue) :
  forall currentGroup prev,
  exists more runs,
    sentence_groups currentGroup prev rest = (currentGroup ++ more) :: runs /\
    more ++ concat runs = rest.
Proof.
  induction rest as [| next rest IH]; intros currentGroup prev; simpl.
  - exists [], []. rewrite app_nil_r. split; reflexivity.
  - destruct (sentence_boundary prev next).
    + exists [], (sentence_groups [next] next rest).
      rewrite app_nil_r. split; [reflexivity |].
      simpl. rewrite sentence_groups_concat. reflexivity.
    + destruct (IH (currentGroup ++ [next]) next) as (more & runs & Heq & Hcat).
      exists (next :: more), runs. rewrite Heq, <- app_assoc. simpl.
      split; [reflexivity |]. rewrite Hcat. reflexivity.
Qed.

Lemma app_eq_length {A : Type} (a b c d : list A) :
  a ++ b = c ++ d -> length a = length c -> a = c /\ b = d.
Proof.
  revert c. induction a as [| x a IH]; intros [| y c] H Hlen; try discriminate.
  - split; [reflexivity | exact H].
  - simpl in H. inversion H; subst. simpl in Hlen.
    destruct (IH c H2) as [-> ->]; [lia |]. split; reflexivity.
Qed.

Lemma app_eq_shorter {A : Type} (a b c d : list A) :
  a ++ b = c ++ d -> length a <= length c -> exists m, c = a ++ m /\ b = m ++ d.
Proof.
  revert c. induction a as [| x a IH]; intros c H Hlen.
  - exists c. split; [reflexivity | exact H].
  - destruct c as [| y c]; [simpl in Hlen; lia |].
    simpl in H. inversion H; subst. simpl in Hlen.
    destruct (IH c H2) as (m & -> & ->); [lia |].
    exists m. split; reflexivity.
Qed.

(** The scan, followed up to an adjacent pair [p], [n] that is still
    ahead: a boundary closes the group after [p], anything else keeps
    [p] and [n] in one group. *)
Lemma sentence_groups_pair (rest : list VTTCue) :
  forall currentGroup front prev l1 p n l2,
    currentGroup = front ++ [prev] ->
    currentGroup ++ rest = l1 ++ p :: n :: l2 ->
    length currentGroup <= length l1 + 1 ->
    if sentence_boundary p n
    then closes_between (sentence_groups currentGroup prev rest) (l1 ++ [p]) (n :: l2)
    else same_group (sentence_groups currentGroup prev rest) l1 p n l2.
Proof.
  induction rest as [| next rest IH];
    intros currentGroup front prev l1 p n l2 Hlast Heq Hlen.
  - apply (f_equal (@length _)) in Heq.
    rewrite !length_app in Heq. simpl in Heq. lia.
  - destruct (Nat.eq_dec (length currentGroup) (length l1 + 1)) as [Hat | Hbefore].
    + (* the open group ends with [p]; [next] is [n] *)
      assert (Hsplit : currentGroup = l1 ++ [p] /\ next :: rest = n :: l2).
      { apply app_eq_length.
        - rewrite <- app_assoc. exact Heq.
        - rewrite length_app. simpl. exact Hat. }
      destruct Hsplit as [Hcur Hrest]. inversion Hrest; subst next rest.
      assert (prev = p) by (rewrite Hlast in Hcur; apply app_inj_tail in Hcur; tauto).
      subst prev. simpl. destruct (sentence_boundary p n).
      * exists [currentGroup], (sentence_groups [n] n l2).
        split; [reflexivity |]. split.
        -- simpl. rewrite app_nil_r. exact Hcur.
        -- rewrite sentence_groups_concat. reflexivity.
      * destruct (sentence_groups_head l2 (currentGroup ++ [n]) n)
          as (more & runs & Hhead & Hcat).
        exists [], (currentGroup ++ [n] ++ more), runs, l1, more.
        split; [rewrite Hhead, <- app_assoc; reflexivity |]. split.
        -- rewrite Hcur, <- app_assoc. reflexivity.
        -- split; [reflexivity | exact Hcat].
    + (* the pair is further ahead *)
      assert (Hle : length currentGroup <= length l1) by lia.
      cbn [sentence_groups]. destruct (sentence_boundary prev next) eqn:Hb.
      * destruct (app_eq_shorter _ _ _ _ Heq Hle) as (l1' & Hl1 & Hrest).
        specialize (IH [next] [] next l1' p n l2 eq_refl Hrest).
        assert (Hlen' : length [next] <= length l1' + 1) by (simpl; lia).
        specialize (IH Hlen').
        destruct (sentence_boundary p n).
        -- destruct IH as (r1 & r2 & Hr & H1 & H2).
           exists (currentGroup :: r1), r2. rewrite Hr.
           split; [reflexivity |]. split; [| exact H2].
           simpl. rewrite H1, Hl1, <- app_assoc. reflexivity.
        -- destruct IH as (r1 & run & r2 & a & b & Hr & Hrun & H1 & H2).
           exists (currentGroup :: r1), run, r2, a, b. rewrite Hr.
           split; [reflexivity |]. split; [exact Hrun |].
           split; [| exact H2].
           simpl. rewrite <- app_assoc, H1, Hl1. reflexivity.
      * apply (IH (currentGroup ++ [next]) currentGroup next l1 p n l2).
        -- reflexivity.
        -- rewrite <- app_assoc. exact Heq.
        -- rewrite length_app. simpl. lia.
Qed.

(** A cut between [p] and [n] cannot fall inside a group that holds
    both. *)
Lemma same_group_not_closed (runs : list (list VTTCue)) l1 p n l2 :
  same_group runs l1 p n l2 -> ~ closes_between runs (l1 ++ [p]) (n :: l2).
Proof.
  intros (r1 & run & r2 & a & b & Hr & Hrun & H1 & H2) (c1 & c2 & Hc & Hc1 & Hc2).
  assert (Hlen : length (concat c1) = length (concat r1) + length a + 1).
  { rewrite Hc1, <- H1, !length_app. simpl. lia. }
  rewrite Hr in Hc. symmetry in Hc. apply app_eq_app in Hc.
  destruct Hc as (l & [[Hc1' Hrest] | [Hr1 Hc2']]).
  - destruct l as [| x l].
    + rewrite app_nil_r in Hc1'. subst c1. lia.
    + simpl in Hrest. inversion Hrest; subst x.
      rewrite Hc1', concat_app in Hlen. simpl in Hlen.
      rewrite Hrun in Hlen.
      repeat (rewrite length_app in Hlen; simpl in Hlen). lia.
  - rewrite Hr1, concat_app, length_app in Hlen. lia.
Qed.

(** The grouper's decision at an adjacent pair, on the runs of its
    groups. *)
Lemma group_runs_pair (l1 : list VTTCue) (p n : VTTCue) (l2 : list VTTCue) :
  (closes_between (group_runs (l1 ++ p :: n :: l2)) (l1 ++ [p]) (n :: l2)
   <-> sentence_boundary p n = true)
  /\ (sentence_boundary p n = false ->
      same_group (group_runs (l1 ++ p :: n :: l2)) l1 p n l2).
Proof.
  assert (Hpair : if sentence_boundary p n
                  then closes_between (group_runs (l1 ++ p :: n :: l2))
                                      (l1 ++ [p]) (n :: l2)
                  else same_group (group_runs (l1 ++ p :: n :: l2)) l1 p n l2).
  { destruct l1 as [| first l1]; unfold group_runs; cbn [app].
    - apply (sentence_groups_pair (n :: l2) [p] [] p [] p n l2);
        [reflexivity | reflexivity | simpl; lia].
    - apply (sentence_groups_pair (l1 ++ p :: n :: l2) [first] [] first
                                  (first :: l1) p n l2);
        [reflexivity | reflexivity | simpl; lia]. }
  destruct (sentence_boundary p n).
  - split; [tauto | discriminate].
  - split; [| intros _; exact Hpair].
    split; [| discriminate].
    intros Hclosed. exfalso. exact (same_group_not_closed _ _ _ _ _ Hpair Hclosed).
Qed.

(** The two regular expression tests, on code units. *)
Lemma test_class_plus_end_last (cls : char -> bool) (s : jsstring) :
  test_class_plus_end cls s = ends_in cls s.
Proof.
  unfold test_class_plus_end, ends_in.
  induction s as [| c s IH] using rev_ind; [reflexivity |].
  rewrite rev_app_distr. simpl rev. cbn [app].
  assert (Htails : forall t,
             existsb (fun suffix => negb (length suffix =? 0) && forallb cls suffix)
                     (tails (t ++ [c]))
             = cls c).
  { clear. induction t as [| d t IHt].
    - simpl. destruct (cls c); reflexivity.
    - cbn [app tails existsb]. fold (tails (t ++ [c])). rewrite IHt.
      cbn [length Nat.eqb negb andb forallb]. rewrite forallb_app. simpl.
      destruct (cls c); [apply orb_true_r |].
      rewrite !andb_false_r. reflexivity. }
  apply Htails.
Qed.

Lemma sentence_boundary_chars (p n : VTTCue) :
  sentence_boundary p n
  = ends_in sentence_ending_char (trim (last_line p))
    && begins_with straight_sentence_start (trim (first_line n)).
Proof.
  unfold sentence_boundary, SENTENCE_ENDINGS_test, SENTENCE_STARTERS_test.
  rewrite test_class_plus_end_last. f_equal.
  unfold test_start_class, begins_with.
  destruct (trim (first_line n)) as [| c s]; [reflexivity |].
  unfold sentence_starter_char, straight_sentence_start.
  destruct ((65 <=? c)%N && (c <=? 90)%N), (c =? 45)%N, (c =? 34)%N, (c =? 39)%N;
    reflexivity.
Qed.

Lemma last_line_last (cue : VTTCue) : last_line cue = last (textLines cue) [].
Proof.
  unfold last_line, get_z. destruct (textLines cue) as [| l ls] using rev_ind.
  - reflexivity.
  - rewrite length_app, last_last. simpl length.
    destruct (Z.ltb_spec (Z.of_nat (length ls + 1) - 1) 0) as [Hneg | _]; [lia |].
    replace (Z.to_nat (Z.of_nat (length ls + 1) - 1)) with (length ls) by lia.
    rewrite nth_error_app2, Nat.sub_diag by lia. reflexivity.
Qed.

Lemma first_line_hd (cue : VTTCue) : first_line cue = hd [] (textLines cue).
Proof.
  unfold first_line, get. destruct (textLines cue); reflexivity.
Qed.

Lemma ending_class_without_ellipsis (s : jsstring) :
  ends_in ellipsis_or_its_bytes s = false ->
  ends_in sentence_ending_char s = ends_in terminal_punctuation s.
Proof.
  unfold ends_in. destruct (rev s) as [| c r]; [reflexivity |].
  unfold ellipsis_or_its_bytes, sentence_ending_char, terminal_punctuation.
  destruct (c =? 8230)%N, (c =? 226)%N, (c =? 8364)%N, (c =? 166)%N;
    simpl; try discriminate.
  intros _. rewrite !orb_false_r. reflexivity.
Qed.

(** C4 (amended). For adjacent cues [p], [n] of a cue sequence such that
    the last text line of [p], trimmed, does not end in an ellipsis (nor
    in one of the code points U+00E2, U+20AC, U+00A6),
    [groupCuesIntoSentences] closes the open group between [p] and [n]
    exactly when that line ends in terminal punctuation and the first text
    line of [n], trimmed, begins with a letter A to Z, a hyphen, or a
    straight quotation mark; otherwise [n] joins the group of [p]. *)
Theorem group_boundary_rule (l1 : list VTTCue) (p n : VTTCue) (l2 : list VTTCue) :
  ends_in ellipsis_or_its_bytes (trim (last_line p)) = false ->
  exists gs,
    groupCuesIntoSentences (l1 ++ p :: n :: l2) = Ok gs /\
    (closes_between (List.map cues gs) (l1 ++ [p]) (n :: l2)
     <-> ends_in terminal_punctuation (trim (last_line p)) = true
         /\ begins_with straight_sentence_start (trim (first_line n)) = true) /\
    (~ (ends_in terminal_punctuation (trim (last_line p)) = true
        /\ begins_with straight_sentence_start (trim (first_line n)) = true) ->
     same_group (List.map cues gs) l1 p n l2).
Proof.
  intros Hplain.
  exists (List.map close_group (group_runs (l1 ++ p :: n :: l2))).
  split; [apply group_returns |].
  rewrite map_cues_close_group.
  destruct (group_runs_pair l1 p n l2) as [Hiff Hsame].
  rewrite sentence_boundary_chars, (ending_class_without_ellipsis _ Hplain),
    andb_true_iff in Hiff.
  rewrite sentence_boundary_chars, (ending_class_without_ellipsis _ Hplain) in Hsame.
  split; [exact Hiff |].
  intros Hnot. apply Hsame. apply not_true_is_false.
  rewrite andb_true_iff. exact Hnot.
Qed.

Lemma group_boundary_rule_witness :
  exists gs,
    groupCuesIntoSentences ([] ++ cue_hello :: cue_world :: [cue_continues]) = Ok gs /\
    (closes_between (List.map cues gs) ([] ++ [cue_hello]) (cue_world :: [cue_continues])
     <-> ends_in terminal_punctuation (trim (last_line cue_hello)) = true
         /\ begins_with straight_sentence_start (trim (first_line cue_world)) = true) /\
    (~ (ends_in terminal_punctuation (trim (last_line cue_hello)) = true
        /\ begins_with straight_sentence_start (trim (first_line cue_world)) = true) ->
     same_group (List.map cues gs) [] cue_hello cue_world [cue_continues]).
Proof.
  apply (group_boundary_rule [] cue_hello cue_world [cue_continues]).
  reflexivity.
Defined.

(** The rule as the specification words it fails on a curly quotation
    mark: the line ends in a full stop and the next one opens with U+201C,
    yet both cues stay in one group. *)
Lemma group_curly_quote_counterexample :
  ends_in terminal_punctuation (trim (last_line cue_hello)) = true /\
  begins_with stated_sentence_start (trim (first_line cue_curly_quote)) = true /\
  groupCuesIntoSentences [cue_hello; cue_curly_quote]
  = Ok [close_group [cue_hello; cue_curly_quote]] /\
  ~ closes_between (List.map cues [close_group [cue_hello; cue_curly_quote]])
                   [cue_hello] [cue_curly_quote].
Proof.
  split; [reflexivity |]. split; [reflexivity |]. split; [reflexivity |].
  intros (r1 & r2 & Hr & H1 & H2).
  destruct r1 as [| run r1]; [discriminate |].
  simpl in Hr. inversion Hr; subst run.
  destruct r1; [| discriminate]. discriminate.
Qed.

(** The class of [SENTENCE_ENDINGS] holds the three code points U+00E2,
    U+20AC, U+00A6 where an ellipsis was meant: a line that ends in an
    ellipsis does not close its group. *)
Example group_ellipsis_not_closed :
  ends_in terminal_punctuation (trim (last_line cue_ellipsis)) = true /\
  begins_with straight_sentence_start (trim (first_line cue_world)) = true /\
  groupCuesIntoSentences [cue_ellipsis; cue_world]
  = Ok [close_group [cue_ellipsis; cue_world]].
Proof. repeat split. Qed.

(** ** The under-fill loop *)

Lemma nth_error_indexed {A : Type} (l : list A) :
  forall base k i x,
    nth_error (combine (seq base (length l)) l) k = Some (i, x) ->
    i = base + k /\ nth_error l k = Some x.
Proof.
  induction l as [| y l IH]; intros base k i x H.
  - destruct k; discriminate.
  - destruct k as [| k]; simpl in H.
    + inversion H; subst. split; [lia | reflexivity].
    + apply IH in H. destruct H as [-> H]. split; [lia | exact H].
Qed.

Lemma find_longest_scan (lines : list jsstring) :
  find_longest lines = Ok (longest_scan lines).
Proof.
  unfold find_longest, longest_scan.
  apply for_loop_fold_n; [rewrite length_combine, length_seq; lia |].
  intros k [i line] [li ll] Hk.
  apply nth_error_indexed in Hk. destruct Hk as [-> Hk].
  unfold longest_body, get. cbn [Nat.add]. rewrite Hk. cbn [deref bind].
  unfold longest_step. destruct (ll <? length line); reflexivity.
Qed.

Lemma combine_app_same {A B : Type} (a : list A) (c : list B) :
  forall b d, length a = length c ->
              combine (a ++ b) (c ++ d) = combine a c ++ combine b d.
Proof.
  revert c. induction a as [| x a IH]; intros [| y c] b d H; try discriminate.
  - reflexivity.
  - simpl. rewrite IH by (simpl in H; lia). reflexivity.
Qed.

Lemma combine_seq_snoc {A : Type} (l : list A) (x : A) :
  combine (seq 0 (length (l ++ [x]))) (l ++ [x])
  = combine (seq 0 (length l)) l ++ [(length l, x)].
Proof.
  rewrite length_app. simpl length. rewrite seq_app. simpl.
  rewrite combine_app_same by (rewrite length_seq; reflexivity).
  reflexivity.
Qed.

Lemma longest_scan_spec (lines : list jsstring) :
  lines <> [] ->
  is_first_longest lines (fst (longest_scan lines)) /\
  snd (longest_scan lines) = length (nth (fst (longest_scan lines)) lines []).
Proof.
  induction lines as [| x lines IH] using rev_ind; [congruence |].
  intros _. unfold longest_scan. rewrite combine_seq_snoc, fold_left_app.
  fold (longest_scan lines). cbn [fold_left].
  destruct lines as [| y lines'] eqn:Hlines.
  - (* a single line *)
    change (longest_scan []) with (0, 0). unfold longest_step. cbn [app length].
    assert (Hfst : fst (if 0 <? length x then (0, length x) else (0, 0)) = 0)
      by (destruct (0 <? length x); reflexivity).
    assert (Hsnd : snd (if 0 <? length x then (0, length x) else (0, 0)) = length x)
      by (destruct (Nat.ltb_spec 0 (length x)); cbn [snd]; lia).
    rewrite Hfst, Hsnd. unfold is_first_longest. cbn [nth length].
    repeat split; try lia.
    intros j Hj. destruct j; [lia | lia].
  - rewrite <- Hlines in *. assert (Hne : lines <> []) by (subst; discriminate).
    destruct (IH Hne) as [(Hi & Hmax & Hfirst) Hlen].
    destruct (longest_scan lines) as [li ll]. cbn [fst snd] in *.
    unfold longest_step. destruct (Nat.ltb_spec ll (length x)) as [Hlt | Hge];
      cbn [fst snd]; unfold is_first_longest.
    + (* the new line is strictly longer *)
      rewrite !nth_middle. repeat split.
      * rewrite length_app. simpl. lia.
      * intros j Hj. rewrite length_app in Hj. simpl in Hj.
        destruct (Nat.eq_dec j (length lines)) as [-> | Hneq].
        -- rewrite nth_middle. lia.
        -- rewrite app_nth1 by lia. specialize (Hmax j). lia.
      * intros j Hj. rewrite app_nth1 by lia. specialize (Hmax j). lia.
    + rewrite !(app_nth1 lines [x] [] Hi). repeat split.
      * rewrite length_app. lia.
      * intros j Hj. rewrite length_app in Hj. simpl in Hj.
        destruct (Nat.eq_dec j (length lines)) as [-> | Hneq].
        -- rewrite nth_middle. lia.
        -- rewrite app_nth1 by lia. apply Hmax. lia.
      * intros j Hj. rewrite app_nth1 by lia. apply Hfirst. exact Hj.
      * exact Hlen.
Qed.

Lemma is_first_longest_unique (lines : list jsstring) (i j : nat) :
  is_first_longest lines i -> is_first_longest lines j -> i = j.
Proof.
  intros (Hi & Himax & Hifirst) (Hj & Hjmax & Hjfirst).
  destruct (Nat.lt_trichotomy i j) as [Hlt | [Heq | Hgt]]; [| exact Heq |].
  - specialize (Hjfirst i Hlt). specialize (Himax j Hj). lia.
  - specialize (Hifirst j Hgt). specialize (Hjmax i Hi). lia.
Qed.

(** One round of the loop never throws: it halves the first longest line
    or ends in [break]. *)
Lemma underfill_round_spec (lines : list jsstring) :
  lines <> [] ->
  exists i,
    is_first_longest lines i /\
    1 <= length (words_of (nth i lines [])) /\
    underfill_round lines
    = Ok (if 1 <? length (words_of (nth i lines []))
          then Some (halve_at lines i) else None).
Proof.
  intros Hne. destruct (longest_scan_spec lines Hne) as [Hfirst _].
  exists (fst (longest_scan lines)). split; [exact Hfirst |].
  split.
  - unfold words_of, split, split_with.
    destruct (length (nth (fst (longest_scan lines)) lines [])); simpl;
      [lia |].
    destruct (search _ _) as [[b a] |]; simpl; lia.
  - unfold underfill_round. rewrite find_longest_scan.
    destruct (longest_scan lines) as [li ll] eqn:Hscan. cbn [bind fst] in *.
    destruct Hfirst as (Hi & _ & _).
    unfold get. rewrite (nth_error_nth' lines [] Hi). cbn [deref bind].
    unfold words_of, halve_at, splice_replace2, words_of.
    destruct (1 <? length (split [SPACE] (nth li lines []))); reflexivity.
Qed.

Lemma length_halve_at (lines : list jsstring) (i : nat) :
  i < length lines -> length (halve_at lines i) = length lines + 1.
Proof.
  intros Hi. unfold halve_at.
  rewrite !length_app, length_firstn, length_skipn. simpl. lia.
Qed.

Lemma underfill_round_pure (lines : list jsstring) :
  lines <> [] -> underfill_round lines = Ok (round_of lines).
Proof.
  intros Hne. destruct (underfill_round_spec lines Hne) as (i & Hi & _ & Hround).
  destruct (longest_scan_spec lines Hne) as [Hscan _].
  rewrite (is_first_longest_unique _ _ _ Hi Hscan) in Hround.
  exact Hround.
Qed.

Lemma underfill_wf_step (totalLines : nat) (lines : list jsstring) :
  underfill_wf totalLines lines
  = if (length lines <? totalLines) && (0 <? length lines)
    then match round_of lines with
         | Some lines' => underfill_wf totalLines lines'
         | None => lines
         end
    else lines.
Proof.
  funelim (underfill_wf totalLines lines);
    repeat match goal with
           | E : ?b = true |- context [if ?b then _ else _] => rewrite E
           | E : ?b = false |- context [if ?b then _ else _] => rewrite E
           | E : round_of ?l = _ |- context [round_of ?l] => rewrite E
           end;
    reflexivity.
Qed.

Lemma round_of_first_longest (lines : list jsstring) :
  lines <> [] ->
  is_first_longest lines (fst (longest_scan lines)) /\
  1 <= length (words_of (nth (fst (longest_scan lines)) lines [])).
Proof.
  intros Hne. destruct (underfill_round_spec lines Hne) as (i & Hi & Hwords & _).
  destruct (longest_scan_spec lines Hne) as [Hscan _].
  rewrite <- (is_first_longest_unique _ _ _ Hi Hscan). split; assumption.
Qed.

Lemma underfill_run (fuel : nat) :
  forall totalLines lines splits,
    totalLines - length lines <= fuel ->
    exists r, underfill fuel totalLines lines splits = Ok r /\
              underfill_result totalLines lines splits r.
Proof.
  assert (Hstop : forall totalLines lines splits,
             (length lines <? totalLines) && (0 <? length lines) = false ->
             underfill_result totalLines lines splits
                              (mkUnderfill lines GuardFalse splits)).
  { intros totalLines lines splits Hguard.
    assert (Hdone : totalLines <= length lines \/ lines = []).
    { apply andb_false_iff in Hguard. destruct Hguard as [H | H].
      - apply Nat.ltb_ge in H. left. exact H.
      - apply Nat.ltb_ge in H. right.
        destruct lines; [reflexivity | simpl in H; lia]. }
    unfold underfill_result. cbn [uf_lines uf_exit uf_splits].
    rewrite underfill_wf_step, Hguard.
    split; [reflexivity |].
    split; [apply underfills_filled; exact Hdone |].
    split; [lia |]. split; [lia |]. split; [lia |].
    split; [intros _; exact Hdone | discriminate]. }
  induction fuel as [| fuel IH]; intros totalLines lines splits Hfuel.
  - (* no round is needed *)
    assert (Hguard : (length lines <? totalLines) && (0 <? length lines) = false).
    { destruct (Nat.ltb_spec (length lines) totalLines); [lia | reflexivity]. }
    cbn [underfill]. rewrite Hguard.
    exists (mkUnderfill lines GuardFalse splits).
    split; [reflexivity | apply Hstop; exact Hguard].
  - cbn [underfill].
    destruct ((length lines <? totalLines) && (0 <? length lines)) eqn:Hguard.
    2:{ exists (mkUnderfill lines GuardFalse splits).
        split; [reflexivity | apply Hstop; exact Hguard]. }
    apply andb_prop in Hguard as Hg. destruct Hg as [Hlt Hpos].
    apply Nat.ltb_lt in Hlt. apply Nat.ltb_lt in Hpos.
    assert (Hne : lines <> [])
      by (destruct lines; [simpl in Hpos; lia | discriminate]).
    rewrite (underfill_round_pure lines Hne). cbn [bind].
    destruct (round_of_first_longest lines Hne) as [Hfirst Hwords].
    pose proof (underfill_wf_step totalLines lines) as Hwfstep.
    rewrite Hguard in Hwfstep. unfold round_of in *.
    destruct (Nat.ltb_spec 1 (length (words_of (nth (fst (longest_scan lines)) lines []))))
      as [Hmany | Hone].
    + (* the longest line is halved *)
      pose proof (length_halve_at lines _ (proj1 Hfirst)) as Hlen.
      destruct (IH totalLines (halve_at lines (fst (longest_scan lines))) (S splits))
        as (r & Hr & Hres); [lia |].
      exists r. split; [exact Hr |].
      destruct Hres as (Hwf & Hrel & Hl & Hs & Hbound & Hguardexit & Hbreak).
      unfold underfill_result. rewrite Hwfstep.
      split; [exact Hwf |].
      split; [eapply underfills_halve; [lia | exact Hfirst | lia | exact Hrel] |].
      split; [lia |]. split; [lia |]. split; [lia |].
      split; [exact Hguardexit | exact Hbreak].
    + (* the longest line has one word: break *)
      exists (mkUnderfill lines Break splits). split; [reflexivity |].
      unfold underfill_result. cbn [uf_lines uf_exit uf_splits]. rewrite Hwfstep.
      split; [reflexivity |].
      split; [eapply underfills_one_word; [lia | exact Hfirst | lia] |].
      split; [lia |]. split; [lia |]. split; [lia |].
      split; [discriminate |].
      intros _. split; [lia |].
      exists (fst (longest_scan lines)). split; [exact Hfirst | lia].
Qed.

(** ** The refill walk *)

Lemma totalLines_of_slot_count (group : VTTGroup) :
  totalLines_of group = slot_count (cues group).
Proof.
  unfold totalLines_of, slot_count.
  assert (H : forall cs a,
             fold_left (fun sum cue => sum + length (textLines cue)) cs a
             = a + list_sum (List.map (fun cue => length (textLines cue)) cs)).
  { induction cs as [| c cs IH]; intros a; simpl; [lia |].
    rewrite IH. lia. }
  rewrite H. reflexivity.
Qed.

Lemma fill_slots_spec (n : nat) (translatedLines : list jsstring) :
  forall newTextLines lineIndex fallbacks,
    lineIndex <= length translatedLines ->
    (0 < fallbacks -> lineIndex = length translatedLines) ->
    fill_slots n translatedLines newTextLines (lineIndex, fallbacks)
    = (newTextLines ++ slots_from translatedLines (lineIndex + fallbacks) n,
       (Nat.min (lineIndex + fallbacks + n) (length translatedLines),
        lineIndex + fallbacks + n - length translatedLines)).
Proof.
  unfold slots_from.
  induction n as [| n IH]; intros new li fb Hle Hfb.
  - cbn [fill_slots seq List.map]. rewrite app_nil_r. f_equal. f_equal; lia.
  - cbn [fill_slots seq List.map].
    destruct (Nat.ltb_spec li (length translatedLines)) as [Hlt | Hge].
    + assert (fb = 0) by lia. subst fb.
      rewrite IH by lia. rewrite <- app_assoc. cbn [app].
      replace (S li + 0) with (S li) by lia.
      replace (li + 0) with li by lia.
      replace (li + S n) with (S li + n) by lia. reflexivity.
    + assert (li = length translatedLines) by lia. subst li.
      rewrite IH by lia. rewrite <- app_assoc. cbn [app].
      rewrite (nth_overflow translatedLines) by lia.
      replace (length translatedLines + S fb) with (S (length translatedLines + fb)) by lia.
      replace (length translatedLines + fb + S n)
        with (S (length translatedLines + fb) + n) by lia.
      reflexivity.
Qed.

Lemma refill_spec (cs : list VTTCue) (translatedLines : list jsstring) :
  forall updatedCues lineIndex fallbacks,
    lineIndex <= length translatedLines ->
    (0 < fallbacks -> lineIndex = length translatedLines) ->
    refill cs translatedLines updatedCues (lineIndex, fallbacks)
    = (updatedCues ++ dealt_cues cs translatedLines (lineIndex + fallbacks),
       (Nat.min (lineIndex + fallbacks + slot_count cs) (length translatedLines),
        lineIndex + fallbacks + slot_count cs - length translatedLines)).
Proof.
  induction cs as [| cue rest IH]; intros updated li fb Hle Hfb.
  - cbn [refill dealt_cues]. unfold slot_count. cbn [List.map list_sum].
    rewrite app_nil_r. change (list_sum []) with 0. f_equal. f_equal; lia.
  - assert (Hcount : slot_count (cue :: rest)
                     = length (textLines cue) + slot_count rest) by reflexivity.
    cbn [refill dealt_cues]. rewrite fill_slots_spec by assumption.
    cbn [app]. rewrite IH by lia.
    rewrite <- app_assoc. cbn [app]. rewrite Hcount. unfold visible.
    replace (Nat.min (li + fb + length (textLines cue)) (length translatedLines)
             + (li + fb + length (textLines cue) - length translatedLines))
      with (li + fb + length (textLines cue)) by lia.
    f_equal. f_equal; lia.
Qed.

Lemma length_dealt_cues (cs : list VTTCue) (translatedLines : list jsstring) :
  forall offset, length (dealt_cues cs translatedLines offset) = length cs.
Proof.
  induction cs as [| cue rest IH]; intros offset; simpl; [| rewrite IH]; reflexivity.
Qed.

Lemma dealt_cues_same_slot (cs : list VTTCue) (translatedLines : list jsstring) :
  forall offset, Forall2 same_slot cs (dealt_cues cs translatedLines offset).
Proof.
  induction cs as [| cue rest IH]; intros offset; simpl; constructor.
  - repeat split.
  - apply IH.
Qed.

Lemma dealt_cues_lines (cs : list VTTCue) (translatedLines : list jsstring) :
  forall offset,
    concat (List.map textLines (dealt_cues cs translatedLines offset))
    = filter visible (slots_from translatedLines offset (slot_count cs)).
Proof.
  unfold slots_from.
  induction cs as [| cue rest IH]; intros offset; [reflexivity |].
  cbn [dealt_cues List.map concat textLines with_textLines].
  rewrite IH.
  change (slot_count (cue :: rest))
    with (length (textLines cue) + slot_count rest).
  rewrite seq_app, map_app, filter_app. reflexivity.
Qed.

(** The run of [redistributeTranslation], loop-free. *)
Lemma redistribute_run_spec (group : VTTGroup) (translatedText : jsstring) :
  exists uf,
    underfill (totalLines_of group - length (initial_lines translatedText))
              (totalLines_of group) (initial_lines translatedText) 0 = Ok uf /\
    underfill_result (totalLines_of group) (initial_lines translatedText) 0 uf /\
    redistribute_run group translatedText
    = Ok (mkRun (dealt_cues (cues group)
                            (overfill (totalLines_of group) (uf_lines uf)) 0)
                uf
                (overfill (totalLines_of group) (uf_lines uf))
                (totalLines_of group
                 - length (overfill (totalLines_of group) (uf_lines uf)))).
Proof.
  destruct (underfill_run (totalLines_of group - length (initial_lines translatedText))
                          (totalLines_of group) (initial_lines translatedText) 0
                          (Nat.le_refl _)) as (uf & Huf & Hres).
  exists uf. split; [exact Huf |]. split; [exact Hres |].
  unfold redistribute_run. rewrite Huf. cbn [bind].
  rewrite refill_spec by lia. cbn [app Nat.add].
  rewrite <- totalLines_of_slot_count. reflexivity.
Qed.

(** ** Redistribution: slots, termination, totality *)

Lemma redistribute_returns (group : VTTGroup) (translatedText : jsstring) :
  exists run,
    redistribute_run group translatedText = Ok run /\
    redistributeTranslation group translatedText = Ok (run_cues run) /\
    run_cues run = dealt_cues (cues group) (run_lines run) 0 /\
    run_lines run = overfill (totalLines_of group) (uf_lines (run_underfill run)) /\
    run_fallbacks run = totalLines_of group - length (run_lines run) /\
    underfill_result (totalLines_of group) (initial_lines translatedText) 0
                     (run_underfill run).
Proof.
  destruct (redistribute_run_spec group translatedText) as (uf & _ & Hres & Hrun).
  eexists. split; [exact Hrun |].
  unfold redistributeTranslation. rewrite Hrun. cbn [bind run_cues run_lines
    run_underfill run_fallbacks].
  split; [reflexivity |]. split; [reflexivity |]. split; [reflexivity |].
  split; [reflexivity | exact Hres].
Qed.

(** C5. For every group and every translated text (empty or not),
    [redistributeTranslation] returns one cue per cue of the group, in the
    same order, each with the [startTime], [endTime] and [originalIndex]
    of the cue it comes from; only [textLines] is new. *)
Theorem redistribute_keeps_slots (group : VTTGroup) (translatedText : jsstring) :
  exists out,
    redistributeTranslation group translatedText = Ok out /\
    length out = length (cues group) /\
    Forall2 same_slot (cues group) out.
Proof.
  destruct (redistribute_returns group translatedText)
    as (run & _ & Hout & Hcues & _).
  exists (run_cues run). split; [exact Hout |]. rewrite Hcues.
  split; [apply length_dealt_cues | apply dealt_cues_same_slot].
Qed.

Lemma underfill_round_adds_one (lines lines' : list jsstring) :
  underfill_round lines = Ok (Some lines') -> length lines' = length lines + 1.
Proof.
  destruct lines as [| l lines]; [discriminate |].
  assert (Hne : l :: lines <> []) by discriminate.
  rewrite (underfill_round_pure _ Hne). unfold round_of.
  destruct (1 <? length (words_of (nth (fst (longest_scan (l :: lines))) (l :: lines) [])));
    [| discriminate].
  intros H. inversion H. apply length_halve_at.
  apply (round_of_first_longest _ Hne).
Qed.

(** C10. The under-fill loop terminates.  A round on a non-empty array
    either ends in [break] (the first longest line has one word) or
    replaces the array by one with exactly one more line; so from any
    array, [totalLines - translatedLines.length] rounds are enough for the
    loop to return, it splits at most that many times, and what it returns
    is the value of the function [underfill_wf], defined by well-founded
    recursion on [totalLines - translatedLines.length].  Hence
    [redistributeTranslation] returns for every group and text. *)
Theorem underfill_terminates :
  (forall lines,
      lines <> [] ->
      exists round,
        underfill_round lines = Ok round /\
        match round with
        | Some lines' => length lines' = length lines + 1
        | None => exists i, is_first_longest lines i /\
                            length (words_of (nth i lines [])) = 1
        end) /\
  (forall totalLines lines fuel splits,
      totalLines - length lines <= fuel ->
      exists r,
        underfill fuel totalLines lines splits = Ok r /\
        uf_lines r = underfill_wf totalLines lines /\
        uf_splits r - splits <= totalLines - length lines /\
        length (uf_lines r) = length lines + (uf_splits r - splits) /\
        (length lines <= totalLines -> length (uf_lines r) <= totalLines)) /\
  (forall group translatedText,
      exists out, redistributeTranslation group translatedText = Ok out).
Proof.
  split; [| split].
  - intros lines Hne.
    destruct (underfill_round_spec lines Hne) as (i & Hi & Hwords & Hround).
    eexists. split; [exact Hround |].
    destruct (Nat.ltb_spec 1 (length (words_of (nth i lines [])))) as [Hmany | Hone].
    + apply length_halve_at. apply Hi.
    + exists i. split; [exact Hi | lia].
  - intros totalLines lines fuel splits Hfuel.
    destruct (underfill_run fuel totalLines lines splits Hfuel)
      as (r & Hr & Hwf & _ & Hlen & Hs & Hbound & _).
    exists r. repeat split; try assumption. lia.
  - intros group translatedText.
    destruct (redistribute_returns group translatedText) as (run & _ & Hout & _).
    exists (run_cues run). exact Hout.
Qed.

(** C7. The four core transformations return a result for every input:
    in the model, no call of [parse], [groupCuesIntoSentences] or
    [redistributeTranslation] reads a property of [undefined] (no
    [TypeError]) and the [while] loop never exhausts its rounds;
    [reconstructVTT] has no operation that can throw. *)
Theorem core_is_total :
  (forall vttContent, exists cs, parse vttContent = Ok cs) /\
  (forall cs, exists groups, groupCuesIntoSentences cs = Ok groups) /\
  (forall group translatedText,
      exists out, redistributeTranslation group translatedText = Ok out) /\
  (forall cs, exists text, reconstructVTT cs = text).
Proof.
  split; [| split; [| split]].
  - intros vttContent. eexists. apply parse_returns.
  - intros cs. eexists. apply group_returns.
  - intros group translatedText.
    destruct (redistribute_returns group translatedText) as (run & _ & Hout & _).
    exists (run_cues run). exact Hout.
  - intros cs. eexists. reflexivity.
Qed.

(** The over-fill phase. *)
Lemma overfill_exact (totalLines : nat) (lines : list jsstring) :
  length lines <= totalLines -> overfill totalLines lines = lines.
Proof.
  intros H. unfold overfill.
  destruct (Nat.ltb_spec totalLines (length lines)); [lia | reflexivity].
Qed.

Lemma overfill_merge (totalLines : nat) (lines : list jsstring) :
  0 < totalLines -> totalLines < length lines ->
  overfill totalLines lines
  = firstn (totalLines - 1) lines ++ [join [SPACE] (skipn (totalLines - 1) lines)].
Proof.
  intros Hpos Hlt. unfold overfill, splice_from, array_set.
  destruct (Nat.ltb_spec totalLines (length lines)) as [_ | Hge]; [| lia].
  destruct (Z.ltb_spec (Z.of_nat totalLines - 1) 0) as [Hneg | _]; [lia |].
  rewrite Z.min_l by lia.
  replace (Z.to_nat (Z.of_nat totalLines - 1)) with (totalLines - 1) by lia.
  rewrite length_firstn.
  destruct (Nat.ltb_spec (totalLines - 1) (Nat.min (totalLines - 1) (length lines)))
    as [Hcontra | _]; [lia |].
  replace (totalLines - 1 - Nat.min (totalLines - 1) (length lines)) with 0 by lia.
  reflexivity.
Qed.

(** The write [translatedLines[totalLines - 1] = ...] lands right after
    the kept lines, or (for no slot at all) on the property [-1]. *)
Lemma overfill_write_position (totalLines : nat) (lines : list jsstring) :
  totalLines < length lines ->
  (Z.of_nat totalLines - 1 < 0)%Z \/
  Z.to_nat (Z.of_nat totalLines - 1)
  = length (fst (splice_from lines (Z.of_nat totalLines - 1))).
Proof.
  intros Hlt. destruct totalLines as [| n]; [left; lia | right].
  unfold splice_from.
  destruct (Z.ltb_spec (Z.of_nat (S n) - 1) 0) as [Hneg | _]; [lia |].
  cbn [fst]. rewrite length_firstn. lia.
Qed.

Lemma overfill_no_slot (lines : list jsstring) :
  overfill 0 lines = firstn (length lines - 1) lines.
Proof.
  unfold overfill, splice_from, array_set.
  destruct (Nat.ltb_spec 0 (length lines)) as [Hpos | Hnone].
  - cbn [Z.of_nat Z.sub Z.add Z.opp Z.ltb Z.compare].
    replace (Z.to_nat (Z.max (Z.of_nat (length lines) + -1) 0))
      with (length lines - 1) by lia.
    reflexivity.
  - destruct lines; [reflexivity | simpl in Hnone; lia].
Qed.

Lemma overfill_fills (totalLines : nat) (lines : list jsstring) :
  totalLines <= length lines -> totalLines <= length (overfill totalLines lines).
Proof.
  intros Hle.
  destruct (Nat.eq_dec totalLines (length lines)) as [Heq | Hneq].
  - rewrite overfill_exact by lia. lia.
  - destruct totalLines as [| n]; [lia |].
    rewrite overfill_merge by lia.
    rewrite length_app, length_firstn. simpl. lia.
Qed.

(** C8 (amended). For every group whose cues each have at least one text
    line and every translated text that has at least one non-blank line:
    if the refill walk runs out of translated lines, so that some slot
    takes the empty-string fallback, then the under-fill loop ended in its
    [break], on a first longest line of exactly one word. *)
Theorem exhaustion_follows_failed_split
        (group : VTTGroup) (translatedText : jsstring) :
  (forall cue, In cue (cues group) -> textLines cue <> []) ->
  initial_lines translatedText <> [] ->
  exists run,
    redistribute_run group translatedText = Ok run /\
    (0 < run_fallbacks run ->
     uf_exit (run_underfill run) = Break /\
     exists i,
       is_first_longest (uf_lines (run_underfill run)) i /\
       length (words_of (nth i (uf_lines (run_underfill run)) [])) = 1).
Proof.
  intros _ Hlines.
  destruct (redistribute_returns group translatedText)
    as (run & Hrun & _ & _ & Hover & Hfb & Hres).
  exists run. split; [exact Hrun |]. intros Hshort.
  destruct Hres as (_ & _ & Hlen & _ & _ & Hguardexit & Hbreak).
  destruct (uf_exit (run_underfill run)) eqn:Hexit.
  - exfalso. destruct (Hguardexit eq_refl) as [Hfull | Hempty].
    + pose proof (overfill_fills _ _ Hfull) as Hfills.
      rewrite <- Hover in Hfills. lia.
    + rewrite Hempty in Hlen. simpl in Hlen.
      destruct (initial_lines translatedText); [congruence | simpl in Hlen; lia].
  - split; [reflexivity |]. apply Hbreak. reflexivity.
Qed.

Lemma exhaustion_follows_failed_split_witness :
  exists run,
    redistribute_run group_three_slots (lit "Hi") = Ok run /\
    (0 < run_fallbacks run ->
     uf_exit (run_underfill run) = Break /\
     exists i,
       is_first_longest (uf_lines (run_underfill run)) i /\
       length (words_of (nth i (uf_lines (run_underfill run)) [])) = 1).
Proof.
  apply (exhaustion_follows_failed_split group_three_slots (lit "Hi")).
  - intros cue Hin. simpl in Hin.
    destruct Hin as [<- | [<- | []]]; discriminate.
  - vm_compute. discriminate.
Defined.

(** With an empty translated text the refill walk runs out at once, and
    the under-fill loop never reached its [break]: its guard
    [translatedLines.length > 0] was false from the start. *)
Lemma exhaustion_without_split_counterexample :
  (forall cue, In cue (cues group_one_slot) -> textLines cue <> []) /\
  exists run,
    redistribute_run group_one_slot [] = Ok run /\
    run_fallbacks run = 1 /\
    uf_exit (run_underfill run) = GuardFalse /\
    uf_splits (run_underfill run) = 0.
Proof.
  split.
  - intros cue Hin. simpl in Hin. destruct Hin as [<- | []]. discriminate.
  - eexists. split; [vm_compute; reflexivity |]. repeat split.
Qed.

(** ** Facts about [trim] *)

Lemma trimStart_head_ok (s : jsstring) : head_ok (trimStart s).
Proof.
  induction s as [| c s IH]; simpl; [exact I |].
  destruct (is_ws c) eqn:E; [exact IH | exact E].
Qed.

Lemma trimStart_id (s : jsstring) : head_ok s -> trimStart s = s.
Proof.
  destruct s as [| c s]; simpl; [reflexivity |]. intros ->. reflexivity.
Qed.

Lemma trimStart_ws_app (w s : jsstring) :
  all_ws w -> trimStart (w ++ s) = trimStart s.
Proof.
  unfold all_ws. induction w as [| c w IH]; simpl; [reflexivity |].
  intros H. apply andb_prop in H. destruct H as [-> H]. apply IH, H.
Qed.

Lemma trimStart_all_ws (w : jsstring) : all_ws w -> trimStart w = [].
Proof.
  intros H. rewrite <- (app_nil_r w). rewrite trimStart_ws_app by exact H.
  reflexivity.
Qed.

Lemma trimStart_decomp (s : jsstring) :
  exists w, all_ws w /\ s = w ++ trimStart s.
Proof.
  unfold all_ws. induction s as [| c s IH]; simpl.
  - exists []. split; reflexivity.
  - destruct (is_ws c) eqn:E.
    + destruct IH as (w & Hw & Hs). exists (c :: w). simpl.
      rewrite E, Hw. split; [reflexivity |]. f_equal. exact Hs.
    + exists []. split; reflexivity.
Qed.

Lemma trimStart_nil (s : jsstring) : trimStart s = [] -> all_ws s.
Proof.
  intros H. destruct (trimStart_decomp s) as (w & Hw & Hs).
  rewrite H, app_nil_r in Hs. subst s. exact Hw.
Qed.

Lemma all_ws_rev (w : jsstring) : all_ws w -> all_ws (rev w).
Proof.
  unfold all_ws. rewrite !forallb_forall. intros H c Hc.
  apply H. apply in_rev. exact Hc.
Qed.

Lemma trimEnd_last_ok (s : jsstring) : last_ok (trimEnd s).
Proof.
  unfold last_ok, trimEnd. rewrite rev_involutive. apply trimStart_head_ok.
Qed.

Lemma trimEnd_id (s : jsstring) : last_ok s -> trimEnd s = s.
Proof.
  unfold last_ok, trimEnd. intros H. rewrite trimStart_id by exact H.
  apply rev_involutive.
Qed.

Lemma trimEnd_app_ws (s w : jsstring) :
  all_ws w -> trimEnd (s ++ w) = trimEnd s.
Proof.
  intros H. unfold trimEnd. rewrite rev_app_distr.
  rewrite trimStart_ws_app by (apply all_ws_rev; exact H). reflexivity.
Qed.

Lemma trimEnd_decomp (s : jsstring) :
  exists w, all_ws w /\ s = trimEnd s ++ w.
Proof.
  unfold trimEnd. destruct (trimStart_decomp (rev s)) as (w & Hw & Hs).
  exists (rev w). split; [apply all_ws_rev; exact Hw |].
  rewrite <- rev_app_distr, <- Hs, rev_involutive. reflexivity.
Qed.

Lemma trimEnd_head_ok (s : jsstring) : head_ok s -> head_ok (trimEnd s).
Proof.
  intros H. destruct (trimEnd_decomp s) as (w & _ & Hs).
  destruct (trimEnd s) as [| c t]; [exact I |].
  rewrite Hs in H. exact H.
Qed.

Lemma trim_head_ok (s : jsstring) : head_ok (trim s).
Proof. apply trimEnd_head_ok, trimStart_head_ok. Qed.

Lemma trim_last_ok (s : jsstring) : last_ok (trim s).
Proof. apply trimEnd_last_ok. Qed.

Lemma trimmed_iff (s : jsstring) : trimmed s <-> head_ok s /\ last_ok s.
Proof.
  unfold trimmed. split.
  - intros H. rewrite <- H. split; [apply trim_head_ok | apply trim_last_ok].
  - intros [Hh Hl]. unfold trim. rewrite trimStart_id by exact Hh.
    apply trimEnd_id, Hl.
Qed.

Lemma trim_trimmed (s : jsstring) : trimmed (trim s).
Proof.
  apply trimmed_iff. split; [apply trim_head_ok | apply trim_last_ok].
Qed.

(** [trim] strips exactly the white space around a trimmed core. *)
Lemma trim_around (w1 t w2 : jsstring) :
  all_ws w1 -> all_ws w2 -> trimmed t -> trim (w1 ++ t ++ w2) = t.
Proof.
  intros H1 H2 Ht. apply trimmed_iff in Ht. destruct Ht as [Hh Hl].
  unfold trim. rewrite trimStart_ws_app by exact H1.
  destruct t as [| c t].
  - simpl. rewrite trimStart_all_ws by exact H2. reflexivity.
  - rewrite trimStart_id by exact Hh.
    rewrite trimEnd_app_ws by exact H2. apply trimEnd_id, Hl.
Qed.

Lemma trim_decomp (s : jsstring) :
  exists w1 w2, all_ws w1 /\ all_ws w2 /\ s = w1 ++ trim s ++ w2.
Proof.
  destruct (trimStart_decomp s) as (w1 & H1 & Hs1).
  destruct (trimEnd_decomp (trimStart s)) as (w2 & H2 & Hs2).
  exists w1, w2. split; [exact H1 |]. split; [exact H2 |].
  unfold trim. rewrite <- Hs2. exact Hs1.
Qed.

Lemma trim_starts_visible (c : char) (s : jsstring) :
  is_ws c = false -> trim (c :: s) <> [].
Proof.
  intros Hc Hnil. unfold trim in Hnil. cbn [trimStart] in Hnil.
  rewrite Hc in Hnil. unfold trimEnd in Hnil.
  apply (f_equal (@rev _)) in Hnil. rewrite rev_involutive in Hnil.
  cbn [rev] in Hnil. apply trimStart_nil in Hnil.
  unfold all_ws in Hnil. rewrite forallb_app in Hnil.
  apply andb_prop in Hnil. destruct Hnil as [_ Hnil].
  simpl in Hnil. rewrite Hc in Hnil. discriminate.
Qed.

Lemma visible_trimmed (line : jsstring) :
  trimmed line -> line <> [] -> visible line = true.
Proof.
  unfold visible, trimmed. intros -> Hne.
  destruct line; [congruence | reflexivity].
Qed.

Lemma visible_starts (c : char) (s : jsstring) :
  is_ws c = false -> visible (c :: s) = true.
Proof.
  intros Hc. unfold visible. pose proof (trim_starts_visible c s Hc) as H.
  destruct (trim (c :: s)); [congruence | reflexivity].
Qed.

(** The lines [redistributeTranslation] starts from are trimmed and not
    empty. *)
Lemma initial_lines_trimmed (translatedText : jsstring) :
  Forall (fun line => trimmed line /\ line <> []) (initial_lines translatedText).
Proof.
  unfold initial_lines. apply Forall_forall. intros line Hin.
  apply filter_In in Hin. destruct Hin as [Hin Hlen].
  apply in_map_iff in Hin. destruct Hin as (raw & <- & _).
  split; [apply trim_trimmed |].
  destruct (trim raw); [discriminate | discriminate].
Qed.

(** ** The over-fill and under-fill rules *)

Lemma skipn_cons_nth {A : Type} (d : A) (l : list A) :
  forall k, k < length l -> skipn k l = nth k l d :: skipn (S k) l.
Proof.
  induction l as [| x l IH]; intros k Hk; [simpl in Hk; lia |].
  destruct k as [| k]; [reflexivity |].
  simpl in Hk. cbn [skipn nth]. apply IH. lia.
Qed.

Lemma slots_from_firstn (lines : list jsstring) :
  forall offset n,
    offset + n <= length lines ->
    slots_from lines offset n = firstn n (skipn offset lines).
Proof.
  unfold slots_from. intros offset n. revert offset.
  induction n as [| n IH]; intros offset Hle; [reflexivity |].
  cbn [seq List.map]. rewrite IH by lia.
  rewrite (@skipn_cons_nth jsstring [] lines offset) by lia. reflexivity.
Qed.

Lemma filter_all {A : Type} (f : A -> bool) (l : list A) :
  Forall (fun x => f x = true) l -> filter f l = l.
Proof.
  induction 1 as [| x l Hx _ IH]; simpl; [reflexivity |].
  rewrite Hx, IH. reflexivity.
Qed.

Lemma Forall_firstn {A : Type} (P : A -> Prop) (n : nat) (l : list A) :
  Forall P l -> Forall P (firstn n l).
Proof.
  intros H. rewrite Forall_forall in *. intros x Hx. apply H.
  rewrite <- (firstn_skipn n l). apply in_or_app. left. exact Hx.
Qed.

Lemma Forall_skipn {A : Type} (P : A -> Prop) (n : nat) (l : list A) :
  Forall P l -> Forall P (skipn n l).
Proof.
  intros H. rewrite Forall_forall in *. intros x Hx. apply H.
  rewrite <- (firstn_skipn n l). apply in_or_app. right. exact Hx.
Qed.

(** When every line is visible and there are lines for all slots, every
    cue gets as many lines as it had. *)
Lemma dealt_cues_counts (cs : list VTTCue) (lines : list jsstring) :
  Forall (fun line => visible line = true) lines ->
  forall offset,
    offset + slot_count cs <= length lines ->
    line_counts (dealt_cues cs lines offset) = line_counts cs.
Proof.
  intros Hvis. unfold line_counts.
  induction cs as [| cue rest IH]; intros offset Hle; [reflexivity |].
  change (slot_count (cue :: rest))
    with (length (textLines cue) + slot_count rest) in Hle.
  cbn [dealt_cues List.map textLines with_textLines].
  rewrite IH by lia. f_equal.
  rewrite slots_from_firstn by lia.
  rewrite filter_all by (apply Forall_firstn, Forall_skipn, Hvis).
  rewrite length_firstn, length_skipn. lia.
Qed.

Lemma initial_lines_visible (translatedText : jsstring) :
  Forall (fun line => visible line = true) (initial_lines translatedText).
Proof.
  eapply Forall_impl; [| apply initial_lines_trimmed].
  intros line [Ht Hne]. apply visible_trimmed; assumption.
Qed.

Lemma join_starts (sep x : jsstring) (rest : list jsstring) (c : char) (x' : jsstring) :
  x = c :: x' -> exists s, join sep (x :: rest) = c :: s.
Proof.
  intros ->. destruct rest as [| y rest]; simpl; eexists; reflexivity.
Qed.

Lemma overfill_visible (totalLines : nat) (translatedText : jsstring) :
  Forall (fun line => visible line = true)
         (overfill totalLines (initial_lines translatedText)).
Proof.
  pose proof (initial_lines_visible translatedText) as Hvis.
  pose proof (initial_lines_trimmed translatedText) as Htrim.
  set (lines := initial_lines translatedText) in *.
  destruct (Nat.le_gt_cases (length lines) totalLines) as [Hle | Hgt].
  - rewrite overfill_exact by exact Hle. exact Hvis.
  - destruct totalLines as [| n].
    + rewrite overfill_no_slot. apply Forall_firstn, Hvis.
    + rewrite overfill_merge by lia. apply Forall_app. split.
      * apply Forall_firstn, Hvis.
      * constructor; [| constructor].
        pose proof (Forall_skipn _ (S n - 1) _ Htrim) as Hrest.
        destruct (skipn (S n - 1) lines) as [| x rest] eqn:Hskip.
        { apply (f_equal (@length _)) in Hskip.
          rewrite length_skipn in Hskip. simpl in Hskip. lia. }
        inversion Hrest as [| ? ? [Hx Hne] _]; subst.
        destruct x as [| c x']; [congruence |].
        apply trimmed_iff in Hx. destruct Hx as [Hhead _].
        destruct (join_starts [SPACE] (c :: x') rest c x' eq_refl) as (s & ->).
        apply visible_starts. exact Hhead.
Qed.

Lemma underfill_wf_filled (totalLines : nat) (lines : list jsstring) :
  totalLines <= length lines -> underfill_wf totalLines lines = lines.
Proof.
  intros H. rewrite underfill_wf_step.
  destruct (Nat.ltb_spec (length lines) totalLines); [lia | reflexivity].
Qed.

(** The lines a run works on, and the lines it hands out. *)
Lemma redistribute_lines (group : VTTGroup) (translatedText : jsstring) :
  exists run,
    redistribute_run group translatedText = Ok run /\
    redistributeTranslation group translatedText = Ok (run_cues run) /\
    run_lines run
    = overfill (totalLines_of group)
               (underfill_wf (totalLines_of group) (initial_lines translatedText)) /\
    run_cues run = dealt_cues (cues group) (run_lines run) 0 /\
    concat (List.map textLines (run_cues run))
    = filter visible (slots_from (run_lines run) 0 (totalLines_of group)).
Proof.
  destruct (redistribute_returns group translatedText)
    as (run & Hrun & Hout & Hcues & Hover & _ & Hres).
  exists run. split; [exact Hrun |]. split; [exact Hout |].
  destruct Hres as (Hwf & _). rewrite <- Hwf.
  split; [exact Hover |]. split; [exact Hcues |].
  rewrite Hcues, dealt_cues_lines, totalLines_of_slot_count. reflexivity.
Qed.

(** C3. When the translated lines outnumber the slots of the group,
    [redistributeTranslation] gives every cue as many lines as it had; the
    slots hold the first [slotCount - 1] translated lines unchanged, and
    the last slot holds all remaining lines (the [slotCount]-th included)
    joined with single spaces.  For [slotCount = 2] and the text
    "A\nB\nC" the lines are "A" and "B C". *)
Theorem overfill_rule (group : VTTGroup) :
  (forall translatedText,
      totalLines_of group < length (initial_lines translatedText) ->
      exists out,
        redistributeTranslation group translatedText = Ok out /\
        line_counts out = line_counts (cues group) /\
        length (concat (List.map textLines out)) = totalLines_of group /\
        (0 < totalLines_of group ->
         concat (List.map textLines out)
         = firstn (totalLines_of group - 1) (initial_lines translatedText)
           ++ [join [SPACE]
                    (skipn (totalLines_of group - 1) (initial_lines translatedText))]))
  /\ (totalLines_of group = 2 ->
      exists out,
        redistributeTranslation group text_A_B_C = Ok out /\
        concat (List.map textLines out) = [lit "A"; lit "B C"]).
Proof.
  assert (Hgeneral : forall translatedText,
             totalLines_of group < length (initial_lines translatedText) ->
             exists out,
               redistributeTranslation group translatedText = Ok out /\
               line_counts out = line_counts (cues group) /\
               length (concat (List.map textLines out)) = totalLines_of group /\
               (0 < totalLines_of group ->
                concat (List.map textLines out)
                = firstn (totalLines_of group - 1) (initial_lines translatedText)
                  ++ [join [SPACE]
                           (skipn (totalLines_of group - 1)
                                  (initial_lines translatedText))])).
  { intros translatedText Hover.
    destruct (redistribute_lines group translatedText)
      as (run & _ & Hout & Hlines & Hcues & Hcat).
    exists (run_cues run). split; [exact Hout |].
    rewrite underfill_wf_filled in Hlines by lia.
    pose proof (overfill_visible (totalLines_of group) translatedText) as Hvis.
    pose proof (overfill_fills (totalLines_of group) (initial_lines translatedText))
      as Hfills.
    rewrite <- Hlines in Hvis, Hfills. specialize (Hfills ltac:(lia)).
    assert (Hslots : concat (List.map textLines (run_cues run))
                     = firstn (totalLines_of group) (run_lines run)).
    { rewrite Hcat, slots_from_firstn by (simpl; exact Hfills).
      cbn [skipn]. apply filter_all, Forall_firstn, Hvis. }
    split.
    { rewrite Hcues. apply dealt_cues_counts; [exact Hvis |].
      rewrite <- totalLines_of_slot_count. simpl. exact Hfills. }
    split.
    { rewrite Hslots, length_firstn. lia. }
    intros Hpos. rewrite Hslots, Hlines, overfill_merge by lia.
    apply firstn_all2. rewrite length_app, length_firstn. simpl. lia. }
  split; [exact Hgeneral |].
  intros Htwo.
  destruct (Hgeneral text_A_B_C) as (out & Hout & _ & _ & Hcat).
  { rewrite Htwo. vm_compute. lia. }
  exists out. split; [exact Hout |].
  rewrite Hcat by lia. rewrite Htwo. vm_compute. reflexivity.
Qed.

Lemma overfill_rule_witness :
  exists out,
    redistributeTranslation group_two_slots text_A_B_C = Ok out /\
    concat (List.map textLines out) = [lit "A"; lit "B C"].
Proof.
  apply (proj2 (overfill_rule group_two_slots)). reflexivity.
Defined.

(** The under-fill rule has one outcome. *)
Lemma underfills_deterministic (slotCount : nat) (lines r1 r2 : list jsstring) :
  underfills slotCount lines r1 -> underfills slotCount lines r2 -> r1 = r2.
Proof.
  intros H1. revert r2.
  induction H1 as [lines Hfull | lines i Hlen Hi Hone
                   | lines i final Hlen Hi Hmany _ IH];
    intros r2 H2.
  - inversion H2 as [| ? j Hlen' | ? j ? Hlen']; subst; try reflexivity;
      exfalso; destruct Hfull as [Hfull | ->]; simpl in *; lia.
  - inversion H2 as [? Hfull | | ? j ? Hlen' Hj Hmany]; subst; try reflexivity.
    rewrite (is_first_longest_unique _ _ _ Hi Hj) in Hone. lia.
  - inversion H2 as [? Hfull | ? j Hlen' Hj Hone | ? j ? Hlen' Hj Hmany' Hrest];
      subst.
    + exfalso. destruct Hfull as [Hfull | ->]; simpl in *; lia.
    + rewrite (is_first_longest_unique _ _ _ Hi Hj) in Hmany. lia.
    + apply IH. rewrite (is_first_longest_unique _ _ _ Hi Hj). exact Hrest.
Qed.

(** C2. [redistributeTranslation] runs the under-fill rule on the
    non-empty trimmed lines of the translated text: while there are
    lines, fewer than the slots of the group, the first longest line, if
    it has two words or more, is replaced in place by its first
    [ceil(wordCount/2)] words and its remaining words, each joined with
    single spaces; a first longest line of one word ends the rule, and the
    call still returns.  The lines so obtained are the ones handed out when
    they do not outnumber the slots.  For [slotCount = 2] and the text
    "one two three four" the lines are "one two" and "three four". *)
Theorem underfill_rule (group : VTTGroup) :
  (forall translatedText,
      exists run,
        redistribute_run group translatedText = Ok run /\
        redistributeTranslation group translatedText = Ok (run_cues run) /\
        underfills (totalLines_of group) (initial_lines translatedText)
                   (uf_lines (run_underfill run)) /\
        (length (initial_lines translatedText) <= totalLines_of group ->
         run_lines run = uf_lines (run_underfill run)))
  /\ (totalLines_of group = 2 ->
      exists run,
        redistribute_run group text_one_two_three_four = Ok run /\
        redistributeTranslation group text_one_two_three_four = Ok (run_cues run) /\
        run_lines run = [lit "one two"; lit "three four"] /\
        concat (List.map textLines (run_cues run))
        = [lit "one two"; lit "three four"]).
Proof.
  split.
  - intros translatedText.
    destruct (redistribute_returns group translatedText)
      as (run & Hrun & Hout & _ & Hover & _ & Hres).
    exists run. split; [exact Hrun |]. split; [exact Hout |].
    destruct Hres as (_ & Hrel & Hlen & _ & Hbound & _).
    split; [exact Hrel |].
    intros Hle. rewrite Hover. apply overfill_exact. lia.
  - intros Htwo.
    destruct (redistribute_lines group text_one_two_three_four)
      as (run & Hrun & Hout & Hlines & _ & Hcat).
    exists run. split; [exact Hrun |]. split; [exact Hout |].
    rewrite Htwo in Hlines, Hcat.
    assert (Hl : run_lines run = [lit "one two"; lit "three four"]).
    { rewrite Hlines. vm_compute. reflexivity. }
    split; [exact Hl |]. rewrite Hcat, Hl. vm_compute. reflexivity.
Qed.

Lemma underfill_rule_witness :
  exists run,
    redistribute_run group_two_slots text_one_two_three_four = Ok run /\
    redistributeTranslation group_two_slots text_one_two_three_four
    = Ok (run_cues run) /\
    run_lines run = [lit "one two"; lit "three four"] /\
    concat (List.map textLines (run_cues run))
    = [lit "one two"; lit "three four"].
Proof.
  apply (proj2 (underfill_rule group_two_slots)). reflexivity.
Defined.

(** ** Facts about [search] and [split] *)

Lemma strip_prefix_sound (p : jsstring) :
  forall s rest, strip_prefix p s = Some rest -> s = p ++ rest.
Proof.
  induction p as [| a p IH]; intros s rest H; simpl in H.
  - inversion H. reflexivity.
  - destruct s as [| b s]; [discriminate |].
    destruct (N.eqb_spec a b) as [-> | _]; [| discriminate].
    simpl. f_equal. apply IH, H.
Qed.

Lemma strip_prefix_app (p rest : jsstring) : strip_prefix p (p ++ rest) = Some rest.
Proof.
  induction p as [| a p IH]; simpl; [reflexivity |].
  rewrite N.eqb_refl. exact IH.
Qed.

Lemma strip_prefix_longer (p : jsstring) :
  forall s rest more,
    strip_prefix p s = Some rest -> strip_prefix p (s ++ more) = Some (rest ++ more).
Proof.
  intros s rest more H. apply strip_prefix_sound in H. subst s.
  rewrite <- app_assoc. apply strip_prefix_app.
Qed.

Lemma strip_prefix_consuming {p : jsstring} : p <> [] -> consuming (strip_prefix p).
Proof.
  intros Hp s rest H. apply strip_prefix_sound in H. subst s.
  rewrite length_app. destruct p; [congruence | simpl; lia].
Qed.

Lemma line_break_consuming : consuming line_break.
Proof.
  intros s rest H. unfold line_break in H.
  destruct s as [| c s]; [discriminate |].
  destruct (c =? NEWLINE)%N.
  - inversion H; subst. simpl. lia.
  - destruct (c =? CR)%N; [| discriminate].
    destruct s as [| d s]; [discriminate |].
    destruct (d =? NEWLINE)%N; [| discriminate].
    inversion H; subst. simpl. lia.
Qed.

Lemma search_shorter {m : matcher} :
  consuming m ->
  forall s before after, search m s = Some (before, after) -> length after < length s.
Proof.
  intros Hm. induction s as [| c s IH]; intros before after H; simpl in H.
  - destruct (m []) as [rest |] eqn:E; [| discriminate].
    apply Hm in E. simpl in E. lia.
  - destruct (m (c :: s)) as [rest |] eqn:E.
    + inversion H; subst. apply Hm in E. exact E.
    + destruct (search m s) as [[b a] |] eqn:Es; [| discriminate].
      inversion H; subst. specialize (IH _ _ eq_refl). simpl. lia.
Qed.

Lemma search_nil (m : matcher) : consuming m -> search m [] = None.
Proof.
  intros Hm. simpl. destruct (m []) as [rest |] eqn:E; [| reflexivity].
  apply Hm in E. simpl in E. lia.
Qed.

Lemma split_fuel_enough (m : matcher) :
  consuming m ->
  forall n k s, length s <= n -> length s <= k -> split_fuel n m s = split_fuel k m s.
Proof.
  intros Hm. induction n as [| n IH]; intros k s Hn Hk.
  - destruct s; [| simpl in Hn; lia].
    destruct k; [reflexivity |]. cbn [split_fuel].
    rewrite search_nil by exact Hm. reflexivity.
  - destruct k as [| k].
    + destruct s; [| simpl in Hk; lia]. cbn [split_fuel].
      rewrite search_nil by exact Hm. reflexivity.
    + cbn [split_fuel].
      destruct (search m s) as [[b a] |] eqn:E; [| reflexivity].
      apply (search_shorter Hm) in E. f_equal. apply IH; lia.
Qed.

(** [split] cuts at the leftmost match and goes on after it. *)
Lemma split_with_unfold (m : matcher) (s : jsstring) :
  consuming m ->
  split_with m s
  = match search m s with
    | Some (before, after) => before :: split_with m after
    | None => [s]
    end.
Proof.
  intros Hm. unfold split_with.
  destruct s as [| c s].
  - cbn [length split_fuel]. rewrite search_nil by exact Hm. reflexivity.
  - cbn [length split_fuel].
    destruct (search m (c :: s)) as [[b a] |] eqn:E; [| reflexivity].
    apply (search_shorter Hm) in E. simpl in E.
    f_equal. apply split_fuel_enough; [exact Hm | lia | lia].
Qed.

Lemma search_sound (p : jsstring) :
  forall s before after,
    search (strip_prefix p) s = Some (before, after) -> s = before ++ p ++ after.
Proof.
  induction s as [| c s IH]; intros before after H; simpl in H.
  - destruct (strip_prefix p []) as [rest |] eqn:E; [| discriminate].
    inversion H; subst. apply strip_prefix_sound in E. exact E.
  - destruct (strip_prefix p (c :: s)) as [rest |] eqn:E.
    + inversion H; subst. apply strip_prefix_sound in E. exact E.
    + destruct (search (strip_prefix p) s) as [[b a] |] eqn:Es; [| discriminate].
      inversion H; subst. simpl. f_equal. apply IH. reflexivity.
Qed.

Lemma search_none_suffix (m : matcher) (x y : jsstring) :
  search m (x ++ y) = None -> search m y = None.
Proof.
  induction x as [| c x IH]; [trivial |].
  cbn [app search]. destruct (m (c :: x ++ y)); [discriminate |].
  destruct (search m (x ++ y)) as [[b a] |]; [discriminate |].
  intros _. apply IH. reflexivity.
Qed.

Lemma search_none_prefix (p : jsstring) (y z : jsstring) :
  p <> [] ->
  search (strip_prefix p) (y ++ z) = None -> search (strip_prefix p) y = None.
Proof.
  intros Hp. induction y as [| c y IH]; intros H.
  - apply search_nil, strip_prefix_consuming, Hp.
  - cbn [app search] in *.
    destruct (strip_prefix p (c :: y ++ z)) as [r |] eqn:E; [discriminate |].
    destruct (search (strip_prefix p) (y ++ z)) as [[b a] |] eqn:Es; [discriminate |].
    rewrite (IH eq_refl).
    destruct (strip_prefix p (c :: y)) as [r |] eqn:E'; [| reflexivity].
    apply (strip_prefix_longer p _ _ z) in E'. cbn [app] in E'. congruence.
Qed.

Lemma search_before_none {p : jsstring} :
  p <> [] ->
  forall s before after,
    search (strip_prefix p) s = Some (before, after) ->
    search (strip_prefix p) before = None.
Proof.
  intros Hp. induction s as [| c s IH]; intros before after H.
  - rewrite search_nil in H by (apply strip_prefix_consuming, Hp). discriminate.
  - cbn [search] in H.
    destruct (strip_prefix p (c :: s)) as [r |] eqn:E.
    + inversion H; subst. apply search_nil, strip_prefix_consuming, Hp.
    + destruct (search (strip_prefix p) s) as [[b a] |] eqn:Es; [| discriminate].
      inversion H; subst. cbn [search].
      rewrite (IH _ _ eq_refl).
      destruct (strip_prefix p (c :: b)) as [r |] eqn:E'; [| reflexivity].
      apply search_sound in Es. subst s.
      apply (strip_prefix_longer p _ _ (p ++ after)) in E'. cbn [app] in E'.
      congruence.
Qed.

(** Every piece of [split] is free of the separator and made of code
    units of the string. *)
Lemma split_pieces (p : jsstring) :
  p <> [] ->
  forall n s,
    length s <= n ->
    Forall (fun piece => search (strip_prefix p) piece = None
                         /\ forall x, In x piece -> In x s)
           (split_fuel n (strip_prefix p) s).
Proof.
  intros Hp. pose proof (strip_prefix_consuming Hp) as Hm.
  induction n as [| n IH]; intros s Hlen.
  - destruct s; [| simpl in Hlen; lia]. cbn [split_fuel].
    constructor; [| constructor]. split; [apply search_nil, Hm | trivial].
  - cbn [split_fuel].
    destruct (search (strip_prefix p) s) as [[b a] |] eqn:E.
    + pose proof (search_shorter Hm _ _ _ E) as Hshort.
      pose proof (search_before_none Hp _ _ _ E) as Hbefore.
      apply search_sound in E. subst s. constructor.
      * split; [exact Hbefore |].
        intros x Hx. apply in_or_app. left. exact Hx.
      * eapply Forall_impl; [| apply IH; lia].
        intros piece [Hnone Hin]. split; [exact Hnone |].
        intros x Hx. apply in_or_app. right. apply in_or_app. right.
        apply Hin, Hx.
    + constructor; [| constructor]. split; [exact E | trivial].
Qed.

Lemma split_free (p s : jsstring) :
  p <> [] ->
  Forall (fun piece => search (strip_prefix p) piece = None
                       /\ forall x, In x piece -> In x s)
         (split p s).
Proof.
  intros Hp. apply split_pieces; [exact Hp | lia].
Qed.

(** ** Splitting into lines *)

Lemma split_char_nil (c : char) : split [c] [] = [[]].
Proof. reflexivity. Qed.

Lemma search_cons (m : matcher) (c : char) (s : jsstring) :
  search m (c :: s)
  = match m (c :: s) with
    | Some rest => Some ([], rest)
    | None =>
        match search m s with
        | Some (before, after) => Some (c :: before, after)
        | None => None
        end
    end.
Proof. reflexivity. Qed.

Lemma strip_prefix_char (c x : char) (s : jsstring) :
  strip_prefix [c] (x :: s) = if (c =? x)%N then Some s else None.
Proof. reflexivity. Qed.

Lemma split_char_cons (c x : char) (s : jsstring) :
  split [c] (x :: s)
  = if (x =? c)%N then [] :: split [c] s else cons_head x (split [c] s).
Proof.
  assert (Hm : consuming (strip_prefix [c])) by (apply strip_prefix_consuming; discriminate).
  unfold split. rewrite (split_with_unfold _ (x :: s) Hm).
  rewrite search_cons, strip_prefix_char, (N.eqb_sym c x).
  destruct (x =? c)%N; [reflexivity |].
  rewrite (split_with_unfold _ s Hm).
  destruct (search (strip_prefix [c]) s) as [[b a] |]; reflexivity.
Qed.

Lemma split_char_nonempty (c : char) (s : jsstring) :
  exists piece more, split [c] s = piece :: more.
Proof.
  destruct s as [| x s]; [exists [], []; reflexivity |].
  rewrite split_char_cons. destruct (x =? c)%N.
  - eexists _, _. reflexivity.
  - destruct (split [c] s); eexists _, _; reflexivity.
Qed.

Lemma split_char_app (c : char) (a b : jsstring) :
  split [c] (a ++ c :: b) = split [c] a ++ split [c] b.
Proof.
  induction a as [| x a IH].
  - cbn [app]. rewrite split_char_cons, N.eqb_refl. reflexivity.
  - cbn [app]. rewrite !split_char_cons, IH.
    destruct (x =? c)%N; [reflexivity |].
    destruct (split_char_nonempty c a) as (piece & more & ->). reflexivity.
Qed.

Lemma split_char_free (c : char) (s : jsstring) :
  ~ In c s -> split [c] s = [s].
Proof.
  induction s as [| x s IH]; intros Hfree; [reflexivity |].
  rewrite split_char_cons.
  destruct (N.eqb_spec x c) as [-> | Hneq]; [exfalso; apply Hfree; left; reflexivity |].
  rewrite IH by (intros Hin; apply Hfree; right; exact Hin). reflexivity.
Qed.

Lemma split_char_pieces (c : char) (s : jsstring) :
  Forall (fun piece => ~ In c piece) (split [c] s).
Proof.
  induction s as [| x s IH]; [repeat constructor; intros [] |].
  rewrite split_char_cons.
  destruct (N.eqb_spec x c) as [-> | Hneq].
  - constructor; [intros [] | exact IH].
  - destruct (split [c] s) as [| piece more]; cbn [cons_head].
    + constructor; [| constructor]. intros [H | []]. congruence.
    + inversion IH; subst. constructor; [| assumption].
      intros [H | H]; [congruence | contradiction].
Qed.

Lemma split_join_lines (c : char) (lines : list jsstring) (rest : jsstring) :
  lines <> [] ->
  Forall (fun line => ~ In c line) lines ->
  split [c] (join [c] lines ++ c :: rest) = lines ++ split [c] rest.
Proof.
  induction lines as [| line lines IH]; intros Hne Hfree; [congruence |].
  inversion Hfree as [| ? ? Hline Hlines]; subst.
  destruct lines as [| next lines].
  - cbn [join]. rewrite split_char_app, split_char_free by exact Hline. reflexivity.
  - change (join [c] (line :: next :: lines))
      with (line ++ [c] ++ join [c] (next :: lines)).
    rewrite <- !app_assoc. cbn [app].
    rewrite split_char_app, split_char_free by exact Hline.
    rewrite IH by (discriminate || exact Hlines). reflexivity.
Qed.

(** ** The lines [parse] looks at *)

Lemma trim_app_ws (s w : jsstring) : all_ws w -> trim (s ++ w) = trim s.
Proof.
  intros Hw. destruct (trim_decomp s) as (w1 & w2 & H1 & H2 & Hs).
  rewrite Hs at 1. rewrite <- !app_assoc.
  apply trim_around; [exact H1 | | apply trim_trimmed].
  unfold all_ws in *. rewrite forallb_app, H2, Hw. reflexivity.
Qed.

Lemma trim_ws_app (w s : jsstring) : all_ws w -> trim (w ++ s) = trim s.
Proof.
  intros Hw. unfold trim. rewrite trimStart_ws_app by exact Hw. reflexivity.
Qed.

Lemma trim_all_ws (w : jsstring) : all_ws w -> trim w = [].
Proof.
  intros Hw. unfold trim. rewrite trimStart_all_ws by exact Hw. reflexivity.
Qed.

Lemma trim_idempotent (s : jsstring) : trim (trim s) = trim s.
Proof. apply trim_trimmed. Qed.

Lemma significant_cons (line : jsstring) (lines : list jsstring) :
  significant (line :: lines)
  = if length (trim line) =? 0 then significant lines
    else trim line :: significant lines.
Proof.
  unfold significant. cbn [List.map filter].
  destruct (length (trim line) =? 0); reflexivity.
Qed.

Lemma significant_blank (line : jsstring) (lines : list jsstring) :
  all_ws line -> significant (line :: lines) = significant lines.
Proof.
  intros H. rewrite significant_cons, trim_all_ws by exact H. reflexivity.
Qed.

Lemma significant_same_trim (l1 l2 : jsstring) (r1 r2 : list jsstring) :
  trim l1 = trim l2 -> significant r1 = significant r2 ->
  significant (l1 :: r1) = significant (l2 :: r2).
Proof.
  intros Ht Hr. rewrite !significant_cons, Ht, Hr. reflexivity.
Qed.

Lemma all_ws_cons (c : char) (w : jsstring) :
  all_ws (c :: w) <-> is_ws c = true /\ all_ws w.
Proof.
  unfold all_ws. cbn [forallb]. apply andb_true_iff.
Qed.

Lemma significant_leading_ws (w s : jsstring) :
  all_ws w ->
  significant (split [NEWLINE] (w ++ s)) = significant (split [NEWLINE] s).
Proof.
  induction w as [| c w IH]; intros Hw; [reflexivity |].
  apply all_ws_cons in Hw. destruct Hw as [Hc Hw].
  cbn [app]. rewrite split_char_cons. destruct (c =? NEWLINE)%N.
  - rewrite significant_blank by reflexivity. apply IH, Hw.
  - rewrite <- (IH Hw).
    destruct (split_char_nonempty NEWLINE (w ++ s)) as (piece & more & ->).
    cbn [cons_head]. apply significant_same_trim; [| reflexivity].
    apply (trim_ws_app [c] piece). apply all_ws_cons. split; [exact Hc | reflexivity].
Qed.

Lemma split_all_ws (w : jsstring) :
  all_ws w ->
  exists first more,
    split [NEWLINE] w = first :: more /\ all_ws first /\ significant more = [].
Proof.
  induction w as [| c w IH]; intros Hw.
  - exists [], []. repeat split.
  - apply all_ws_cons in Hw. destruct Hw as [Hc Hw].
    destruct (IH Hw) as (first & more & Hsplit & Hfirst & Hmore).
    rewrite split_char_cons, Hsplit. destruct (c =? NEWLINE)%N.
    + exists [], (first :: more). split; [reflexivity |]. split; [reflexivity |].
      rewrite significant_blank by exact Hfirst. exact Hmore.
    + exists (c :: first), more. split; [reflexivity |].
      split; [apply all_ws_cons; split; assumption | exact Hmore].
Qed.

Lemma split_trailing_ws (s w : jsstring) :
  all_ws w ->
  exists line extra more1 more2,
    split [NEWLINE] (s ++ w) = (line ++ extra) :: more1 /\
    split [NEWLINE] s = line :: more2 /\
    all_ws extra /\ significant more1 = significant more2.
Proof.
  intros Hw. induction s as [| x s IH].
  - destruct (split_all_ws w Hw) as (first & more & Hsplit & Hfirst & Hmore).
    exists [], first, more, []. cbn [app]. repeat split; assumption.
  - destruct IH as (line & extra & more1 & more2 & H1 & H2 & Hextra & Hsig).
    cbn [app]. rewrite !split_char_cons, H1, H2. destruct (x =? NEWLINE)%N.
    + exists [], [], ((line ++ extra) :: more1), (line :: more2).
      split; [reflexivity |]. split; [reflexivity |]. split; [reflexivity |].
      apply significant_same_trim; [apply trim_app_ws; exact Hextra | exact Hsig].
    + exists (x :: line), extra, more1, more2.
      repeat split; assumption.
Qed.

Lemma significant_trailing_ws (s w : jsstring) :
  all_ws w ->
  significant (split [NEWLINE] (s ++ w)) = significant (split [NEWLINE] s).
Proof.
  intros Hw.
  destruct (split_trailing_ws s w Hw)
    as (line & extra & more1 & more2 & -> & -> & Hextra & Hsig).
  apply significant_same_trim; [apply trim_app_ws; exact Hextra | exact Hsig].
Qed.

(** Trimming the whole text does not change the lines [parse] looks
    at. *)
Lemma significant_trim (s : jsstring) :
  significant (split [NEWLINE] (trim s)) = significant (split [NEWLINE] s).
Proof.
  destruct (trim_decomp s) as (w1 & w2 & H1 & H2 & Hs).
  rewrite Hs at 2.
  rewrite significant_leading_ws by exact H1.
  rewrite significant_trailing_ws by exact H2. reflexivity.
Qed.

Lemma parse_line_trim (st : ParseState) (raw : jsstring) :
  parse_line st (trim raw) = parse_line st raw.
Proof.
  unfold parse_line. rewrite trim_idempotent. reflexivity.
Qed.

Lemma parse_line_blank (st : ParseState) (raw : jsstring) :
  length (trim raw) = 0 -> parse_line st raw = st.
Proof.
  intros H. unfold parse_line. rewrite H. reflexivity.
Qed.

Lemma fold_parse_line_significant (lines : list jsstring) :
  forall st,
    fold_left parse_line lines st = fold_left parse_line (significant lines) st.
Proof.
  induction lines as [| raw lines IH]; intros st; [reflexivity |].
  rewrite significant_cons. cbn [fold_left].
  destruct (Nat.eqb_spec (length (trim raw)) 0) as [Hblank | Hline].
  - rewrite parse_line_blank by exact Hblank. apply IH.
  - cbn [fold_left]. rewrite parse_line_trim. apply IH.
Qed.

Lemma parse_lines_trim (s : jsstring) :
  parse_lines (split [NEWLINE] (trim s)) = parse_lines (split [NEWLINE] s).
Proof.
  unfold parse_lines.
  rewrite (fold_parse_line_significant (split [NEWLINE] (trim s))).
  rewrite significant_trim, <- fold_parse_line_significant. reflexivity.
Qed.

(** ** The timestamp line of a block, parsed again *)

Lemma head_ok_app (s x : jsstring) : s <> [] -> head_ok s -> head_ok (s ++ x).
Proof.
  destruct s as [| c s]; [congruence |]. intros _ H. exact H.
Qed.

Lemma last_ok_app (x e : jsstring) : e <> [] -> last_ok e -> last_ok (x ++ e).
Proof.
  unfold last_ok. intros Hne H. rewrite rev_app_distr.
  apply head_ok_app; [| exact H].
  intros Hnil. apply Hne. rewrite <- (rev_involutive e), Hnil. reflexivity.
Qed.

Lemma arrow_spaced : lit " --> " = SPACE :: ARROW ++ [SPACE].
Proof. reflexivity. Qed.

Lemma arrow_head_ok (x : jsstring) : head_ok (ARROW ++ x).
Proof. reflexivity. Qed.

Lemma arrow_last_ok (x : jsstring) : last_ok (x ++ ARROW).
Proof. apply last_ok_app; [discriminate | reflexivity]. Qed.

Lemma trim_around_eq (x w1 t w2 : jsstring) :
  x = w1 ++ t ++ w2 -> all_ws w1 -> all_ws w2 -> trimmed t -> trim x = t.
Proof.
  intros ->. apply trim_around.
Qed.

Lemma trim_timestamp_line (s e : jsstring) :
  trimmed s -> trimmed e ->
  trim (s ++ lit " --> " ++ e) = before_arrow s ++ ARROW ++ after_arrow e
  /\ trim (before_arrow s) = s /\ trim (after_arrow e) = e.
Proof.
  intros Hs He.
  pose proof (proj1 (trimmed_iff s) Hs) as [Hsh Hsl].
  pose proof (proj1 (trimmed_iff e) He) as [Heh Hel].
  rewrite arrow_spaced.
  split; [| split].
  - destruct s as [| c s']; destruct e as [| d e']; cbn [before_arrow after_arrow].
    + reflexivity.
    + apply (trim_around_eq _ [SPACE] (ARROW ++ SPACE :: d :: e') []);
        [app_norm | reflexivity | reflexivity |].
      apply trimmed_iff. split; [apply arrow_head_ok |].
      apply (last_ok_app (ARROW ++ [SPACE]) (d :: e')) in Hel; [| discriminate].
      rewrite <- app_assoc in Hel. exact Hel.
    + apply (trim_around_eq _ [] (((c :: s') ++ [SPACE]) ++ ARROW ++ []) [SPACE]);
        [app_norm | reflexivity | reflexivity |].
      apply trimmed_iff. split.
      * rewrite <- app_assoc. apply head_ok_app; [discriminate | exact Hsh].
      * rewrite app_nil_r. apply arrow_last_ok.
    + apply (trim_around_eq _ [] (((c :: s') ++ [SPACE]) ++ ARROW ++ SPACE :: d :: e') []);
        [app_norm | reflexivity | reflexivity |].
      apply trimmed_iff. split.
      * rewrite <- app_assoc. apply head_ok_app; [discriminate | exact Hsh].
      * apply (last_ok_app (((c :: s') ++ [SPACE]) ++ ARROW ++ [SPACE]) (d :: e')) in Hel;
          [| discriminate].
        rewrite <- !app_assoc in Hel. rewrite <- !app_assoc. exact Hel.
  - destruct s as [| c s']; [reflexivity |]. cbn [before_arrow].
    apply (trim_around_eq _ [] (c :: s') [SPACE]);
      [app_norm | reflexivity | reflexivity | exact Hs].
  - destruct e as [| d e']; [reflexivity |]. cbn [after_arrow].
    apply (trim_around_eq _ [SPACE] (d :: e') []);
      [app_norm | reflexivity | reflexivity | exact He].
Qed.

Lemma search_here (m : matcher) (s rest : jsstring) :
  m s = Some rest -> search m s = Some ([], rest).
Proof.
  intros H. destruct s; simpl; rewrite H; reflexivity.
Qed.

Lemma strip_prefix_none_sep (p : jsstring) (d : char) :
  ~ In d p ->
  forall x more,
    strip_prefix p x = None -> strip_prefix p (x ++ d :: more) = None.
Proof.
  induction p as [| a p IH]; intros Hd x more H; [discriminate |].
  destruct x as [| b x]; cbn [app strip_prefix] in *.
  - destruct (N.eqb_spec a d) as [-> | _]; [| reflexivity].
    exfalso. apply Hd. left. reflexivity.
  - destruct (a =? b)%N; [| reflexivity].
    apply IH; [| exact H]. intros Hin. apply Hd. right. exact Hin.
Qed.

Lemma arrow_has_no_space : ~ In SPACE ARROW.
Proof.
  intros H. simpl in H. intuition discriminate.
Qed.

(** A clean string followed by a space and an arrow: the arrow is the
    leftmost one. *)
Lemma search_arrow_after (x more : jsstring) :
  search (strip_prefix ARROW) x = None ->
  search (strip_prefix ARROW) (x ++ SPACE :: ARROW ++ more)
  = Some (x ++ [SPACE], more).
Proof.
  induction x as [| c x IH]; intros Hnone.
  - cbn [app]. rewrite search_cons.
    change (strip_prefix ARROW (SPACE :: ARROW ++ more)) with (@None jsstring).
    rewrite (search_here _ _ _ (strip_prefix_app ARROW more)). reflexivity.
  - rewrite search_cons in Hnone.
    destruct (strip_prefix ARROW (c :: x)) eqn:Hstrip; [discriminate |].
    destruct (search (strip_prefix ARROW) x) as [[b a] |] eqn:Hx; [discriminate |].
    pose proof (strip_prefix_none_sep ARROW SPACE arrow_has_no_space (c :: x)
                                      (ARROW ++ more) Hstrip) as Hlong.
    cbn [app] in Hlong |- *.
    rewrite search_cons, Hlong, (IH eq_refl). reflexivity.
Qed.

Lemma search_arrow_space (x : jsstring) :
  search (strip_prefix ARROW) x = None ->
  search (strip_prefix ARROW) (SPACE :: x) = None.
Proof.
  intros H. rewrite search_cons, H. reflexivity.
Qed.

Lemma search_before_arrow (s more : jsstring) :
  includes ARROW s = false ->
  search (strip_prefix ARROW) (before_arrow s ++ ARROW ++ more)
  = Some (before_arrow s, more).
Proof.
  unfold includes. intros H.
  destruct (search (strip_prefix ARROW) s) eqn:Hs; [discriminate |].
  destruct s as [| c s']; cbn [before_arrow].
  - cbn [app]. apply search_here. apply strip_prefix_app.
  - rewrite <- app_assoc. apply search_arrow_after. exact Hs.
Qed.

Lemma search_after_arrow (e : jsstring) :
  includes ARROW e = false -> search (strip_prefix ARROW) (after_arrow e) = None.
Proof.
  unfold includes. intros H.
  destruct (search (strip_prefix ARROW) e) eqn:He; [discriminate |].
  destruct e as [| d e']; cbn [after_arrow]; [reflexivity |].
  apply search_arrow_space. exact He.
Qed.

Lemma arrow_consuming : consuming (strip_prefix ARROW).
Proof. apply strip_prefix_consuming. discriminate. Qed.

Lemma split_timestamp_line (s e : jsstring) :
  includes ARROW s = false -> includes ARROW e = false ->
  split ARROW (before_arrow s ++ ARROW ++ after_arrow e)
  = [before_arrow s; after_arrow e]
  /\ includes ARROW (before_arrow s ++ ARROW ++ after_arrow e) = true.
Proof.
  intros Hs He. unfold split, includes.
  rewrite (split_with_unfold _ _ arrow_consuming).
  rewrite (search_before_arrow s _ Hs).
  rewrite (split_with_unfold _ _ arrow_consuming).
  rewrite (search_after_arrow e He). split; reflexivity.
Qed.

Lemma jsstring_eqb_eq (s t : jsstring) : Js.eqb s t = true -> s = t.
Proof.
  revert t. induction s as [| a s IH]; intros [| b t] H; try discriminate.
  - reflexivity.
  - simpl in H. apply andb_prop in H. destruct H as [Hab Hst].
    apply N.eqb_eq in Hab. subst. f_equal. apply IH, Hst.
Qed.

Lemma includes_app_arrow (x y : jsstring) : includes ARROW (x ++ ARROW ++ y) = true.
Proof.
  unfold includes.
  destruct (search (strip_prefix ARROW) (x ++ ARROW ++ y)) eqn:H; [reflexivity |].
  apply search_none_suffix in H.
  rewrite (search_here _ _ _ (strip_prefix_app ARROW y)) in H. discriminate.
Qed.

Lemma header_has_no_arrow : includes ARROW WEBVTT = false.
Proof. reflexivity. Qed.

(** A timestamp line of [reconstructVTT] opens the cue it was written
    from. *)
Lemma parse_timestamp_line (st : ParseState) (cue : VTTCue) :
  field_ok (startTime cue) -> field_ok (endTime cue) ->
  parse_line st (timestamp_line cue)
  = mkParse (ps_cues (save_previous st))
            (Some (mkOpen (startTime cue) (endTime cue) []))
            (ps_cueIndex (save_previous st)).
Proof.
  intros (Hst & Hsa & _) (Het & Hea & _).
  destruct (trim_timestamp_line _ _ Hst Het) as (Hline & Htb & Hta).
  destruct (split_timestamp_line _ _ Hsa Hea) as (Hsplit & Hincl).
  unfold parse_line, timestamp_line. rewrite Hline, Hincl, Hsplit.
  cbn [List.map nth]. rewrite Htb, Hta.
  assert (Hlen : (length (before_arrow (startTime cue) ++ ARROW
                          ++ after_arrow (endTime cue)) =? 0) = false).
  { rewrite !length_app. apply Nat.eqb_neq. simpl. lia. }
  assert (Hhead : Js.eqb (before_arrow (startTime cue) ++ ARROW
                          ++ after_arrow (endTime cue)) WEBVTT = false).
  { destruct (Js.eqb _ WEBVTT) eqn:E; [| reflexivity].
    apply jsstring_eqb_eq in E. pose proof header_has_no_arrow as Hheader.
    rewrite <- E, Hincl in Hheader. discriminate. }
  rewrite Hlen, Hhead. reflexivity.
Qed.

(** The destructuring in [parse] always finds its two parts. *)
Lemma split_includes_two (line : jsstring) :
  includes ARROW line = true -> 2 <= length (split ARROW line).
Proof.
  unfold includes, split. intros H.
  rewrite (split_with_unfold _ _ arrow_consuming).
  destruct (search (strip_prefix ARROW) line) as [[before after] |];
    [| discriminate].
  rewrite (split_with_unfold _ _ arrow_consuming).
  destruct (search (strip_prefix ARROW) after) as [[b a] |]; simpl; lia.
Qed.

(** ** What [parse] returns is well formed *)

Lemma trim_in (x : char) (s : jsstring) : In x (trim s) -> In x s.
Proof.
  intros H. destruct (trim_decomp s) as (w1 & w2 & _ & _ & Hs).
  rewrite Hs. apply in_or_app. right. apply in_or_app. left. exact H.
Qed.

Lemma search_none_trim (s : jsstring) :
  search (strip_prefix ARROW) s = None ->
  search (strip_prefix ARROW) (trim s) = None.
Proof.
  intros H. destruct (trim_decomp s) as (w1 & w2 & _ & _ & Hs).
  rewrite Hs in H. apply search_none_suffix in H.
  apply search_none_prefix in H; [exact H | discriminate].
Qed.

Lemma includes_none (s : jsstring) :
  includes ARROW s = false <-> search (strip_prefix ARROW) s = None.
Proof.
  unfold includes. destruct (search (strip_prefix ARROW) s); split; congruence.
Qed.

Lemma field_ok_nil : field_ok [].
Proof.
  split; [reflexivity |]. split; [reflexivity | intros []].
Qed.

Lemma field_ok_piece (line piece : jsstring) :
  ~ In NEWLINE line ->
  search (strip_prefix ARROW) piece = None ->
  (forall x, In x piece -> In x line) ->
  field_ok (trim piece).
Proof.
  intros Hline Hnone Hin. split; [apply trim_trimmed |]. split.
  - apply includes_none, search_none_trim, Hnone.
  - intros H. apply Hline, Hin, trim_in, H.
Qed.

Lemma timestamp_fields_ok (line : jsstring) (k : nat) :
  ~ In NEWLINE line ->
  field_ok (nth k (List.map trim (split ARROW line)) []).
Proof.
  intros Hline.
  assert (Hall : Forall field_ok (List.map trim (split ARROW line))).
  { apply Forall_map.
    eapply Forall_impl; [| apply (split_free ARROW line); discriminate].
    intros piece [Hnone Hin]. exact (field_ok_piece line piece Hline Hnone Hin). }
  destruct (nth_in_or_default k (List.map trim (split ARROW line)) []) as [Hin | ->].
  - rewrite Forall_forall in Hall. apply Hall, Hin.
  - apply field_ok_nil.
Qed.

Lemma save_previous_ok (st : ParseState) : state_ok st -> state_ok (save_previous st).
Proof.
  intros Hst. pose proof Hst as [Hcues Hcur]. unfold save_previous.
  destruct (ps_currentCue st) as [cur |] eqn:E; [| exact Hst].
  destruct (Nat.ltb_spec 0 (length (open_textLines cur))) as [Hpos | _];
    [| exact Hst].
  destruct (Hcur cur eq_refl) as (Hs & He & Hlines).
  split; cbn [ps_cues ps_currentCue].
  - apply Forall_app. split; [exact Hcues |].
    constructor; [| constructor].
    split; [exact Hs |]. split; [exact He |]. split; [| exact Hlines].
    cbn [textLines]. destruct (open_textLines cur); [simpl in Hpos; lia | discriminate].
  - exact Hcur.
Qed.

Lemma parse_line_ok (st : ParseState) (raw : jsstring) :
  ~ In NEWLINE raw -> state_ok st -> state_ok (parse_line st raw).
Proof.
  intros Hraw Hst. unfold parse_line.
  assert (Hline : ~ In NEWLINE (trim raw)) by (intros H; apply Hraw, trim_in, H).
  destruct (Nat.eqb_spec (length (trim raw)) 0) as [_ | Hlen]; [exact Hst |].
  cbn [orb]. destruct (Js.eqb (trim raw) WEBVTT) eqn:Hhead; [exact Hst |].
  destruct (includes ARROW (trim raw)) eqn:Harrow.
  - apply save_previous_ok in Hst. destruct Hst as [Hcues _].
    split; cbn [ps_cues ps_currentCue]; [exact Hcues |].
    intros cur Hcur. inversion Hcur; subst cur.
    split; [apply timestamp_fields_ok, Hline |].
    split; [apply timestamp_fields_ok, Hline | constructor].
  - destruct (ps_currentCue st) as [cur |] eqn:E; [| exact Hst].
    destruct Hst as [Hcues Hcur]. destruct (Hcur cur E) as (Hs & He & Hlines).
    split; cbn [ps_cues ps_currentCue]; [exact Hcues |].
    intros cur' Hcur'. inversion Hcur'; subst cur'.
    split; [exact Hs |]. split; [exact He |]. cbn [open_textLines].
    apply Forall_app. split; [exact Hlines |]. constructor; [| constructor].
    split; [apply trim_trimmed |].
    split; [intros Hnil; rewrite Hnil in Hlen; simpl in Hlen; lia |].
    split; [exact Hhead |]. split; [exact Harrow | exact Hline].
Qed.

Lemma fold_parse_line_ok (lines : list jsstring) :
  Forall (fun line => ~ In NEWLINE line) lines ->
  forall st, state_ok st -> state_ok (fold_left parse_line lines st).
Proof.
  induction 1 as [| raw lines Hraw _ IH]; intros st Hst; [exact Hst |].
  cbn [fold_left]. apply IH, parse_line_ok; assumption.
Qed.

Lemma parse_lines_ok (s : jsstring) :
  Forall cue_ok (parse_lines (split [NEWLINE] s)).
Proof.
  unfold parse_lines.
  apply save_previous_ok, fold_parse_line_ok.
  - apply split_char_pieces.
  - split; [constructor | discriminate].
Qed.

(** ** [reconstructVTT] on what [parse] returns *)

Lemma sort_indexed (cs : list VTTCue) :
  forall base,
    List.map originalIndex cs = List.map Z.of_nat (seq base (length cs)) ->
    sort_by_index cs = cs.
Proof.
  induction cs as [| c cs IH]; intros base H; [reflexivity |].
  cbn [length seq List.map] in H. injection H as Hc Hcs.
  unfold sort_by_index. cbn [fold_right]. fold (sort_by_index cs).
  rewrite (IH (S base) Hcs).
  destruct cs as [| y cs]; [reflexivity |].
  cbn [length seq List.map] in Hcs. injection Hcs as Hy _.
  cbn [insert_sorted]. unfold compare_index.
  destruct (Z.ltb_spec (originalIndex y - originalIndex c) 0) as [Hneg | _];
    [| reflexivity].
  rewrite Hc, Hy in Hneg. lia.
Qed.

Lemma fold_left_blocks (cs : list VTTCue) :
  forall text,
    fold_left (fun result cue => result ++ cue_block cue) cs text
    = text ++ concat (List.map cue_block cs).
Proof.
  induction cs as [| c cs IH]; intros text; cbn [fold_left List.map concat].
  - rewrite app_nil_r. reflexivity.
  - rewrite IH, <- app_assoc. reflexivity.
Qed.

Lemma reconstruct_indexed (cs : list VTTCue) :
  indexed_from_zero cs ->
  reconstructVTT cs
  = trim (lit "WEBVTT" ++ [NEWLINE; NEWLINE] ++ concat (List.map cue_block cs)).
Proof.
  intros H. unfold reconstructVTT.
  rewrite (sort_indexed cs 0 H), fold_left_blocks, <- app_assoc. reflexivity.
Qed.

Lemma timestamp_line_free (cue : VTTCue) :
  field_ok (startTime cue) -> field_ok (endTime cue) ->
  ~ In NEWLINE (timestamp_line cue).
Proof.
  intros (_ & _ & Hs) (_ & _ & He) H. unfold timestamp_line in H.
  apply in_app_or in H. destruct H as [H | H]; [exact (Hs H) |].
  apply in_app_or in H. destruct H as [H | H]; [| exact (He H)].
  simpl in H. intuition discriminate.
Qed.

Lemma cue_block_lines (cue : VTTCue) (rest : jsstring) :
  cue_ok cue ->
  split [NEWLINE] (cue_block cue ++ rest)
  = block_lines cue ++ split [NEWLINE] rest.
Proof.
  intros (Hs & He & Hne & Hlines).
  replace (cue_block cue ++ rest)
    with (timestamp_line cue
          ++ NEWLINE :: (join [NEWLINE] (textLines cue)
                         ++ NEWLINE :: (NEWLINE :: rest))).
  2:{ unfold cue_block, timestamp_line.
      repeat rewrite <- app_assoc. cbn [app]. reflexivity. }
  rewrite split_char_app.
  rewrite (split_char_free _ _ (timestamp_line_free cue Hs He)).
  rewrite split_join_lines.
  - rewrite split_char_cons, N.eqb_refl. unfold block_lines.
    cbn [app]. rewrite <- app_assoc. reflexivity.
  - exact Hne.
  - eapply Forall_impl; [| exact Hlines]. intros line (_ & _ & _ & _ & H). exact H.
Qed.

Lemma split_blocks (cs : list VTTCue) :
  Forall cue_ok cs ->
  split [NEWLINE] (concat (List.map cue_block cs))
  = concat (List.map block_lines cs) ++ [[]].
Proof.
  induction 1 as [| c cs Hc _ IH]; [reflexivity |].
  cbn [List.map concat]. rewrite cue_block_lines by exact Hc.
  rewrite IH, <- app_assoc. reflexivity.
Qed.

Lemma parse_text_line (cs : list VTTCue) (s e : jsstring) (acc : list jsstring)
      (idx : Z) (line : jsstring) :
  text_ok line ->
  parse_line (mkParse cs (Some (mkOpen s e acc)) idx) line
  = mkParse cs (Some (mkOpen s e (acc ++ [line]))) idx.
Proof.
  intros (Ht & Hne & Hhead & Harrow & _). unfold parse_line.
  rewrite Ht, Hhead, Harrow.
  destruct line; [congruence | reflexivity].
Qed.

Lemma fold_text_lines (cs : list VTTCue) (s e : jsstring) (idx : Z)
      (lines : list jsstring) :
  Forall text_ok lines ->
  forall acc,
    fold_left parse_line lines (mkParse cs (Some (mkOpen s e acc)) idx)
    = mkParse cs (Some (mkOpen s e (acc ++ lines))) idx.
Proof.
  induction 1 as [| line lines Hline _ IH]; intros acc; cbn [fold_left].
  - rewrite app_nil_r. reflexivity.
  - rewrite parse_text_line by exact Hline. rewrite IH, <- app_assoc. reflexivity.
Qed.

Lemma fold_block (st : ParseState) (cue : VTTCue) :
  cue_ok cue ->
  fold_left parse_line (block_lines cue) st
  = mkParse (ps_cues (save_previous st))
            (Some (mkOpen (startTime cue) (endTime cue) (textLines cue)))
            (ps_cueIndex (save_previous st)).
Proof.
  intros (Hs & He & _ & Hlines). unfold block_lines. cbn [fold_left].
  rewrite parse_timestamp_line by assumption.
  rewrite fold_left_app, fold_text_lines by exact Hlines. reflexivity.
Qed.

Lemma indexed_snoc (cs : list VTTCue) (c : VTTCue) :
  indexed_from_zero (cs ++ [c]) ->
  indexed_from_zero cs /\ originalIndex c = Z.of_nat (length cs).
Proof.
  unfold indexed_from_zero. rewrite map_app, length_app. cbn [length List.map].
  rewrite seq_app, map_app. cbn [seq List.map Nat.add]. intros H.
  apply app_inj_tail in H. exact H.
Qed.

Lemma fold_blocks (cs : list VTTCue) :
  Forall cue_ok cs -> indexed_from_zero cs ->
  ps_cues (save_previous (fold_left parse_line (concat (List.map block_lines cs))
                                    (mkParse [] None 0))) = cs
  /\ ps_cueIndex (save_previous (fold_left parse_line
                                           (concat (List.map block_lines cs))
                                           (mkParse [] None 0)))
     = Z.of_nat (length cs).
Proof.
  induction cs as [| c cs IH] using rev_ind; intros Hok Hidx.
  - split; reflexivity.
  - apply Forall_app in Hok. destruct Hok as [Hok Hc].
    inversion Hc as [| ? ? Hcue _]; subst.
    apply indexed_snoc in Hidx. destruct Hidx as [Hidx Hindex].
    destruct (IH Hok Hidx) as [IHcues IHnext].
    rewrite map_app, concat_app. cbn [List.map concat]. rewrite app_nil_r.
    rewrite fold_left_app, fold_block by exact Hcue.
    rewrite IHcues, IHnext.
    destruct Hcue as (_ & _ & Hne & _).
    unfold save_previous. cbn [ps_currentCue open_textLines ps_cues ps_cueIndex
                                open_startTime open_endTime].
    destruct (textLines c) as [| l ls] eqn:Hlines; [congruence |].
    cbn [length Nat.ltb Nat.leb ps_cues ps_cueIndex].
    rewrite <- Hlines, <- Hindex. split.
    + destruct c. reflexivity.
    + rewrite length_app. cbn [length]. lia.
Qed.

(** Parsing the text written from well-formed, indexed cues gives the
    cues back. *)
Lemma parse_reconstruct (cs : list VTTCue) :
  Forall cue_ok cs -> indexed_from_zero cs ->
  parse (reconstructVTT cs) = Ok cs.
Proof.
  intros Hok Hidx.
  rewrite parse_returns, (reconstruct_indexed cs Hidx), parse_lines_trim.
  f_equal.
  replace (lit "WEBVTT" ++ [NEWLINE; NEWLINE] ++ concat (List.map cue_block cs))
    with (lit "WEBVTT" ++ NEWLINE :: (NEWLINE :: concat (List.map cue_block cs)))
    by reflexivity.
  rewrite split_char_app, split_char_cons, N.eqb_refl.
  rewrite (split_blocks cs Hok).
  unfold parse_lines.
  change (split [NEWLINE] (lit "WEBVTT")) with [WEBVTT].
  cbn [app fold_left].
  change (parse_line (mkParse [] None 0) WEBVTT) with (mkParse [] None 0).
  change (parse_line (mkParse [] None 0) []) with (mkParse [] None 0).
  rewrite fold_left_app. cbn [fold_left].
  rewrite parse_line_blank by reflexivity.
  apply (fold_blocks cs Hok Hidx).
Qed.

(** C1. For every input string, [parse] returns a cue sequence [cs], and
    parsing the text that [reconstructVTT] writes for [cs] returns a
    sequence of the same length whose cue at every position has the same
    [startTime], [endTime], [textLines] and [originalIndex] as the cue of
    [cs] there; a cue having only these four fields, it returns [cs]
    itself. *)
Theorem parse_reconstruct_roundtrip (vttContent : jsstring) :
  exists cs again,
    parse vttContent = Ok cs /\
    parse (reconstructVTT cs) = Ok again /\
    length again = length cs /\
    Forall2 same_cue cs again /\
    again = cs.
Proof.
  exists (parse_lines (split [NEWLINE] vttContent)),
         (parse_lines (split [NEWLINE] vttContent)).
  split; [apply parse_returns |].
  split; [apply parse_reconstruct;
          [apply parse_lines_ok | apply parse_lines_indexed] |].
  split; [reflexivity |]. split; [| reflexivity].
  induction (parse_lines (split [NEWLINE] vttContent)) as [| c cs IH];
    constructor; [repeat split | exact IH].
Qed.

(** ** Further properties of [parse] *)

(** X1. Every cue that [parse] returns has at least one text line; each
    text line is trimmed, not empty, not the header word, and holds no
    arrow; the start and end times are trimmed and hold no arrow. *)
Theorem parse_cues_well_formed (vttContent : jsstring) :
  exists cs, parse vttContent = Ok cs /\ Forall cue_ok cs.
Proof.
  exists (parse_lines (split [NEWLINE] vttContent)).
  split; [apply parse_returns | apply parse_lines_ok].
Qed.

Lemma fold_header_line (st : ParseState) : parse_line st WEBVTT = st.
Proof. reflexivity. Qed.

Lemma parse_lines_skip (before after : list jsstring) (line : jsstring) :
  (forall st, parse_line st line = st) ->
  parse_lines (before ++ line :: after) = parse_lines (before ++ after).
Proof.
  intros Hskip. unfold parse_lines.
  rewrite !fold_left_app. cbn [fold_left]. rewrite Hskip. reflexivity.
Qed.

(** X2. The header word and blank lines are skipped wherever they stand,
    also between the text lines of a cue, and white space around the
    whole text does not matter. *)
Theorem parse_skips_header_and_blanks (a b blank : jsstring) :
  all_ws blank -> ~ In NEWLINE blank ->
  parse (a ++ NEWLINE :: lit "WEBVTT" ++ NEWLINE :: b) = parse (a ++ NEWLINE :: b)
  /\ parse (a ++ NEWLINE :: blank ++ NEWLINE :: b) = parse (a ++ NEWLINE :: b)
  /\ parse (lit "WEBVTT" ++ NEWLINE :: b) = parse b
  /\ parse (trim a) = parse a.
Proof.
  intros Hblank Hfree. rewrite !parse_returns.
  split; [| split; [| split]]; f_equal.
  - rewrite !split_char_app.
    change (split [NEWLINE] (lit "WEBVTT")) with [WEBVTT]. cbn [app].
    apply parse_lines_skip. intros st. apply fold_header_line.
  - rewrite !split_char_app, (split_char_free _ _ Hfree). cbn [app].
    apply parse_lines_skip. intros st. apply parse_line_blank.
    rewrite trim_all_ws by exact Hblank. reflexivity.
  - rewrite split_char_app.
    change (split [NEWLINE] (lit "WEBVTT")) with [WEBVTT]. cbn [app].
    apply (parse_lines_skip [] (split [NEWLINE] b) WEBVTT).
    intros st. apply fold_header_line.
  - apply parse_lines_trim.
Qed.

Lemma parse_skips_header_and_blanks_witness :
  parse (lit "00:01 --> 00:02" ++ NEWLINE :: lit "WEBVTT" ++ NEWLINE :: lit "Hi")
  = parse (lit "00:01 --> 00:02" ++ NEWLINE :: lit "Hi")
  /\ parse (lit "00:01 --> 00:02" ++ NEWLINE :: lit "  " ++ NEWLINE :: lit "Hi")
     = parse (lit "00:01 --> 00:02" ++ NEWLINE :: lit "Hi")
  /\ parse (lit "WEBVTT" ++ NEWLINE :: lit "Hi") = parse (lit "Hi")
  /\ parse (trim (lit "00:01 --> 00:02")) = parse (lit "00:01 --> 00:02").
Proof.
  apply (parse_skips_header_and_blanks (lit "00:01 --> 00:02") (lit "Hi") (lit "  ")).
  - reflexivity.
  - intros H. simpl in H. intuition discriminate.
Defined.

(** X3. Writing out what was parsed is stable: doing it twice gives the
    same text as doing it once. *)
Theorem normalize_idempotent (vttContent : jsstring) :
  exists text,
    normalize vttContent = Ok text /\ normalize text = Ok text.
Proof.
  unfold normalize. rewrite parse_returns. cbn [bind].
  eexists. split; [reflexivity |].
  rewrite parse_reconstruct by (apply parse_lines_ok || apply parse_lines_indexed).
  reflexivity.
Qed.

(** The lines of a text are pieces of it. *)
Lemma split_char_substrings (c : char) (s : jsstring) :
  exists first more,
    split [c] s = first :: more /\
    (exists b, s = first ++ b) /\
    Forall (fun piece => exists a b, s = a ++ piece ++ b) more.
Proof.
  induction s as [| x s IH].
  - exists [], []. split; [reflexivity |]. split; [exists []; reflexivity | constructor].
  - destruct IH as (first & more & Hsplit & (b & Hb) & Hmore).
    rewrite split_char_cons, Hsplit. destruct (x =? c)%N.
    + exists [], (first :: more). split; [reflexivity |].
      split; [exists (x :: s); reflexivity |].
      constructor.
      * exists [x], b. cbn [app]. f_equal. exact Hb.
      * eapply Forall_impl; [| exact Hmore].
        intros piece (a' & b' & Hs). exists (x :: a'), b'. cbn [app]. f_equal. exact Hs.
    + exists (x :: first), more. split; [reflexivity |].
      split; [exists b; cbn [app]; f_equal; exact Hb |].
      eapply Forall_impl; [| exact Hmore].
      intros piece (a' & b' & Hs). exists (x :: a'), b'. cbn [app]. f_equal. exact Hs.
Qed.

Lemma split_char_no_arrow (s : jsstring) :
  includes ARROW s = false ->
  Forall (fun line => includes ARROW (trim line) = false) (split [NEWLINE] s).
Proof.
  intros H. apply includes_none in H.
  destruct (split_char_substrings NEWLINE s) as (first & more & -> & (b & Hb) & Hmore).
  constructor.
  - apply includes_none, search_none_trim.
    rewrite Hb in H. apply search_none_prefix in H; [exact H | discriminate].
  - eapply Forall_impl; [| exact Hmore].
    intros piece (a' & b' & Hs). apply includes_none, search_none_trim.
    rewrite Hs in H. apply search_none_suffix in H.
    apply search_none_prefix in H; [exact H | discriminate].
Qed.

Lemma parse_line_before_first_cue (cs : list VTTCue) (idx : Z) (raw : jsstring) :
  includes ARROW (trim raw) = false ->
  parse_line (mkParse cs None idx) raw = mkParse cs None idx.
Proof.
  intros H. unfold parse_line. rewrite H. cbn [ps_currentCue].
  destruct ((length (trim raw) =? 0) || Js.eqb (trim raw) WEBVTT); reflexivity.
Qed.

Lemma fold_before_first_cue (lines : list jsstring) :
  Forall (fun line => includes ARROW (trim line) = false) lines ->
  fold_left parse_line lines (mkParse [] None 0) = mkParse [] None 0.
Proof.
  induction 1 as [| raw lines Hraw _ IH]; [reflexivity |].
  cbn [fold_left]. rewrite parse_line_before_first_cue by exact Hraw. exact IH.
Qed.

(** X4. Whatever stands before the first line with an arrow is dropped:
    a text without any arrow gives no cue, and putting such a text, on
    lines of its own, in front of a file does not change what is
    parsed. *)
Theorem parse_drops_text_before_first_timestamp (intro rest : jsstring) :
  includes ARROW intro = false ->
  parse intro = Ok [] /\ parse (intro ++ NEWLINE :: rest) = parse rest.
Proof.
  intros H. rewrite !parse_returns. pose proof (split_char_no_arrow intro H) as Hlines.
  split; f_equal.
  - unfold parse_lines. rewrite fold_before_first_cue by exact Hlines. reflexivity.
  - rewrite split_char_app. unfold parse_lines.
    rewrite fold_left_app, fold_before_first_cue by exact Hlines. reflexivity.
Qed.

Lemma parse_drops_text_before_first_timestamp_witness :
  parse (lit "some notes") = Ok []
  /\ parse (lit "some notes" ++ NEWLINE :: sample_vtt) = parse sample_vtt.
Proof.
  apply (parse_drops_text_before_first_timestamp (lit "some notes") sample_vtt).
  reflexivity.
Defined.

(** A line with an arrow saves the open cue, if it has text, and opens a
    new one. *)
Lemma parse_arrow_line (st : ParseState) (raw : jsstring) :
  includes ARROW (trim raw) = true ->
  parse_line st raw
  = mkParse (ps_cues (save_previous st))
            (Some (mkOpen (nth 0 (List.map trim (split ARROW (trim raw))) [])
                          (nth 1 (List.map trim (split ARROW (trim raw))) [])
                          []))
            (ps_cueIndex (save_previous st)).
Proof.
  intros H. unfold parse_line. rewrite H.
  assert (Hlen : (length (trim raw) =? 0) = false).
  { destruct (trim raw); [discriminate | reflexivity]. }
  assert (Hhead : Js.eqb (trim raw) WEBVTT = false).
  { destruct (Js.eqb (trim raw) WEBVTT) eqn:E; [| reflexivity].
    apply jsstring_eqb_eq in E. rewrite E in H. discriminate. }
  rewrite Hlen, Hhead. reflexivity.
Qed.

(** A line with an arrow right after another one replaces it. *)
Lemma parse_arrow_line_twice (st : ParseState) (first second : jsstring) :
  includes ARROW (trim first) = true ->
  includes ARROW (trim second) = true ->
  parse_line (parse_line st first) second = parse_line st second.
Proof.
  intros H1 H2. rewrite (parse_arrow_line st first H1).
  rewrite !(parse_arrow_line _ second H2). reflexivity.
Qed.

(** X5. A line with an arrow that is directly followed by another line
    with an arrow opens a cue that gets no text and is dropped without a
    trace: the file parses as if the first of the two lines were not
    there, so the indices of the other cues do not skip a number. *)
Theorem parse_drops_cue_without_text (a b first second : jsstring) :
  ~ In NEWLINE first -> ~ In NEWLINE second ->
  includes ARROW (trim first) = true ->
  includes ARROW (trim second) = true ->
  parse (a ++ NEWLINE :: first ++ NEWLINE :: second ++ NEWLINE :: b)
  = parse (a ++ NEWLINE :: second ++ NEWLINE :: b).
Proof.
  intros Hf1 Hf2 H1 H2. rewrite !parse_returns. f_equal.
  rewrite !split_char_app.
  rewrite (split_char_free _ _ Hf1), (split_char_free _ _ Hf2).
  unfold parse_lines. rewrite !fold_left_app. cbn [app fold_left].
  rewrite parse_arrow_line_twice by assumption. reflexivity.
Qed.

Lemma parse_drops_cue_without_text_witness :
  parse (lit "WEBVTT" ++ NEWLINE :: lit "00:01 --> 00:02" ++ NEWLINE
           :: lit "00:02-->00:03" ++ NEWLINE :: lit "World is big.")
  = parse (lit "WEBVTT" ++ NEWLINE :: lit "00:02-->00:03" ++ NEWLINE
             :: lit "World is big.").
Proof.
  apply (parse_drops_cue_without_text (lit "WEBVTT") (lit "World is big.")
                                      (lit "00:01 --> 00:02") (lit "00:02-->00:03"));
    try reflexivity; intros H; simpl in H; intuition discriminate.
Defined.

(** ** The fields of a timestamp line *)

Lemma strip_arrow_none_app (y rest : jsstring) :
  y <> [] -> strip_prefix ARROW y = None ->
  strip_prefix ARROW (y ++ ARROW ++ rest) = None.
Proof.
  change ARROW with [45; 45; 62]%N.
  destruct y as [| c [| d [| e y']]]; intros Hne H; [congruence | | |].
  - cbn [app strip_prefix]. destruct (45 =? c)%N; reflexivity.
  - cbn [app strip_prefix]. destruct (45 =? c)%N; [| reflexivity].
    destruct (45 =? d)%N; reflexivity.
  - cbn [app strip_prefix] in *. destruct (45 =? c)%N; [| reflexivity].
    destruct (45 =? d)%N; [| reflexivity].
    destruct (62 =? e)%N; [discriminate | reflexivity].
Qed.

(** In a string that starts without arrow, the arrow appended to it is
    the leftmost one. *)
Lemma search_arrow_first (p0 rest : jsstring) :
  search (strip_prefix ARROW) p0 = None ->
  search (strip_prefix ARROW) (p0 ++ ARROW ++ rest) = Some (p0, rest).
Proof.
  induction p0 as [| c x IH]; intros Hnone.
  - cbn [app]. apply search_here. apply strip_prefix_app.
  - rewrite search_cons in Hnone.
    destruct (strip_prefix ARROW (c :: x)) eqn:Hstrip; [discriminate |].
    destruct (search (strip_prefix ARROW) x) as [[b a] |] eqn:Hx; [discriminate |].
    pose proof (strip_arrow_none_app (c :: x) rest ltac:(discriminate) Hstrip) as Hlong.
    cbn [app] in Hlong |- *. rewrite search_cons, Hlong, (IH eq_refl). reflexivity.
Qed.

Lemma trimStart_app_head (x y : jsstring) :
  head_ok y -> y <> [] -> trimStart (x ++ y) = trimStart x ++ y.
Proof.
  intros Hy Hne. induction x as [| c x IH]; cbn [app trimStart].
  - apply trimStart_id, Hy.
  - destruct (is_ws c); [exact IH | reflexivity].
Qed.

Lemma trimEnd_app_last (x y : jsstring) :
  last_ok x -> x <> [] -> trimEnd (x ++ y) = x ++ trimEnd y.
Proof.
  intros Hx Hne. unfold trimEnd. rewrite rev_app_distr.
  rewrite trimStart_app_head.
  - rewrite rev_app_distr, rev_involutive. reflexivity.
  - exact Hx.
  - intros Hnil. apply Hne. rewrite <- (rev_involutive x), Hnil. reflexivity.
Qed.

Lemma trim_trimStart (s : jsstring) : trim (trimStart s) = trim s.
Proof.
  destruct (trimStart_decomp s) as (w & Hw & Hs).
  rewrite Hs at 2. rewrite trim_ws_app by exact Hw. reflexivity.
Qed.

Lemma trim_trimEnd (s : jsstring) : trim (trimEnd s) = trim s.
Proof.
  destruct (trimEnd_decomp s) as (w & Hw & Hs).
  rewrite Hs at 2. rewrite trim_app_ws by exact Hw. reflexivity.
Qed.

Lemma search_none_trimStart (s : jsstring) :
  search (strip_prefix ARROW) s = None ->
  search (strip_prefix ARROW) (trimStart s) = None.
Proof.
  intros H. destruct (trimStart_decomp s) as (w & _ & Hs).
  rewrite Hs in H. apply search_none_suffix in H. exact H.
Qed.

Lemma search_none_trimEnd (s : jsstring) :
  search (strip_prefix ARROW) s = None ->
  search (strip_prefix ARROW) (trimEnd s) = None.
Proof.
  intros H. destruct (trimEnd_decomp s) as (w & _ & Hs).
  rewrite Hs in H. apply search_none_prefix in H; [exact H | discriminate].
Qed.

Lemma split_arrow_first (p0 rest : jsstring) :
  search (strip_prefix ARROW) p0 = None ->
  split ARROW (p0 ++ ARROW ++ rest) = p0 :: split ARROW rest.
Proof.
  intros H. unfold split.
  rewrite (split_with_unfold _ _ arrow_consuming), (search_arrow_first _ _ H).
  reflexivity.
Qed.

Lemma split_arrow_none (p : jsstring) :
  search (strip_prefix ARROW) p = None -> split ARROW p = [p].
Proof.
  intros H. unfold split.
  rewrite (split_with_unfold _ _ arrow_consuming), H. reflexivity.
Qed.

Lemma trim_arrow_line (p0 p1 tail : jsstring) :
  tail = [] \/ (exists p2, tail = ARROW ++ p2) ->
  trim (p0 ++ ARROW ++ p1 ++ tail)
  = match tail with
    | [] => trimStart p0 ++ ARROW ++ trimEnd p1
    | _ :: _ => trimStart p0 ++ ARROW ++ p1 ++ ARROW ++ trimEnd (skipn 3 tail)
    end.
Proof.
  intros Htail. unfold trim.
  rewrite (trimStart_app_head p0 (ARROW ++ p1 ++ tail))
    by (reflexivity || discriminate).
  destruct Htail as [-> | (p2 & ->)].
  - rewrite app_nil_r.
    replace (trimStart p0 ++ ARROW ++ p1) with ((trimStart p0 ++ ARROW) ++ p1)
      by (rewrite <- app_assoc; reflexivity).
    rewrite trimEnd_app_last
      by (apply arrow_last_ok || (destruct (trimStart p0); discriminate)).
    rewrite <- app_assoc. reflexivity.
  - change (ARROW ++ p2) with (45 :: 45 :: 62 :: p2)%N at 2 3. cbn [skipn].
    replace (trimStart p0 ++ ARROW ++ p1 ++ ARROW ++ p2)
      with (((trimStart p0 ++ ARROW ++ p1) ++ ARROW) ++ p2)
      by (repeat rewrite <- app_assoc; reflexivity).
    rewrite trimEnd_app_last
      by (apply arrow_last_ok
          || (destruct (trimStart p0 ++ ARROW ++ p1); discriminate)).
    repeat rewrite <- app_assoc. reflexivity.
Qed.

(** The trimmed line, cut at its arrows: the first two pieces. *)
Lemma timestamp_pieces (p0 p1 tail : jsstring) :
  search (strip_prefix ARROW) p0 = None ->
  search (strip_prefix ARROW) p1 = None ->
  tail = [] \/ (exists p2, tail = ARROW ++ p2) ->
  includes ARROW (trim (p0 ++ ARROW ++ p1 ++ tail)) = true /\
  nth 0 (List.map trim (split ARROW (trim (p0 ++ ARROW ++ p1 ++ tail)))) []
  = trim p0 /\
  nth 1 (List.map trim (split ARROW (trim (p0 ++ ARROW ++ p1 ++ tail)))) []
  = trim p1.
Proof.
  intros H0 H1 Htail. rewrite (trim_arrow_line p0 p1 tail Htail).
  pose proof (search_none_trimStart p0 H0) as H0'.
  destruct Htail as [-> | (p2 & ->)].
  - split; [apply includes_app_arrow |].
    rewrite (split_arrow_first _ _ H0'),
      (split_arrow_none _ (search_none_trimEnd p1 H1)).
    cbn [nth List.map]. split; [apply trim_trimStart | apply trim_trimEnd].
  - change (ARROW ++ p2) with (45 :: 45 :: 62 :: p2)%N. cbn [skipn].
    split; [apply includes_app_arrow |].
    rewrite (split_arrow_first _ _ H0'), (split_arrow_first _ _ H1).
    cbn [nth List.map]. split; [apply trim_trimStart | reflexivity].
Qed.

(** X6. On a line with an arrow, [startTime] is the trimmed text before
    the first arrow and [endTime] the trimmed text between the first arrow
    and the second one (or the end of the line): whatever follows a second
    arrow is dropped.  The times may be empty, and they are not checked. *)
Theorem parse_timestamp_fields (p0 p1 tail text : jsstring) :
  includes ARROW p0 = false -> includes ARROW p1 = false ->
  tail = [] \/ (exists p2, tail = ARROW ++ p2) ->
  ~ In NEWLINE (p0 ++ ARROW ++ p1 ++ tail) ->
  text_ok text ->
  parse ((p0 ++ ARROW ++ p1 ++ tail) ++ NEWLINE :: text)
  = Ok [mkCue (trim p0) (trim p1) [text] 0].
Proof.
  intros H0 H1 Htail Hfree Htext.
  apply includes_none in H0. apply includes_none in H1.
  destruct (timestamp_pieces p0 p1 tail H0 H1 Htail) as (Hincl & Hstart & Hend).
  rewrite parse_returns. f_equal.
  rewrite split_char_app, (split_char_free _ _ Hfree).
  pose proof Htext as (_ & Hne & _ & _ & Hnl).
  rewrite (split_char_free _ _ Hnl).
  unfold parse_lines. cbn [app fold_left].
  rewrite (parse_arrow_line _ _ Hincl), Hstart, Hend.
  cbn [save_previous ps_currentCue ps_cues ps_cueIndex].
  rewrite parse_text_line by exact Htext.
  unfold save_previous. cbn [ps_currentCue open_textLines app].
  destruct text; [congruence | reflexivity].
Qed.

Lemma parse_timestamp_fields_witness :
  parse ((lit " 00:01 " ++ ARROW ++ lit " 00:02 " ++ ARROW ++ lit " 00:03")
           ++ NEWLINE :: lit "Hi")
  = Ok [mkCue (trim (lit " 00:01 ")) (trim (lit " 00:02 ")) [lit "Hi"] 0].
Proof.
  apply (parse_timestamp_fields (lit " 00:01 ") (lit " 00:02 ")
                                (ARROW ++ lit " 00:03") (lit "Hi")).
  - reflexivity.
  - reflexivity.
  - right. exists (lit " 00:03"). reflexivity.
  - intros H. simpl in H. intuition discriminate.
  - split; [reflexivity |]. split; [discriminate |]. split; [reflexivity |].
    split; [reflexivity |]. intros H. simpl in H. intuition discriminate.
Defined.

(** ** Further properties of [reconstructVTT] *)

Lemma reconstruct_text (cs : list VTTCue) :
  reconstructVTT cs
  = trim (lit "WEBVTT" ++ [NEWLINE; NEWLINE]
          ++ concat (List.map cue_block (sort_by_index cs))).
Proof.
  unfold reconstructVTT. rewrite fold_left_blocks, <- app_assoc. reflexivity.
Qed.

(** X7. The text [reconstructVTT] writes always starts with the header
    word and has no white space at either end; for no cue at all it is the
    header word alone. *)
Theorem reconstruct_header_and_trim (cs : list VTTCue) :
  (exists rest, reconstructVTT cs = lit "WEBVTT" ++ rest) /\
  trimmed (reconstructVTT cs) /\
  reconstructVTT [] = lit "WEBVTT".
Proof.
  split; [| split; [| reflexivity]].
  - rewrite reconstruct_text. unfold trim.
    rewrite trimStart_id by reflexivity.
    rewrite trimEnd_app_last by (reflexivity || discriminate).
    eexists. reflexivity.
  - rewrite reconstruct_text. apply trim_trimmed.
Qed.










(** ** Further properties of [groupCuesIntoSentences] *)

Lemma length_sentence_groups (rest : list VTTCue) :
  forall currentGroup prev,
    length (sentence_groups currentGroup prev rest) = 1 + count_boundaries prev rest.
Proof.
  induction rest as [| next rest IH]; intros currentGroup prev; [reflexivity |].
  cbn [sentence_groups count_boundaries].
  destruct (sentence_boundary prev next); cbn [length]; rewrite IH; lia.
Qed.

Lemma count_boundaries_le (rest : list VTTCue) :
  forall prev, count_boundaries prev rest <= length rest.
Proof.
  induction rest as [| next rest IH]; intros prev; [apply Nat.le_refl |].
  cbn [count_boundaries length]. specialize (IH next).
  destruct (sentence_boundary prev next); lia.
Qed.

(** X9. For a non-empty cue sequence the number of groups is one more
    than the number of adjacent pairs at which a sentence ends and the next
    starts; so there is at least one group and at most one per cue.  The
    empty sequence has no group. *)
Theorem group_count (first : VTTCue) (rest : list VTTCue) :
  groupCuesIntoSentences [] = Ok [] /\
  exists groups,
    groupCuesIntoSentences (first :: rest) = Ok groups /\
    length groups = 1 + count_boundaries first rest /\
    1 <= length groups <= length (first :: rest).
Proof.
  split; [reflexivity |].
  exists (List.map close_group (group_runs (first :: rest))).
  split; [apply group_returns |].
  rewrite length_map. unfold group_runs. rewrite length_sentence_groups.
  pose proof (count_boundaries_le rest first). cbn [length]. lia.
Qed.

(** Cues put in front of the open group go in front of the first run. *)
Lemma sentence_groups_prefix (rest : list VTTCue) :
  forall front currentGroup prev,
  exists run runs,
    sentence_groups currentGroup prev rest = run :: runs /\
    sentence_groups (front ++ currentGroup) prev rest = (front ++ run) :: runs.
Proof.
  induction rest as [| next rest IH]; intros front currentGroup prev.
  - exists currentGroup, []. split; reflexivity.
  - cbn [sentence_groups]. destruct (sentence_boundary prev next).
    + eexists _, _. split; reflexivity.
    + destruct (IH front (currentGroup ++ [next]) next) as (run & runs & H1 & H2).
      exists run, runs. split; [exact H1 |]. rewrite <- app_assoc. exact H2.
Qed.

Lemma last_default {A : Type} (l : list A) (d1 d2 : A) :
  l <> [] -> last l d1 = last l d2.
Proof.
  induction l as [| x l IH]; intros Hne; [congruence |].
  destruct l as [| y l]; [reflexivity |].
  change (last (x :: y :: l) d1) with (last (y :: l) d1).
  change (last (x :: y :: l) d2) with (last (y :: l) d2).
  apply IH. discriminate.
Qed.

Lemma last_cue_cons (prev m : VTTCue) (rest : list VTTCue) :
  last_cue prev (m :: rest) = last_cue m rest.
Proof.
  unfold last_cue. destruct rest as [| v rest]; [reflexivity |].
  change (last (m :: v :: rest) prev) with (last (v :: rest) prev).
  apply last_default. discriminate.
Qed.

(** The scan over [rest ++ next :: after], from the scans of the two
    parts. *)
Lemma sentence_groups_join (next : VTTCue) (after : list VTTCue) (rest : list VTTCue) :
  forall currentGroup prev,
  exists front lastRun firstRun back,
    sentence_groups currentGroup prev rest = front ++ [lastRun] /\
    sentence_groups [next] next after = firstRun :: back /\
    sentence_groups currentGroup prev (rest ++ next :: after)
    = if sentence_boundary (last_cue prev rest) next
      then front ++ lastRun :: firstRun :: back
      else front ++ (lastRun ++ firstRun) :: back.
Proof.
  induction rest as [| m rest IH]; intros currentGroup prev.
  - destruct (sentence_groups_prefix after currentGroup [next] next)
      as (run & runs & H1 & H2).
    exists [], currentGroup, run, runs.
    split; [reflexivity |]. split; [exact H1 |].
    cbn [app sentence_groups last_cue last].
    destruct (sentence_boundary prev next); [rewrite H1; reflexivity | exact H2].
  - rewrite last_cue_cons. cbn [app sentence_groups].
    destruct (sentence_boundary prev m).
    + destruct (IH [m] m) as (front & lastRun & firstRun & back & H1 & H2 & H3).
      exists (currentGroup :: front), lastRun, firstRun, back.
      rewrite H1, H3. split; [reflexivity |]. split; [exact H2 |].
      destruct (sentence_boundary (last_cue m rest) next); reflexivity.
    + destruct (IH (currentGroup ++ [m]) m)
        as (front & lastRun & firstRun & back & H1 & H2 & H3).
      exists front, lastRun, firstRun, back.
      split; [exact H1 |]. split; [exact H2 | exact H3].
Qed.

(** X10. Grouping is decided pair by pair: the groups of a sequence cut
    between two adjacent cues [p], [n] are the groups of the part up to
    [p] followed by the groups of the part from [n] on when a sentence
    ends at [p] and starts at [n]; otherwise the last group of the first
    part and the first group of the second part are one group. *)
Theorem group_composition (l1 : list VTTCue) (p n : VTTCue) (l2 : list VTTCue) :
  exists front lastGroup firstGroup back,
    groupCuesIntoSentences (l1 ++ [p]) = Ok (front ++ [lastGroup]) /\
    groupCuesIntoSentences (n :: l2) = Ok (firstGroup :: back) /\
    groupCuesIntoSentences (l1 ++ p :: n :: l2)
    = Ok (if sentence_boundary p n
          then front ++ lastGroup :: firstGroup :: back
          else front ++ close_group (cues lastGroup ++ cues firstGroup) :: back).
Proof.
  rewrite !group_returns.
  assert (Hruns : exists front lastRun firstRun back,
             group_runs (l1 ++ [p]) = front ++ [lastRun] /\
             group_runs (n :: l2) = firstRun :: back /\
             group_runs (l1 ++ p :: n :: l2)
             = if sentence_boundary p n
               then front ++ lastRun :: firstRun :: back
               else front ++ (lastRun ++ firstRun) :: back).
  { destruct l1 as [| first l1]; unfold group_runs; cbn [app].
    - apply (sentence_groups_join n l2 [] [p] p).
    - destruct (sentence_groups_join n l2 (l1 ++ [p]) [first] first)
        as (front & lastRun & firstRun & back & H1 & H2 & H3).
      exists front, lastRun, firstRun, back.
      split; [exact H1 |]. split; [exact H2 |].
      rewrite <- app_assoc in H3. cbn [app] in H3. rewrite H3.
      unfold last_cue. rewrite last_last. reflexivity. }
  destruct Hruns as (front & lastRun & firstRun & back & H1 & H2 & H3).
  exists (List.map close_group front), (close_group lastRun),
         (close_group firstRun), (List.map close_group back).
  rewrite H1, H2, H3, map_app. cbn [List.map cues close_group].
  split; [reflexivity |]. split; [reflexivity |].
  destruct (sentence_boundary p n); rewrite map_app; reflexivity.
Qed.

(** ** The combined text of a group *)

Lemma collapse_ws_head (s : jsstring) : head_ok (collapse_ws true s).
Proof.
  induction s as [| c s IH]; [exact I |].
  cbn [collapse_ws]. destruct (is_ws c) eqn:E; [exact IH | exact E].
Qed.

Lemma collapse_ws_single_spaced (s : jsstring) :
  forall in_run, single_spaced (collapse_ws in_run s).
Proof.
  induction s as [| c s IH]; intros in_run; [exact I |].
  cbn [collapse_ws]. destruct (is_ws c) eqn:E.
  - destruct in_run; [apply IH |].
    cbn [single_spaced]. split; [| apply IH].
    intros _. split; [reflexivity | apply collapse_ws_head].
  - cbn [single_spaced]. split; [| apply IH]. congruence.
Qed.

Lemma head_ok_prefix (x y : jsstring) : head_ok (x ++ y) -> head_ok x.
Proof. destruct x; [intros _; exact I | trivial]. Qed.

Lemma single_spaced_suffix (x y : jsstring) : single_spaced (x ++ y) -> single_spaced y.
Proof.
  induction x as [| c x IH]; [trivial |]. cbn [app single_spaced]. intros [_ H].
  apply IH, H.
Qed.

Lemma single_spaced_prefix (x y : jsstring) : single_spaced (x ++ y) -> single_spaced x.
Proof.
  induction x as [| c x IH]; [intros _; exact I |].
  cbn [app single_spaced]. intros [Hc H]. split; [| apply IH, H].
  intros Hws. destruct (Hc Hws) as [Heq Hhead].
  split; [exact Heq | exact (head_ok_prefix x y Hhead)].
Qed.

Lemma single_spaced_trim (s : jsstring) : single_spaced s -> single_spaced (trim s).
Proof.
  intros H. destruct (trim_decomp s) as (w1 & w2 & _ & _ & Hs).
  rewrite Hs in H. apply single_spaced_suffix in H.
  apply single_spaced_prefix in H. exact H.
Qed.

(** X11. The combined text of every group that [groupCuesIntoSentences]
    returns is the text [combineCueTexts] makes of the cues of the group:
    it has no white space at either end, and inside it white space occurs
    only as single spaces. *)
Theorem group_combined_text_shape (cs : list VTTCue) :
  exists groups,
    groupCuesIntoSentences cs = Ok groups /\
    Forall (fun group =>
              combinedText group = combineCueTexts (cues group) /\
              trimmed (combinedText group) /\
              single_spaced (combinedText group))
           groups.
Proof.
  exists (List.map close_group (group_runs cs)).
  split; [apply group_returns |].
  apply Forall_map, Forall_forall. intros run _.
  cbn [combinedText cues close_group]. split; [reflexivity |].
  unfold combineCueTexts. split; [apply trim_trimmed |].
  apply single_spaced_trim, collapse_ws_single_spaced.
Qed.

Lemma ink_app (x y : jsstring) : ink (x ++ y) = ink x ++ ink y.
Proof. apply filter_app. Qed.

Lemma ink_all_ws (w : jsstring) : all_ws w -> ink w = [].
Proof.
  unfold all_ws, ink. induction w as [| c w IH]; [reflexivity |].
  cbn [forallb filter]. intros H. apply andb_prop in H. destruct H as [-> H].
  cbn [negb]. apply IH, H.
Qed.

Lemma ink_trim (s : jsstring) : ink (trim s) = ink s.
Proof.
  destruct (trim_decomp s) as (w1 & w2 & H1 & H2 & Hs).
  rewrite Hs at 2. rewrite !ink_app, (ink_all_ws _ H1), (ink_all_ws _ H2), app_nil_r.
  reflexivity.
Qed.

Lemma ink_collapse (s : jsstring) :
  forall in_run, ink (collapse_ws in_run s) = ink s.
Proof.
  unfold ink. induction s as [| c s IH]; intros in_run; [reflexivity |].
  cbn [collapse_ws filter]. destruct (is_ws c) eqn:E; cbn [negb].
  - destruct in_run; [apply IH |]. cbn [filter].
    change (is_ws SPACE) with true. cbn [negb]. apply IH.
  - cbn [filter]. rewrite E. cbn [negb]. f_equal. apply IH.
Qed.

Lemma ink_join_space (parts : list jsstring) :
  ink (join [SPACE] parts) = concat (List.map ink parts).
Proof.
  induction parts as [| x parts IH]; [reflexivity |].
  destruct parts as [| y parts].
  - cbn [join List.map concat]. rewrite app_nil_r. reflexivity.
  - change (join [SPACE] (x :: y :: parts))
      with (x ++ [SPACE] ++ join [SPACE] (y :: parts)).
    rewrite !ink_app, IH. reflexivity.
Qed.

(** X12. [combineCueTexts] only touches white space: the code units of
    the combined text that are not white space are those of the text lines
    of the cues, line after line and cue after cue. *)
Theorem combined_text_keeps_ink (cs : list VTTCue) :
  ink (combineCueTexts cs) = concat (List.map ink (concat (List.map textLines cs))).
Proof.
  unfold combineCueTexts.
  rewrite ink_trim, ink_collapse, ink_join_space, map_map.
  induction cs as [| c cs IH]; [reflexivity |].
  cbn [List.map concat]. rewrite IH, map_app, concat_app, ink_join_space.
  reflexivity.
Qed.

(** ** Further properties of [redistributeTranslation] *)

(** X13. When the translated text has exactly as many non-blank lines as
    the group has slots, the lines are handed out as they are: every cue
    gets as many lines as it had, and the lines of the cues, one cue after
    the other, are the trimmed lines of the translated text. *)
Theorem redistribute_exact_fill (group : VTTGroup) (translatedText : jsstring) :
  length (initial_lines translatedText) = totalLines_of group ->
  exists out,
    redistributeTranslation group translatedText = Ok out /\
    line_counts out = line_counts (cues group) /\
    concat (List.map textLines out) = initial_lines translatedText.
Proof.
  intros Hexact.
  destruct (redistribute_lines group translatedText)
    as (run & _ & Hout & Hlines & Hcues & Hcat).
  exists (run_cues run). split; [exact Hout |].
  rewrite underfill_wf_filled, overfill_exact in Hlines by lia.
  pose proof (initial_lines_visible translatedText) as Hvis.
  rewrite <- Hlines in Hvis. split.
  - rewrite Hcues. apply dealt_cues_counts; [exact Hvis |].
    rewrite <- totalLines_of_slot_count, Hlines. simpl. lia.
  - rewrite Hcat, slots_from_firstn by (rewrite Hlines; simpl; lia).
    cbn [skipn]. rewrite filter_all by (apply Forall_firstn, Hvis).
    rewrite Hlines. apply firstn_all2. lia.
Qed.

Lemma redistribute_exact_fill_witness :
  exists out,
    redistributeTranslation group_two_slots (lit "Hola." ++ NEWLINE :: lit "Mundo.")
    = Ok out /\
    line_counts out = line_counts (cues group_two_slots) /\
    concat (List.map textLines out)
    = initial_lines (lit "Hola." ++ NEWLINE :: lit "Mundo.").
Proof.
  apply (redistribute_exact_fill group_two_slots
                                 (lit "Hola." ++ NEWLINE :: lit "Mundo.")).
  reflexivity.
Defined.

Lemma line_break_cuts_front : cuts_front line_break.
Proof.
  intros s rest H. unfold line_break in H.
  destruct s as [| c s]; [discriminate |].
  destruct (c =? NEWLINE)%N.
  - inversion H; subst. exists [c]. reflexivity.
  - destruct (c =? CR)%N; [| discriminate].
    destruct s as [| d s]; [discriminate |].
    destruct (d =? NEWLINE)%N; [| discriminate].
    inversion H; subst. exists [c; d]. reflexivity.
Qed.

Lemma search_incl (m : matcher) :
  cuts_front m ->
  forall s before after,
    search m s = Some (before, after) ->
    (forall x, In x before -> In x s) /\ (forall x, In x after -> In x s).
Proof.
  intros Hm. induction s as [| c s IH]; intros before after H.
  - cbn [search] in H. destruct (m []) as [rest |] eqn:E; [| discriminate].
    inversion H; subst. destruct (Hm _ _ E) as (k & Hk).
    split; [intros x [] |]. intros x Hx. rewrite Hk. apply in_or_app. right. exact Hx.
  - rewrite search_cons in H. destruct (m (c :: s)) as [rest |] eqn:E.
    + inversion H; subst. destruct (Hm _ _ E) as (k & Hk).
      split; [intros x [] |]. intros x Hx. rewrite Hk. apply in_or_app. right. exact Hx.
    + destruct (search m s) as [[b a] |] eqn:Es; [| discriminate].
      inversion H; subst. destruct (IH _ _ eq_refl) as [Hb Ha]. split.
      * intros x [-> | Hx]; [left; reflexivity | right; apply Hb, Hx].
      * intros x Hx. right. apply Ha, Hx.
Qed.

Lemma split_fuel_incl (m : matcher) :
  cuts_front m ->
  forall n s,
    Forall (fun piece => forall x, In x piece -> In x s) (split_fuel n m s).
Proof.
  intros Hm. induction n as [| n IH]; intros s; cbn [split_fuel].
  - constructor; [trivial | constructor].
  - destruct (search m s) as [[b a] |] eqn:E; [| constructor; [trivial | constructor]].
    destruct (search_incl m Hm _ _ _ E) as [Hb Ha].
    constructor; [exact Hb |].
    eapply Forall_impl; [| apply IH]. intros piece Hp x Hx. apply Ha, Hp, Hx.
Qed.

Lemma initial_lines_blank (translatedText : jsstring) :
  all_ws translatedText -> initial_lines translatedText = [].
Proof.
  intros Hws. unfold initial_lines, split_with.
  pose proof (split_fuel_incl line_break line_break_cuts_front
                              (length translatedText) translatedText) as Hincl.
  induction Hincl as [| piece pieces Hpiece _ IH]; [reflexivity |].
  cbn [List.map filter]. rewrite trim_all_ws; [exact IH |].
  unfold all_ws in *. rewrite forallb_forall in *.
  intros x Hx. apply Hws, Hpiece, Hx.
Qed.

Lemma dealt_cues_no_lines (cs : list VTTCue) :
  forall offset, Forall (fun cue => textLines cue = []) (dealt_cues cs [] offset).
Proof.
  induction cs as [| cue rest IH]; intros offset; cbn [dealt_cues]; constructor.
  - cbn [textLines with_textLines]. unfold slots_from.
    generalize (seq offset (length (textLines cue))). intros ks.
    induction ks as [| k ks IHk]; [reflexivity |].
    cbn [List.map filter]. destruct k; exact IHk.
  - apply IH.
Qed.

(** X14. A translated text of white space only (the empty text
    included) leaves every cue of the group without any text line; the
    timing and the number of cues stay. *)
Theorem redistribute_blank_translation (group : VTTGroup) (translatedText : jsstring) :
  all_ws translatedText ->
  exists out,
    redistributeTranslation group translatedText = Ok out /\
    length out = length (cues group) /\
    Forall (fun cue => textLines cue = []) out.
Proof.
  intros Hws.
  destruct (redistribute_lines group translatedText)
    as (run & _ & Hout & Hlines & Hcues & _).
  exists (run_cues run). split; [exact Hout |].
  rewrite (initial_lines_blank _ Hws) in Hlines.
  rewrite underfill_wf_step in Hlines. cbn [length] in Hlines.
  rewrite andb_false_r, overfill_exact in Hlines by (simpl; lia).
  rewrite Hcues, Hlines.
  split; [apply length_dealt_cues | apply dealt_cues_no_lines].
Qed.

Lemma redistribute_blank_translation_witness :
  exists out,
    redistributeTranslation group_three_slots (lit "  " ++ [NEWLINE] ++ lit " ") = Ok out /\
    length out = length (cues group_three_slots) /\
    Forall (fun cue => textLines cue = []) out.
Proof.
  apply (redistribute_blank_translation group_three_slots
                                        (lit "  " ++ [NEWLINE] ++ lit " ")).
  reflexivity.
Defined.

Lemma filter_length_le {A : Type} (f : A -> bool) (l : list A) :
  length (filter f l) <= length l.
Proof.
  induction l as [| x l IH]; [apply Nat.le_refl |].
  cbn [filter]. destruct (f x); simpl; lia.
Qed.

Lemma dealt_cues_bounded (cs : list VTTCue) (lines : list jsstring) :
  forall offset,
    Forall2 (fun cue new => length (textLines new) <= length (textLines cue))
            cs (dealt_cues cs lines offset) /\
    Forall (fun new => Forall (fun line => visible line = true) (textLines new))
           (dealt_cues cs lines offset).
Proof.
  induction cs as [| cue rest IH]; intros offset; cbn [dealt_cues].
  - split; constructor.
  - destruct (IH (offset + length (textLines cue))) as [IH1 IH2].
    split; constructor; try assumption; cbn [textLines with_textLines].
    + etransitivity; [apply filter_length_le |].
      unfold slots_from. rewrite length_map, length_seq. apply Nat.le_refl.
    + apply Forall_forall. intros line Hin. apply filter_In in Hin. apply Hin.
Qed.

(** X15. Whatever the translated text, no cue comes back with more text
    lines than it had, and no text line that comes back is blank. *)
Theorem redistribute_lines_bounded (group : VTTGroup) (translatedText : jsstring) :
  exists out,
    redistributeTranslation group translatedText = Ok out /\
    Forall2 (fun cue new => length (textLines new) <= length (textLines cue))
            (cues group) out /\
    Forall (fun new => Forall (fun line => trim line <> []) (textLines new)) out.
Proof.
  destruct (redistribute_lines group translatedText)
    as (run & _ & Hout & _ & Hcues & _).
  exists (run_cues run). split; [exact Hout |]. rewrite Hcues.
  destruct (dealt_cues_bounded (cues group) (run_lines run) 0) as [H1 H2].
  split; [exact H1 |].
  eapply Forall_impl; [| exact H2]. intros new Hnew.
  eapply Forall_impl; [| exact Hnew]. intros line Hline Hnil.
  unfold visible in Hline. rewrite Hnil in Hline. discriminate.
Qed.

(** ** The translated text is kept through under-fill and over-fill *)

Lemma join_cons (sep x : jsstring) {l : list jsstring} :
  l <> [] -> join sep (x :: l) = x ++ sep ++ join sep l.
Proof. destruct l; [congruence | reflexivity]. Qed.

Lemma join_app (sep : jsstring) (a b : list jsstring) :
  a <> [] -> b <> [] -> join sep (a ++ b) = join sep a ++ sep ++ join sep b.
Proof.
  intros Ha Hb. induction a as [| x a IH]; [congruence |].
  destruct a as [| y a].
  - cbn [app]. rewrite join_cons by exact Hb. reflexivity.
  - cbn [app] in *.
    rewrite (join_cons sep x (l := y :: a ++ b)) by discriminate.
    rewrite (join_cons sep x (l := y :: a)) by discriminate.
    rewrite IH by discriminate. repeat rewrite <- app_assoc. reflexivity.
Qed.

Lemma join_pair (sep : jsstring) (a b : list jsstring) (x y : jsstring) :
  join sep (a ++ [x; y] ++ b) = join sep (a ++ [x ++ sep ++ y] ++ b).
Proof.
  induction a as [| c a IH].
  - cbn [app]. destruct b as [| z b].
    + reflexivity.
    + rewrite (join_cons sep x (l := y :: z :: b)) by discriminate.
      rewrite (join_cons sep y (l := z :: b)) by discriminate.
      change (join sep ((x ++ sep ++ y) :: z :: b))
        with ((x ++ sep ++ y) ++ sep ++ join sep (z :: b)).
      repeat rewrite <- app_assoc. reflexivity.
  - cbn [app].
    rewrite (join_cons sep c (l := a ++ x :: y :: b)) by (destruct a; discriminate).
    rewrite (join_cons sep c (l := a ++ (x ++ sep ++ y) :: b))
      by (destruct a; discriminate).
    cbn [app] in IH. rewrite IH. reflexivity.
Qed.

Lemma join_merge_tail (sep : jsstring) (a b : list jsstring) :
  b <> [] -> join sep (a ++ [join sep b]) = join sep (a ++ b).
Proof.
  intros Hb. induction a as [| x a IH]; [reflexivity |].
  cbn [app].
  rewrite (join_cons sep x (l := a ++ [join sep b])) by (destruct a; discriminate).
  rewrite (join_cons sep x (l := a ++ b))
    by (destruct a; [exact Hb | discriminate]).
  rewrite IH. reflexivity.
Qed.

Lemma join_split_char (c : char) (s : jsstring) : join [c] (split [c] s) = s.
Proof.
  induction s as [| x s IH]; [reflexivity |].
  rewrite split_char_cons.
  destruct (split_char_nonempty c s) as (piece & more & Hsplit).
  rewrite Hsplit in *. destruct (N.eqb_spec x c) as [-> | _].
  - change (join [c] ([] :: piece :: more))
      with ([] ++ [c] ++ join [c] (piece :: more)).
    rewrite IH. reflexivity.
  - cbn [cons_head]. destruct more as [| next more].
    + cbn [join] in *. rewrite IH. reflexivity.
    + change (join [c] ((x :: piece) :: next :: more))
        with ((x :: piece) ++ [c] ++ join [c] (next :: more)).
      change (join [c] (piece :: next :: more))
        with (piece ++ [c] ++ join [c] (next :: more)) in IH.
      rewrite <- IH. reflexivity.
Qed.

Lemma ceil_half_bounds (n : nat) : 2 <= n -> 1 <= ceil_half n < n.
Proof.
  intros Hn. unfold ceil_half.
  pose proof (Nat.div2_odd (S n)) as H.
  destruct (Nat.odd (S n)); cbn [Nat.b2n] in H; lia.
Qed.

Lemma halves_join (line : jsstring) :
  2 <= length (words_of line) ->
  join [SPACE] (firstn (ceil_half (length (words_of line))) (words_of line))
  ++ [SPACE]
  ++ join [SPACE] (skipn (ceil_half (length (words_of line))) (words_of line))
  = line.
Proof.
  intros Hmany. pose proof (ceil_half_bounds _ Hmany) as Hmid.
  rewrite <- join_app.
  - rewrite firstn_skipn. apply join_split_char.
  - intros Hnil. apply (f_equal (@length _)) in Hnil.
    rewrite length_firstn in Hnil. simpl in Hnil. lia.
  - intros Hnil. apply (f_equal (@length _)) in Hnil.
    rewrite length_skipn in Hnil. simpl in Hnil. lia.
Qed.

Lemma halve_at_join (lines : list jsstring) (i : nat) :
  i < length lines ->
  2 <= length (words_of (nth i lines [])) ->
  join [SPACE] (halve_at lines i) = join [SPACE] lines.
Proof.
  intros Hi Hmany. unfold halve_at. rewrite join_pair.
  rewrite (halves_join _ Hmany).
  rewrite <- (firstn_skipn i lines) at 4.
  rewrite (@skipn_cons_nth jsstring [] lines i Hi). reflexivity.
Qed.

Lemma underfills_join (slotCount : nat) (lines final : list jsstring) :
  underfills slotCount lines final ->
  join [SPACE] final = join [SPACE] lines.
Proof.
  induction 1 as [| | lines i final Hlen Hi Hmany _ IH]; try reflexivity.
  rewrite IH. apply halve_at_join; [apply Hi | exact Hmany].
Qed.

Lemma overfill_join (totalLines : nat) (lines : list jsstring) :
  0 < totalLines ->
  join [SPACE] (overfill totalLines lines) = join [SPACE] lines.
Proof.
  intros Hpos.
  destruct (Nat.le_gt_cases (length lines) totalLines) as [Hle | Hgt].
  - rewrite overfill_exact by exact Hle. reflexivity.
  - rewrite overfill_merge by lia. rewrite join_merge_tail.
    + rewrite firstn_skipn. reflexivity.
    + intros Hnil. apply (f_equal (@length _)) in Hnil.
      rewrite length_skipn in Hnil. simpl in Hnil. lia.
Qed.

Lemma slots_from_pad (lines : list jsstring) (n : nat) :
  length lines <= n ->
  slots_from lines 0 n = lines ++ repeat [] (n - length lines).
Proof.
  intros Hle. unfold slots_from.
  replace n with (length lines + (n - length lines)) at 1 by lia.
  rewrite seq_app, map_app. f_equal.
  - pose proof (slots_from_firstn lines 0 (length lines)) as H.
    unfold slots_from in H. rewrite H by lia. cbn [skipn]. apply firstn_all.
  - cbn [Nat.add]. generalize (n - length lines). intros m.
    assert (Hgen : forall start, length lines <= start ->
                     List.map (fun k => nth k lines []) (seq start m) = repeat [] m).
    { induction m as [| m IH]; intros start Hstart; [reflexivity |].
      cbn [seq List.map repeat]. rewrite nth_overflow by exact Hstart.
      f_equal. apply IH. lia. }
    apply Hgen. lia.
Qed.

Lemma filter_visible_pad (lines : list jsstring) (m : nat) :
  filter visible (lines ++ repeat [] m) = filter visible lines.
Proof.
  rewrite filter_app.
  assert (H : filter visible (repeat [] m) = []).
  { induction m as [| m IH]; [reflexivity | exact IH]. }
  rewrite H. apply app_nil_r.
Qed.

(** X16. For a group with at least one slot, under-fill and over-fill
    only move line breaks: joined with single spaces, the lines after the
    two phases are the trimmed lines of the translated text joined with
    single spaces.  There are then no more lines than slots, and the cues
    come back with exactly the non-blank ones among these lines, in
    order; so when none of them is blank, the text lines that come back,
    joined with single spaces, are the translated lines joined with single
    spaces. *)
Theorem redistribute_keeps_text (group : VTTGroup) (translatedText : jsstring) :
  0 < totalLines_of group ->
  exists run,
    redistribute_run group translatedText = Ok run /\
    redistributeTranslation group translatedText = Ok (run_cues run) /\
    join [SPACE] (run_lines run) = join [SPACE] (initial_lines translatedText) /\
    length (run_lines run) <= totalLines_of group /\
    concat (List.map textLines (run_cues run)) = filter visible (run_lines run) /\
    (Forall (fun line => visible line = true) (run_lines run) ->
     join [SPACE] (concat (List.map textLines (run_cues run)))
     = join [SPACE] (initial_lines translatedText)).
Proof.
  intros Hpos.
  destruct (redistribute_returns group translatedText)
    as (run & Hrun & Hout & Hcues & Hover & _ & Hres).
  exists run. split; [exact Hrun |]. split; [exact Hout |].
  destruct Hres as (_ & Hrel & Hlen & _ & Hbound & _).
  assert (Hjoin : join [SPACE] (run_lines run)
                  = join [SPACE] (initial_lines translatedText)).
  { rewrite Hover, overfill_join by exact Hpos. apply (underfills_join _ _ _ Hrel). }
  assert (Hfit : length (run_lines run) <= totalLines_of group).
  { rewrite Hover.
    destruct (Nat.le_gt_cases (length (uf_lines (run_underfill run)))
                              (totalLines_of group)) as [Hle | Hgt].
    - rewrite overfill_exact by exact Hle. exact Hle.
    - rewrite overfill_merge by lia. rewrite length_app, length_firstn. simpl. lia. }
  assert (Hcat : concat (List.map textLines (run_cues run))
                 = filter visible (run_lines run)).
  { rewrite Hcues, dealt_cues_lines, <- totalLines_of_slot_count.
    rewrite slots_from_pad by exact Hfit. apply filter_visible_pad. }
  split; [exact Hjoin |]. split; [exact Hfit |]. split; [exact Hcat |].
  intros Hvis. rewrite Hcat, filter_all by exact Hvis. exact Hjoin.
Qed.

Lemma redistribute_keeps_text_witness :
  exists run,
    redistribute_run group_three_slots (lit "uno dos tres cuatro") = Ok run /\
    redistributeTranslation group_three_slots (lit "uno dos tres cuatro")
    = Ok (run_cues run) /\
    join [SPACE] (run_lines run)
    = join [SPACE] (initial_lines (lit "uno dos tres cuatro")) /\
    length (run_lines run) <= totalLines_of group_three_slots /\
    concat (List.map textLines (run_cues run)) = filter visible (run_lines run) /\
    (Forall (fun line => visible line = true) (run_lines run) ->
     join [SPACE] (concat (List.map textLines (run_cues run)))
     = join [SPACE] (initial_lines (lit "uno dos tres cuatro"))).
Proof.
  apply (redistribute_keeps_text group_three_slots (lit "uno dos tres cuatro")).
  vm_compute. lia.
Defined.

(** ** The translation pass *)

Import VTTTranslator.

Lemma redistribute_same_slot (group : VTTGroup) (text : jsstring) :
  exists out,
    redistributeTranslation group text = Ok out /\
    Forall2 same_slot (cues group) out.
Proof.
  destruct (redistribute_returns group text) as (run & _ & Hout & Hcues & _).
  exists (run_cues run). split; [exact Hout |].
  rewrite Hcues. apply dealt_cues_same_slot.
Qed.

Lemma get_middle {A : Type} (done rest : list A) (x : A) :
  get (done ++ x :: rest) (length done) = Some x.
Proof.
  unfold get. rewrite nth_error_app2 by lia. rewrite Nat.sub_diag. reflexivity.
Qed.

(** The loop over the groups when every request it makes succeeds. *)
Lemma translate_loop_success (translateText : nat -> jsstring -> TranslationResponse)
      (rest : list VTTGroup) :
  forall done translatedCues,
    (forall i group,
        nth_error (done ++ rest) i = Some group ->
        success (translateText i (combinedText group)) = true) ->
    exists out,
      for_attempt (length rest) (length done)
                  (translate_body translateText (done ++ rest)) translatedCues
      = Returned (translatedCues ++ out) /\
      Forall2 same_slot (concat (List.map cues rest)) out.
Proof.
  induction rest as [| group rest IH]; intros done translatedCues Hok.
  - exists []. rewrite !app_nil_r. split; [reflexivity | constructor].
  - cbn [length for_attempt]. unfold translate_body at 1.
    rewrite get_middle. cbn [deref lift and_then].
    rewrite (Hok (length done) group) by (apply (get_middle done rest group)).
    destruct (redistribute_same_slot
                group (translatedText (translateText (length done) (combinedText group))))
      as (out1 & Hout1 & Hsame1).
    rewrite Hout1. cbn [lift and_then].
    specialize (IH (done ++ [group]) (translatedCues ++ out1)).
    rewrite <- app_assoc, length_app in IH. cbn [app length] in IH.
    replace (length done + 1) with (S (length done)) in IH by lia.
    destruct (IH Hok) as (out2 & Hout2 & Hsame2).
    exists (out1 ++ out2). rewrite Hout2, <- app_assoc.
    split; [reflexivity |].
    cbn [List.map concat]. apply Forall2_app; assumption.
Qed.

(** The loop over the groups when a request fails. *)
Lemma translate_loop_failure (translateText : nat -> jsstring -> TranslationResponse)
      (before : list VTTGroup) :
  forall done translatedCues group after k,
    k = length done + length before ->
    (forall i g,
        nth_error (done ++ before) i = Some g ->
        success (translateText i (combinedText g)) = true) ->
    success (translateText k (combinedText group)) = false ->
    for_attempt (length (before ++ group :: after)) (length done)
                (translate_body translateText (done ++ before ++ group :: after))
                translatedCues
    = ThrewError (error_message (translateText k (combinedText group))).
Proof.
  induction before as [| g before IH];
    intros done translatedCues group after k Hk Hok Hfail.
  - cbn [length] in Hk. rewrite Nat.add_0_r in Hk. subst k.
    cbn [app length for_attempt]. unfold translate_body at 1.
    rewrite get_middle. cbn [deref lift and_then].
    rewrite Hfail. reflexivity.
  - cbn [app length for_attempt]. unfold translate_body at 1.
    rewrite get_middle. cbn [deref lift and_then].
    rewrite (Hok (length done) g) by (apply (get_middle done before g)).
    destruct (redistribute_same_slot
                g (translatedText (translateText (length done) (combinedText g))))
      as (out1 & Hout1 & _).
    rewrite Hout1. cbn [lift and_then].
    specialize (IH (done ++ [g]) (translatedCues ++ out1) group after k).
    rewrite <- !app_assoc in IH. cbn [app] in IH.
    replace (length (done ++ [g])) with (S (length done)) in IH
      by (rewrite length_app; simpl; lia).
    apply IH; [cbn [length] in Hk; lia | exact Hok | exact Hfail].
Qed.

Lemma same_slot_indices (cs out : list VTTCue) :
  Forall2 same_slot cs out ->
  List.map originalIndex out = List.map originalIndex cs.
Proof.
  induction 1 as [| a b cs out Hab _ IH]; [reflexivity |].
  destruct Hab as (_ & _ & Hi). cbn [List.map]. rewrite Hi, IH. reflexivity.
Qed.

Lemma same_slot_indexed (cs out : list VTTCue) :
  Forall2 same_slot cs out -> indexed_from_zero cs -> indexed_from_zero out.
Proof.
  unfold indexed_from_zero. intros Hsame Hidx.
  rewrite (same_slot_indices cs out Hsame), Hidx.
  rewrite (Forall2_length Hsame). reflexivity.
Qed.

(** X17. When the text is not blank and every request to the translation
    service succeeds, [translateVTT] leaves a translated content: the text
    [reconstructVTT] writes for cues that are, one for one and in the order
    of the parsed cues, cues with the same [startTime], [endTime] and
    [originalIndex]; the sort finds them in order, so the blocks are
    written in the order of the input. *)
Theorem translate_keeps_timing
        (translateText : nat -> jsstring -> TranslationResponse)
        (vttContent : jsstring) :
  trim vttContent <> [] ->
  (forall i text, success (translateText i text) = true) ->
  exists cs out,
    parse vttContent = Ok cs /\
    translateVTT translateText vttContent = Translated (reconstructVTT out) /\
    Forall2 same_slot cs out /\
    reconstructVTT out
    = trim (lit "WEBVTT" ++ [NEWLINE; NEWLINE] ++ concat (List.map cue_block out)).
Proof.
  intros Hcontent Hok.
  set (cs := parse_lines (split [NEWLINE] vttContent)).
  destruct (translate_loop_success translateText
              (List.map close_group (group_runs cs)) [] [])
    as (out & Hloop & Hsame).
  { intros i group _. apply Hok. }
  rewrite map_cues_close_group, group_runs_concat in Hsame.
  exists cs, out. split; [apply parse_returns |].
  split; [| split; [exact Hsame |]].
  - unfold translateVTT.
    destruct (Nat.eqb_spec (length (trim vttContent)) 0) as [Hblank | _].
    { destruct (trim vttContent); [congruence | discriminate]. }
    unfold translate_steps. rewrite parse_returns. cbn [lift and_then].
    fold cs. rewrite group_returns. cbn [lift and_then].
    cbn [app length] in Hloop. rewrite Hloop. reflexivity.
  - apply reconstruct_indexed.
    apply (same_slot_indexed cs out Hsame). apply parse_lines_indexed.
Qed.

Lemma translate_keeps_timing_witness :
  exists cs out,
    parse sample_vtt = Ok cs /\
    translateVTT echo_service sample_vtt = Translated (reconstructVTT out) /\
    Forall2 same_slot cs out /\
    reconstructVTT out
    = trim (lit "WEBVTT" ++ [NEWLINE; NEWLINE] ++ concat (List.map cue_block out)).
Proof.
  apply (translate_keeps_timing echo_service sample_vtt).
  - vm_compute. discriminate.
  - intros i text. reflexivity.
Defined.

(** X18. When the request for some group fails after the requests for
    all groups before it succeeded, [translateVTT] stops there: it leaves
    no translated content, and the failure it shows is the error of the
    response, or "Translation failed" when the response has none (or an
    empty one). *)
Theorem translate_stops_at_failure
        (translateText : nat -> jsstring -> TranslationResponse)
        (vttContent : jsstring) (cs : list VTTCue)
        (before : list VTTGroup) (group : VTTGroup) (after : list VTTGroup) :
  trim vttContent <> [] ->
  parse vttContent = Ok cs ->
  groupCuesIntoSentences cs = Ok (before ++ group :: after) ->
  (forall i g, nth_error before i = Some g ->
               success (translateText i (combinedText g)) = true) ->
  success (translateText (length before) (combinedText group)) = false ->
  translateVTT translateText vttContent
  = Failed (error_message (translateText (length before) (combinedText group))).
Proof.
  intros Hcontent Hparse Hgroups Hok Hfail.
  unfold translateVTT.
  destruct (Nat.eqb_spec (length (trim vttContent)) 0) as [Hblank | _].
  { destruct (trim vttContent); [congruence | discriminate]. }
  unfold translate_steps. rewrite Hparse. cbn [lift and_then].
  rewrite Hgroups. cbn [lift and_then].
  pose proof (translate_loop_failure translateText before [] [] group after
                                     (length before) eq_refl Hok Hfail) as Hloop.
  cbn [app length] in Hloop. rewrite Hloop. reflexivity.
Qed.

Lemma translate_stops_at_failure_witness :
  translateVTT failing_service sample_vtt
  = Failed (error_message
              (failing_service (length [close_group [cue_hello_parsed]])
                               (combinedText (close_group [cue_world_parsed])))).
Proof.
  apply (translate_stops_at_failure
           failing_service sample_vtt [cue_hello_parsed; cue_world_parsed]
           [close_group [cue_hello_parsed]] (close_group [cue_world_parsed]) []).
  - vm_compute. discriminate.
  - vm_compute. reflexivity.
  - vm_compute. reflexivity.
  - intros i g Hi. destruct i as [| i]; [reflexivity |].
    destruct i; discriminate.
  - reflexivity.
Defined.
